(** * blizzard-casc: the three binary catalogue parsers

    A shallow embedding of [parseIndexFile], [parseEncodingFile] and
    [parseRootFile] of [blizzard-casc.js], with the properties of the
    archive index, the encoding table and the root table stated over it.

    JavaScript numbers are modelled as [Z]; every value the parsers compute
    is an integer, exact as long as it stays inside the safe-integer range
    of a double.  Byte buffers are [list byte]; hex strings are [string]. *)

From Stdlib Require Import ZArith Lia.
From Stdlib.Strings Require Import Byte Ascii String.
From Stdlib Require Import Sorted.
From stdpp Require Import base strings list gmap.

Local Open Scope Z_scope.

(** ** Results and errors *)

(** The errors a parse can end with.  The names are those of the error
    taxonomy; the thrown JavaScript messages are given next to each.
    [OutOfFuel] is not an error of the program: it marks a loop bound of the
    model that was chosen too low; [parseEncodingFile_Err] and
    [parseRootFile_Err] show that the parsers never end with it. *)
Inductive error : Type :=
  | BufferUnderrun        (* a cursor read or seek outside the buffer *)
  | CorruptArchiveIndex   (* 'Unable to parse archive, unexpected size.' *)
  | InvalidRootBlock      (* 'Root: No locale specified.' /
                             'Root: Invalid content flag set (%d)' *)
  | TypeError             (* property access on [undefined] *)
  | OutOfFuel.

Inductive result (A : Type) : Type :=
  | Ok (a : A)
  | Err (e : error).
Arguments Ok {A} a.
Arguments Err {A} e.

(** ** Bytes and integers *)

Definition byteVal (b : byte) : Z := Z.of_N (Byte.to_N b).

Definition byteOf (z : Z) : byte :=
  match Byte.of_N (Z.to_N (z mod 256)) with
  | Some b => b
  | None => x00
  end.

(** Unsigned value of a little-endian byte sequence. *)
Fixpoint uintLE (bs : list byte) : Z :=
  match bs with
  | [] => 0
  | b :: r => byteVal b + 256 * uintLE r
  end.

Inductive endian : Type := ENDIAN_LITTLE | ENDIAN_BIG.

Definition uintOf (e : endian) (bs : list byte) : Z :=
  match e with
  | ENDIAN_LITTLE => uintLE bs
  | ENDIAN_BIG => uintLE (rev bs)
  end.

(** Two's-complement reading of a [bits]-bit unsigned value. *)
Definition toSigned (bits : Z) (u : Z) : Z :=
  if u <? 2 ^ (bits - 1) then u else u - 2 ^ bits.

Definition intOf (e : endian) (bs : list byte) : Z :=
  toSigned (8 * Z.of_nat (length bs)) (uintOf e bs).

(** Encoders, used to describe the buffers the theorems quantify over. *)
Definition le32 (v : Z) : list byte :=
  [byteOf v; byteOf (v / 256); byteOf (v / 65536); byteOf (v / 16777216)].

Definition be32 (v : Z) : list byte := rev (le32 v).

Definition le16 (v : Z) : list byte := [byteOf v; byteOf (v / 256)].

(** ** Hex strings (bytey.byteArrayToHexString) *)

(** Modelled from the spec: [bytey.byteArrayToHexString] belongs to the
    [bytey] package, which is not among the sources.  Keys are "canonical
    lowercase hex strings over the raw fixed-width bytes": two lowercase
    hex digits per byte, in buffer order. *)
Definition hexDigit (n : Z) : ascii :=
  match n with
  | 0 => "0" | 1 => "1" | 2 => "2" | 3 => "3" | 4 => "4" | 5 => "5"
  | 6 => "6" | 7 => "7" | 8 => "8" | 9 => "9" | 10 => "a" | 11 => "b"
  | 12 => "c" | 13 => "d" | 14 => "e" | _ => "f"
  end%char.

(** Modelled from the spec: the two lowercase hex digits of one byte. *)
Definition byteToHex (b : byte) : string :=
  String (hexDigit (byteVal b / 16))
    (String (hexDigit (byteVal b mod 16)) EmptyString).

(** Modelled from the spec: [bytey.byteArrayToHexString], the hex digits
    of the bytes one after the other. *)
Fixpoint byteArrayToHexString (bs : list byte) : string :=
  match bs with
  | [] => EmptyString
  | b :: r => (byteToHex b ++ byteArrayToHexString r)%string
  end.

(** ** The byte cursor (Bufo) *)

(** Modelled from the spec: the [bufo] package ([Bufo], and [BLTEReader]
    of [node-blte], which extends it) is not among the sources.  It is the
    "ByteCursor": sequential reads of fixed-width big/little-endian integers
    and raw byte spans from an in-memory buffer, with absolute and relative
    seek and bounds checking.  A read or seek that leaves the buffer is a
    [BufferUnderrun]; a negative argument of [seek] counts from the end of
    the buffer; reads without an endianness argument are little-endian.
    A read may end at the end of the buffer, which is where the cursor
    then stands; [seek] and [move] only go to a byte of the buffer, the
    end of the buffer is out of bounds for them. *)
Record Bufo : Type := mkBufo { buffer : list byte; offset : Z }.

(** Modelled from the spec: [Bufo.byteLength], the size of the buffer. *)
Definition byteLength (b : Bufo) : Z := Z.of_nat (length (buffer b)).

(** Modelled from the spec: the endianness of a read that names none;
    the parsers never change it. *)
Definition defaultEndian : endian := ENDIAN_LITTLE.

(** Cursor computations: the cursor object is threaded through, a thrown
    error ends the computation. *)
Definition M (A : Type) : Type := Bufo -> result (A * Bufo).

Definition ret {A} (a : A) : M A := fun b => Ok (a, b).

Definition throw {A} (e : error) : M A := fun _ => Err e.

Definition bind {A B} (m : M A) (k : A -> M B) : M B :=
  fun b => match m b with
           | Ok (a, b') => k a b'
           | Err e => Err e
           end.

Notation "x <- c1 ;; c2" := (bind c1 (fun x => c2))
  (at level 100, c1 at next level, right associativity).
Notation "c1 ;; c2" := (bind c1 (fun _ => c2))
  (at level 100, right associativity).

(** Reading the properties [offset] and [byteLength] of the cursor. *)
Definition getOffset : M Z := fun b => Ok (offset b, b).

Definition getByteLength : M Z := fun b => Ok (byteLength b, b).

(** Modelled from the spec: the positions a cursor may stand at, the end
    of the buffer included. *)
Definition inBounds (b : Bufo) (pos : Z) : bool :=
  (0 <=? pos) && (pos <=? byteLength b).

(** Modelled from the spec: [Bufo.seek], the absolute seek; a negative
    position counts from the end of the buffer.  The bounds check is on
    the size of the argument, which has to be less than the length of the
    buffer: [seek(0)] on an empty buffer and [seek(-n)] on a buffer of [n]
    bytes are out of bounds. *)
Definition seek (pos : Z) : M unit := fun b =>
  if Z.abs pos <? byteLength b
  then Ok (tt, mkBufo (buffer b) (if pos <? 0 then byteLength b + pos else pos))
  else Err BufferUnderrun.

(** Modelled from the spec: [Bufo.move], the relative seek.  The position
    it goes to has to be that of a byte of the buffer: a move to the end
    of the buffer is out of bounds. *)
Definition move (delta : Z) : M unit := fun b =>
  let target := offset b + delta in
  if (0 <=? target) && (target <? byteLength b)
  then Ok (tt, mkBufo (buffer b) target)
  else Err BufferUnderrun.

(** Modelled from the spec: [Bufo.readUInt8(count)], the next [count]
    bytes as an array; the cursor moves behind them. *)
Definition readUInt8 (count : nat) : M (list byte) := fun b =>
  if inBounds b (offset b) && (offset b + Z.of_nat count <=? byteLength b)
  then Ok (take count (drop (Z.to_nat (offset b)) (buffer b)),
           mkBufo (buffer b) (offset b + Z.of_nat count))
  else Err BufferUnderrun.

(** Modelled from the spec: [Bufo.readUInt16], [Bufo.readUInt32] and
    [Bufo.readInt32], one integer of 2 or 4 bytes in the given byte order,
    unsigned or in two's complement. *)
Definition readUInt16 (e : endian) : M Z :=
  bs <- readUInt8 2 ;; ret (uintOf e bs).

Definition readUInt32 (e : endian) : M Z :=
  bs <- readUInt8 4 ;; ret (uintOf e bs).

Definition readInt32 (e : endian) : M Z :=
  bs <- readUInt8 4 ;; ret (intOf e bs).

(** Run a cursor computation on a fresh cursor over [data] and keep its
    value. *)
Definition run {A} (m : M A) (data : list byte) : result A :=
  match m (mkBufo data 0) with
  | Ok (a, _) => Ok a
  | Err e => Err e
  end.

(** ** parseIndexFile *)

(** An entry of the archive index.  The source names the key field
    [Hash]. *)
Record IndexEntry : Type := mkIndexEntry {
  ieHash : string;
  ieSize : Z;
  ieOffset : Z
}.

(** The loop [for (let j = 0; j < count; j++)]; [n] counts the iterations
    that remain. *)
Fixpoint indexEntries (n : nat) (entries : list IndexEntry)
  : M (list IndexEntry) :=
  match n with
  | O => ret entries
  | S n' =>
      hash <- readUInt8 16 ;;
      size <- readInt32 ENDIAN_BIG ;;
      off <- readInt32 ENDIAN_BIG ;;
      indexEntries n'
        (entries ++ [mkIndexEntry (byteArrayToHexString hash) size off])
  end.

(** [archive.seek(-12); count = archive.readInt32(); archive.seek(0)]. *)
Definition indexCount : M Z :=
  seek (-12) ;;
  count <- readInt32 defaultEndian ;;
  seek 0 ;;
  ret count.

Definition parseIndex : M (list IndexEntry) :=
  count <- indexCount ;;
  len <- getByteLength ;;
  if count * 24 >? len then throw CorruptArchiveIndex
  else indexEntries (Z.to_nat count) [].

Definition parseIndexFile (archive : list byte) : result (list IndexEntry) :=
  run parseIndex archive.

(** ** parseEncodingFile *)

(** An entry of the encoding table.  [eeKey] is the variable [entryKey],
    which is declared without a value: [None] stands for [undefined]. *)
Record EncodingEntry : Type := mkEncodingEntry {
  eeHash : string;
  eeKey : option string;
  eeSize : Z
}.

(** The loop [for (let j = 0; j < keysCount; j++)]: every key is read, the
    one at [j === 0] is kept.  [n] counts the iterations that remain. *)
Fixpoint encodingKeys (n : nat) (j : Z) (entryKey : option string)
  : M (option string) :=
  match n with
  | O => ret entryKey
  | S n' =>
      bs <- readUInt8 16 ;;
      let key := byteArrayToHexString bs in
      encodingKeys n' (j + 1) (if j =? 0 then Some key else entryKey)
  end.

(** The body of the [while] loop up to the entry it pushes. *)
Definition encodingGroup (keysCount : Z) : M EncodingEntry :=
  fileSize <- readUInt32 ENDIAN_BIG ;;
  bs <- readUInt8 16 ;;
  let hash := byteArrayToHexString bs in
  entryKey <- encodingKeys (Z.to_nat keysCount) 0 None ;;
  ret (mkEncodingEntry hash entryKey fileSize).

(** [while (keysCount !== 0) { ...; keysCount = encoding.readUInt16(); }] *)
Fixpoint encodingGroups (fuel : nat) (keysCount : Z)
    (entries : list EncodingEntry) : M (list EncodingEntry) :=
  if keysCount =? 0 then ret entries
  else match fuel with
       | O => throw OutOfFuel
       | S fuel' =>
           e <- encodingGroup keysCount ;;
           keysCount' <- readUInt16 defaultEndian ;;
           encodingGroups fuel' keysCount' (entries ++ [e])
       end.

(** JavaScript's [%] on integers truncates towards zero: [Z.rem]. *)
Definition alignChunk (chunkStart : Z) : M unit :=
  off <- getOffset ;;
  let remainingBytes := 4096 - Z.rem (off - chunkStart) 4096 in
  if remainingBytes >? 0 then move remainingBytes else ret tt.

(** A bound on the iterations of a loop that consumes bytes: the number of
    bytes of the buffer. *)
Definition getFuel : M nat := fun b => Ok (length (buffer b), b).

(** One iteration of [for (let i = 0; i < numEntriesA; i++)]. *)
Definition encodingChunk (chunkStart : Z) (entries : list EncodingEntry)
  : M (list EncodingEntry) :=
  fuel <- getFuel ;;
  keysCount <- readUInt16 defaultEndian ;;
  entries' <- encodingGroups fuel keysCount entries ;;
  alignChunk chunkStart ;;
  ret entries'.

Fixpoint encodingChunks (n : nat) (chunkStart : Z)
    (entries : list EncodingEntry) : M (list EncodingEntry) :=
  match n with
  | O => ret entries
  | S n' =>
      entries' <- encodingChunk chunkStart entries ;;
      encodingChunks n' chunkStart entries'
  end.

Definition parseEncoding : M (list EncodingEntry) :=
  seek 9 ;;
  numEntriesA <- readInt32 ENDIAN_BIG ;;
  move 5 ;;
  stringBlockSize <- readInt32 ENDIAN_BIG ;;
  move stringBlockSize ;;
  move (numEntriesA * 32) ;;
  chunkStart <- getOffset ;;
  encodingChunks (Z.to_nat numEntriesA) chunkStart [].

Definition parseEncodingFile (encoding : list byte)
  : result (list EncodingEntry) :=
  run parseEncoding encoding.

(** ** parseRootFile *)

Definition LOCALE_FLAG_None : Z := 0.

Definition CONTENT_FLAG_None : Z := 0.
Definition CONTENT_FLAG_F00000008 : Z := 0x8.
Definition CONTENT_FLAG_F00000010 : Z := 0x10.
Definition CONTENT_FLAG_F20000000 : Z := 0x20000000.
Definition CONTENT_FLAG_NoCompression : Z := 0x80000000.

(** The bitwise operators of JavaScript work on the 32-bit two's-complement
    reading of their operands. *)
Definition ToInt32 (z : Z) : Z := toSigned 32 (z mod 2 ^ 32).

Definition js_bitor (a b : Z) : Z := Z.lor (ToInt32 a) (ToInt32 b).

Definition js_bitand (a b : Z) : Z := Z.land (ToInt32 a) (ToInt32 b).

(** A boolean used as a number. *)
Definition js_number_of_bool (b : bool) : Z := if b then 1 else 0.

(** [(F00000008 | F00000010 | NoCompression | F20000000)] *)
Definition contentFlagMask : Z :=
  js_bitor
    (js_bitor (js_bitor CONTENT_FLAG_F00000008 CONTENT_FLAG_F00000010)
       CONTENT_FLAG_NoCompression)
    CONTENT_FLAG_F20000000.

(** The condition of the second [throw]:
    [contentFlag !== None && (contentFlag & (mask) === 0)].
    [===] binds tighter than [&], so the right operand of [&&] is
    [contentFlag & ((mask) === 0)], a number, taken as a truth value. *)
Definition contentFlagRejected (contentFlag : Z) : bool :=
  if negb (contentFlag =? CONTENT_FLAG_None)
  then negb (js_bitand contentFlag
               (js_number_of_bool (contentFlagMask =? 0)) =? 0)
  else false.

(** What the error message of that [throw] describes: a non-zero flag with
    none of the four bits of the mask. *)
Definition contentFlagOutsideMask (contentFlag : Z) : bool :=
  negb (contentFlag =? CONTENT_FLAG_None)
  && (js_bitand contentFlag contentFlagMask =? 0).

Record TypePair : Type := mkTypePair { LocaleFlag : Z; ContentFlag : Z }.

(** [reType] copies the property [RootType] of a slot of the block's array;
    [None] stands for [undefined]. *)
Record RootEntry : Type := mkRootEntry {
  reHash : string;
  reFileDataID : Z;
  reKey : string;
  reType : option Z
}.

(** The elements of the array [entries] declared inside the [while] loop:
    the first loop stores [{RootType, FileDataID}] objects, the second loop
    pushes [{Hash, FileDataID, Key, Type}] objects behind them. *)
Inductive RootSlot : Type :=
  | Pending (RootType FileDataID : Z)
  | Pushed (e : RootEntry).

Definition slotFileDataID (s : RootSlot) : Z :=
  match s with
  | Pending _ fileDataID => fileDataID
  | Pushed e => reFileDataID e
  end.

Definition slotRootType (s : RootSlot) : option Z :=
  match s with
  | Pending rootType _ => Some rootType
  | Pushed _ => None
  end.

(** [a[i] = v] on a JavaScript array: an index past the end extends the
    array, leaving holes. *)
Definition arraySet {A} (a : list (option A)) (i : nat) (v : A)
  : list (option A) :=
  if decide (i < length a)%nat then <[i := Some v]> a
  else a ++ replicate (i - length a) None ++ [Some v].

(** The first [for] loop of a block.  [entries[i] = ...] with [i] equal
    to the length of the array appends. *)
Fixpoint rootIds (n : nat) (typeIndex fileDataIndex : Z)
    (entries : list RootSlot) : M (list RootSlot) :=
  match n with
  | O => ret entries
  | S n' =>
      delta <- readInt32 defaultEndian ;;
      let nextID := fileDataIndex + delta in
      rootIds n' typeIndex (nextID + 1) (entries ++ [Pending typeIndex nextID])
  end.

(** The second [for] loop of a block. *)
Fixpoint rootRows (n : nat) (i : nat) (entries : list RootSlot)
    (rootIndex : gmap Z string) : M (list RootSlot * gmap Z string) :=
  match n with
  | O => ret (entries, rootIndex)
  | S n' =>
      kbs <- readUInt8 16 ;;
      hbs <- readUInt8 8 ;;
      let key := byteArrayToHexString kbs in
      let hash := byteArrayToHexString hbs in
      match entries !! i with
      | None => throw TypeError
      | Some entry =>
          let skip :=
            match rootIndex !! slotFileDataID entry with
            | Some hashCheck => negb (String.eqb hashCheck hash)
            | None => false
            end in
          if skip then rootRows n' (S i) entries rootIndex
          else
            rootRows n' (S i)
              (entries ++ [Pushed (mkRootEntry hash (slotFileDataID entry)
                                     key (slotRootType entry))])
              (<[slotFileDataID entry := hash]> rootIndex)
      end
  end.

(** The variables that live across the blocks: [types], [rootIndex] and
    [typeIndex].  The outer [entries] is not among them: inside the loop
    the name denotes the array of the block. *)
Record RootState : Type := mkRootState {
  types : list (option TypePair);
  rootIndex : gmap Z string;
  typeIndex : Z
}.

(** The body of [while (root.offset < root.byteLength)].  Its second
    component is the block's own array [entries] as it is when the
    iteration ends. *)
Definition rootBlock (st : RootState) : M (RootState * list RootSlot) :=
  count <- readInt32 defaultEndian ;;
  contentFlag <- readUInt32 defaultEndian ;;
  localeFlag <- readUInt32 defaultEndian ;;
  if localeFlag =? LOCALE_FLAG_None then throw InvalidRootBlock
  else if contentFlagRejected contentFlag then throw InvalidRootBlock
  else
    let typeIndex' := typeIndex st + 1 in
    let types' :=
      arraySet (types st) (Z.to_nat typeIndex')
        (mkTypePair localeFlag contentFlag) in
    entries <- rootIds (Z.to_nat count) typeIndex' 0 [] ;;
    r <- rootRows (Z.to_nat count) 0 entries (rootIndex st) ;;
    ret (mkRootState types' (snd r) typeIndex', fst r).

(** The [while] loop.  [blocks] collects the arrays of the blocks, which
    the program drops at the end of each iteration; it is kept here only
    so that statements can refer to what a block has pushed. *)
Fixpoint rootBlocks (fuel : nat) (st : RootState)
    (blocks : list (list RootSlot))
  : M (RootState * list (list RootSlot)) :=
  off <- getOffset ;;
  len <- getByteLength ;;
  if off <? len then
    match fuel with
    | O => throw OutOfFuel
    | S fuel' =>
        r <- rootBlock st ;;
        rootBlocks fuel' (fst r) (blocks ++ [snd r])
    end
  else ret (st, blocks).

Record RootResult : Type := mkRootResult {
  Entries : list RootEntry;
  Types : list (option TypePair)
}.

(** [entries] is the array declared in the first line of the function; the
    loop never touches it. *)
Definition parseRoot : M (RootResult * list (list RootSlot)) :=
  let entries : list RootEntry := [] in
  seek 0 ;;
  fuel <- getFuel ;;
  r <- rootBlocks fuel (mkRootState [] ∅ 0) [] ;;
  ret (mkRootResult entries (types (fst r)), snd r).

Definition parseRootFile (root : list byte) : result RootResult :=
  match run parseRoot root with
  | Ok r => Ok (fst r)
  | Err e => Err e
  end.

(** The arrays of the blocks of a parse, in block order. *)
Definition parseRootFile_blocks (root : list byte)
  : result (list (list RootSlot)) :=
  match run parseRoot root with
  | Ok r => Ok (snd r)
  | Err e => Err e
  end.

(** ** Buffers the statements quantify over *)

(** The entry count of an archive index: the signed little-endian 32-bit
    value held by the four bytes that start 12 bytes before the end. *)
Definition trailerCount (archive : list byte) : Z :=
  intOf ENDIAN_LITTLE (take 4 (drop (length archive - 12) archive)).

(** One catalogue row of an archive index, by the values it encodes. *)
Record IndexRow : Type := mkIndexRow {
  rowKey : list byte;
  rowSize : Z;
  rowOffset : Z
}.

Definition uint32 (v : Z) : Prop := 0 <= v < 2 ^ 32.

Definition int32 (v : Z) : Prop := - 2 ^ 31 <= v < 2 ^ 31.

Definition IndexRow_wf (r : IndexRow) : Prop :=
  length (rowKey r) = 16%nat /\ uint32 (rowSize r) /\ uint32 (rowOffset r).

Definition encodeIndexRow (r : IndexRow) : list byte :=
  rowKey r ++ be32 (rowSize r) ++ be32 (rowOffset r).

(** What the parser makes of a row: the two numbers are read as signed. *)
Definition readIndexRow (r : IndexRow) : IndexEntry :=
  mkIndexEntry (byteArrayToHexString (rowKey r))
    (toSigned 32 (rowSize r)) (toSigned 32 (rowOffset r)).

(** The row as the catalogue states it. *)
Definition plainIndexRow (r : IndexRow) : IndexEntry :=
  mkIndexEntry (byteArrayToHexString (rowKey r)) (rowSize r) (rowOffset r).

(** The cursor stands in front of [rest]: [rest] is what remains of the
    buffer from the read position on. *)
Definition cursorAt (b : Bufo) (rest : list byte) : Prop :=
  exists pre, buffer b = pre ++ rest /\ offset b = Z.of_nat (length pre).

Definition advance (b : Bufo) (n : Z) : Bufo :=
  mkBufo (buffer b) (offset b + n).

Definition keyBytes (k : list byte) : Prop := length k = 16%nat.

(** [b'] is a later state of the cursor [b] over the same buffer. *)
Definition laterCursor (b b' : Bufo) : Prop :=
  buffer b' = buffer b /\ offset b <= offset b' <= byteLength b.

(** ** Root buffers the statements quantify over *)

(** One position of a root block: the delta of its FileDataID, its
    encoding key and its content hash. *)
Record RootRow : Type := mkRootRow {
  rrDelta : Z;
  rrKey : list byte;
  rrHash : list byte
}.

Record RootBlock : Type := mkRootBlock {
  rbContentFlag : Z;
  rbLocaleFlag : Z;
  rbRows : list RootRow
}.

Definition RootRow_wf (r : RootRow) : Prop :=
  int32 (rrDelta r) /\ length (rrKey r) = 16%nat /\ length (rrHash r) = 8%nat.

Definition RootBlock_wf (blk : RootBlock) : Prop :=
  uint32 (rbContentFlag blk)
  /\ uint32 (rbLocaleFlag blk) /\ rbLocaleFlag blk <> 0
  /\ Z.of_nat (length (rbRows blk)) < 2 ^ 31
  /\ Forall RootRow_wf (rbRows blk).

(** The layout of a block: entry count, content flag, locale flag, the
    deltas, then the (key, hash) pairs. *)
Definition encodeRootBlock (blk : RootBlock) : list byte :=
  le32 (Z.of_nat (length (rbRows blk)))
  ++ le32 (rbContentFlag blk) ++ le32 (rbLocaleFlag blk)
  ++ concat (map (fun r => le32 (rrDelta r)) (rbRows blk))
  ++ concat (map (fun r => rrKey r ++ rrHash r) (rbRows blk)).

Definition blockFlags (blk : RootBlock) : TypePair :=
  mkTypePair (rbLocaleFlag blk) (rbContentFlag blk).

(** Delta decoding in the words of the format: the running index starts at
    [runningIndex]; an id is the running index plus its delta, and the
    running index of the next position is that id plus one. *)
Fixpoint decodeIds (runningIndex : Z) (deltas : list Z) : list Z :=
  match deltas with
  | [] => []
  | d :: ds => (runningIndex + d) :: decodeIds (runningIndex + d + 1) ds
  end.

Definition blockIds (blk : RootBlock) : list Z :=
  decodeIds 0 (map rrDelta (rbRows blk)).

(** The entry a position gives rise to when it is accepted. *)
Definition rowEntry (typeIndex : Z) (fileDataID : Z) (r : RootRow) : RootEntry :=
  mkRootEntry (byteArrayToHexString (rrHash r)) fileDataID
    (byteArrayToHexString (rrKey r)) (Some typeIndex).

(** The array of the block tagged [typeIndex]: one pending slot per
    position, followed by the accepted entries, a selection in order of the
    entries of the positions. *)
Definition blockArray (typeIndex : Z) (blk : RootBlock)
    (slots : list RootSlot) : Prop :=
  exists pushed : list RootEntry,
    slots = map (Pending typeIndex) (blockIds blk) ++ map Pushed pushed
    /\ sublist pushed (zip_with (rowEntry typeIndex) (blockIds blk) (rbRows blk)).

(** Reading [a[i]] of a JavaScript array: [None] is [undefined], for a
    hole as for an index past the end. *)
Definition arrayGet {A} (a : list (option A)) (i : nat) : option A :=
  match a !! i with
  | Some (Some v) => Some v
  | _ => None
  end.

(** [types] after the blocks with the given flags: nothing for no block,
    else a hole followed by the pairs. *)
Definition typesOf (pairs : list TypePair) : list (option TypePair) :=
  match pairs with
  | [] => []
  | _ => None :: map Some pairs
  end.

(** ** Concrete buffers used in the examples *)

(** An archive index of one entry whose size and offset have the high
    bit set. *)
Definition highBitArchive : list byte :=
  concat (map encodeIndexRow
            [mkIndexRow (replicate 16 xaa) 0x80000000 0xFFFFFFFF])
  ++ le32 1 ++ replicate 8 x00.

Definition zeroEntry : EncodingEntry :=
  mkEncodingEntry "00000000000000000000000000000000"
    (Some "00000000000000000000000000000000") 0.

Definition hundredRow (key hash : byte) : RootRow :=
  mkRootRow 100 (replicate 16 key) (replicate 8 hash).

Definition twoBlocks : list RootBlock :=
  [mkRootBlock 8 2 [mkRootRow 100 (replicate 16 x01) (replicate 8 x07)];
   mkRootBlock 0 4 [mkRootRow 100 (replicate 16 x03) (replicate 8 x07);
                    mkRootRow 3 (replicate 16 x04) (replicate 8 x09)]].

Definition deltaBlock : RootBlock :=
  mkRootBlock 0 2
    [mkRootRow 5 (replicate 16 x01) (replicate 8 x0a);
     mkRootRow 0 (replicate 16 x02) (replicate 8 x0b);
     mkRootRow 2 (replicate 16 x03) (replicate 8 x0c)].

(** ** The dedup rule of the root table, on lists *)

(** The rule applied to the positions of one block, given the map [seen]
    from FileDataID to accepted hash: a position whose id is unseen, or
    seen with the same hash, is accepted (its entry is appended and the map
    updated); a position seen with a different hash is dropped. *)
Fixpoint acceptRows (typeIndex : Z) (fids : list Z) (rows : list RootRow)
    (seen : gmap Z string) : list RootEntry * gmap Z string :=
  match fids, rows with
  | f :: fids', r :: rows' =>
      let h := byteArrayToHexString (rrHash r) in
      if decide (seen !! f = None \/ seen !! f = Some h)
      then
        let rec := acceptRows typeIndex fids' rows' (<[f := h]> seen) in
        (rowEntry typeIndex f r :: fst rec, snd rec)
      else acceptRows typeIndex fids' rows' seen
  | _, _ => ([], seen)
  end.

(** The entries pushed to an array of a block. *)
Definition pushedIn (e : RootEntry) (arrays : list (list RootSlot)) : Prop :=
  exists slots, In slots arrays /\ In (Pushed e) slots.

(** The arrays of the blocks of a root table, block after block, the first
    block tagged [typeIndex] and the map handed from block to block. *)
Fixpoint acceptBlocks (typeIndex : Z) (blks : list RootBlock)
    (seen : gmap Z string) : list (list RootSlot) :=
  match blks with
  | [] => []
  | blk :: blks' =>
      let acc := acceptRows typeIndex (blockIds blk) (rbRows blk) seen in
      (map (Pending typeIndex) (blockIds blk) ++ map Pushed (fst acc))
      :: acceptBlocks (typeIndex + 1) blks' (snd acc)
  end.

(** ** Encoding tables the statements quantify over *)

(** What every entry of an encoding table has: a key, and an unsigned
    32-bit size. *)
Definition EncodingEntry_ok (e : EncodingEntry) : Prop :=
  is_Some (eeKey e) /\ uint32 (eeSize e).

(** One group of a chunk: the size and hash of a content, and its keys. *)
Record EncodingGroup : Type := mkEncodingGroup {
  egSize : Z;
  egHash : list byte;
  egKeys : list (list byte)
}.

Definition EncodingGroup_wf (g : EncodingGroup) : Prop :=
  uint32 (egSize g)
  /\ length (egHash g) = 16%nat
  /\ Forall keyBytes (egKeys g)
  /\ 0 < Z.of_nat (length (egKeys g)) < 65536.

Definition groupBody (g : EncodingGroup) : list byte :=
  be32 (egSize g) ++ egHash g ++ concat (egKeys g).

Definition encodeGroup (g : EncodingGroup) : list byte :=
  le16 (Z.of_nat (length (egKeys g))) ++ groupBody g.

(** The entry of a group: its first key. *)
Definition groupEntry (g : EncodingGroup) : EncodingEntry :=
  mkEncodingEntry (byteArrayToHexString (egHash g))
    (option_map byteArrayToHexString (head (egKeys g))) (egSize g).

(** A chunk: its groups, the zero key-count that ends them, and the bytes
    that fill the chunk up to the next 4096-byte boundary. *)
Record EncodingChunk : Type := mkEncodingChunk {
  ecGroups : list EncodingGroup;
  ecPad : list byte
}.

Definition chunkBody (c : EncodingChunk) : list byte :=
  concat (map encodeGroup (ecGroups c)) ++ le16 0.

Definition encodeChunk (c : EncodingChunk) : list byte :=
  chunkBody c ++ ecPad c.

Definition EncodingChunk_wf (c : EncodingChunk) : Prop :=
  Forall EncodingGroup_wf (ecGroups c)
  /\ Z.of_nat (length (ecPad c))
     = 4096 - Z.of_nat (length (chunkBody c)) mod 4096.

(** An encoding file: 9 bytes, the chunk count, 5 bytes, the size of the
    string block, the string block, 32 bytes per chunk, the chunks, and
    whatever follows them. *)
Record EncodingFile : Type := mkEncodingFile {
  efHead : list byte;
  efMiddle : list byte;
  efStrings : list byte;
  efTable : list byte;
  efChunks : list EncodingChunk;
  efRest : list byte
}.

Definition EncodingFile_wf (f : EncodingFile) : Prop :=
  length (efHead f) = 9%nat
  /\ length (efMiddle f) = 5%nat
  /\ Z.of_nat (length (efStrings f)) < 2 ^ 31
  /\ Z.of_nat (length (efChunks f)) < 2 ^ 31
  /\ length (efTable f) = (32 * length (efChunks f))%nat
  /\ Forall EncodingChunk_wf (efChunks f).

Definition encodeEncodingFile (f : EncodingFile) : list byte :=
  efHead f ++ be32 (Z.of_nat (length (efChunks f))) ++ efMiddle f
  ++ be32 (Z.of_nat (length (efStrings f))) ++ efStrings f ++ efTable f
  ++ concat (map encodeChunk (efChunks f)) ++ efRest f.

(** What follows the first key-count of the groups of a chunk: each group
    body, then the key-count of the next group, 0 behind the last. *)
Definition nextKeysCount (gs : list EncodingGroup) : Z :=
  match gs with
  | [] => 0
  | g :: _ => Z.of_nat (length (egKeys g))
  end.

Fixpoint groupsTail (gs : list EncodingGroup) : list byte :=
  match gs with
  | [] => []
  | g :: gs' => groupBody g ++ le16 (nextKeysCount gs') ++ groupsTail gs'
  end.

(** The five groups of a chunk, which fill 4094 bytes: one of 245 keys
    and four of one key. *)
Definition boundaryGroups : list EncodingGroup :=
  mkEncodingGroup 0 (replicate 16 x00) (replicate 245 (replicate 16 x00))
  :: replicate 4 (mkEncodingGroup 0 (replicate 16 x00) [replicate 16 x00]).

(** The chunk of those groups: the terminator ends on byte 4096 and the
    cursor goes on to byte 8192, which the buffer has. *)
Definition boundaryChunk : list byte :=
  concat (map encodeGroup boundaryGroups) ++ le16 0 ++ replicate 4097 x00.

(** An encoding file of two chunks: a group of two keys and a group of one
    key, then a chunk without groups. *)
Definition sampleEncodingFile : EncodingFile :=
  mkEncodingFile (replicate 9 x00) (replicate 5 x00) (replicate 3 x41)
    (replicate 64 x00)
    [mkEncodingChunk
       [mkEncodingGroup 77 (replicate 16 x11)
          [replicate 16 x22; replicate 16 x33];
        mkEncodingGroup 0x80000000 (replicate 16 x44) [replicate 16 x55]]
       (replicate 4002 x00);
     mkEncodingChunk [] (replicate 4094 x00)]
    [x01; x02].

(** * The configuration layer *)

(** ** JavaScript strings *)

(** The strings of the configuration layer are lists of characters with
    codes 0 to 255; the patch-server and CDN texts are ASCII.  [lit] turns
    a literal into such a list. *)
Abbreviation jsString := (list ascii).

Definition lit (s : string) : jsString := list_ascii_of_string s.

(** [s.startsWith(p)] *)
Fixpoint startsWith (s p : jsString) {struct p} : bool :=
  match p with
  | [] => true
  | c :: p' =>
      match s with
      | [] => false
      | d :: s' => Ascii.eqb d c && startsWith s' p'
      end
  end.

(** [s.endsWith(p)] *)
Definition endsWith (s p : jsString) : bool := startsWith (rev s) (rev p).

(** [s.substring(from, to)]: both indices are clamped to the length of the
    string and swapped when they are out of order.  Indices are naturals: a
    negative argument, which JavaScript clamps to 0, is what a truncated
    subtraction gives. *)
Definition substring (s : jsString) (from to : nat) : jsString :=
  let a := Nat.min from (length s) in
  let b := Nat.min to (length s) in
  take (Nat.max a b - Nat.min a b) (drop (Nat.min a b) s).

(** The characters [trim] removes, among the codes 0 to 255: tab, line
    feed, vertical tab, form feed, carriage return, space and no-break
    space. *)
Definition isWhiteSpace (c : ascii) : bool :=
  match N_of_ascii c with
  | 9 | 10 | 11 | 12 | 13 | 32 | 160 => true
  | _ => false
  end%N.

Fixpoint trimStart (s : jsString) : jsString :=
  match s with
  | [] => []
  | c :: s' => if isWhiteSpace c then trimStart s' else s
  end.

(** [s.trim()] *)
Definition trim (s : jsString) : jsString :=
  rev (trimStart (rev (trimStart s))).

(** [s.split(sep)] for a separator of one character; also [s.split(/\n/)].
    The result is never empty: a string without the separator is the one
    element. *)
Fixpoint split (s : jsString) (sep : ascii) : list jsString :=
  match s with
  | [] => [[]]
  | c :: s' =>
      if Ascii.eqb c sep then [] :: split s' sep
      else match split s' sep with
           | t :: ts => (c :: t) :: ts
           | [] => [[c]]
           end
  end.

(** [s.replace(c, '')] for a pattern of one character: the first
    occurrence goes. *)
Fixpoint removeFirst (s : jsString) (c : ascii) : jsString :=
  match s with
  | [] => []
  | d :: s' => if Ascii.eqb d c then s' else d :: removeFirst s' c
  end.

(** [x || y] on a string that may be undefined: the empty string and
    [undefined] are falsy. *)
Definition orElse (x : option jsString) (y : jsString) : jsString :=
  match x with
  | Some (c :: s) => c :: s
  | _ => y
  end.

Definition LF : ascii := ascii_of_N 10.

(** ** The CASC object: servers, product, URLs *)

(** The errors of the configuration layer, by their messages. *)
Inductive configError : Type :=
  | NoTargetProduct     (* 'No target product. Set with setTargetProduct().' *)
  | NoCDNServer         (* 'No CDN server specified. Set with setCDNServer().' *)
  | NoCDNPath           (* 'No CDN path specified. Set with setCDNServer().' *)
  | InvalidTokenLength. (* 'KeyValueConfig has invalid token length.' *)

Inductive thrown (A : Type) : Type :=
  | Returns (a : A)
  | Throws (e : configError).
Arguments Returns {A} a.
Arguments Throws {A} e.

(** The four private fields of a [CASC] object; [None] is [undefined]. *)
Record CASC : Type := mkCASC {
  _productTag : option jsString;
  _patchServer : option jsString;
  _cdnServer : option jsString;
  _cdnPath : option jsString
}.

(** [new CASC()] *)
Definition newCASC : CASC := mkCASC None None None None.

Definition PATCH_SERVER_US : jsString := lit "http://us.patch.battle.net:1119".

Definition PATCH_SERVER_EU : jsString := lit "http://eu.patch.battle.net:1119".

Definition targetProduct (c : CASC) : thrown jsString :=
  match _productTag c with
  | Some (ch :: s) => Returns (ch :: s)
  | _ => Throws NoTargetProduct
  end.

Definition patchServer (c : CASC) : jsString :=
  orElse (_patchServer c) PATCH_SERVER_US.

Definition cdnServer (c : CASC) : thrown jsString :=
  match _cdnServer c with
  | Some (ch :: s) => Returns (ch :: s)
  | _ => Throws NoCDNServer
  end.

Definition cdnPath (c : CASC) : thrown jsString :=
  match _cdnPath c with
  | Some (ch :: s) => Returns (ch :: s)
  | _ => Throws NoCDNPath
  end.

Definition setPatchServer (url : jsString) (c : CASC) : CASC :=
  let url1 :=
    if endsWith url (lit "/") then substring url 0 (length url - 1) else url in
  mkCASC (_productTag c) (Some url1) (_cdnServer c) (_cdnPath c).

Definition setCDNServer (host path : jsString) (c : CASC) : CASC :=
  let host1 := if negb (startsWith host (lit "http"))
               then lit "http://" ++ host else host in
  let host2 := if endsWith host1 (lit "/")
               then substring host1 0 (length host1 - 1) else host1 in
  let path1 := if startsWith path (lit "/")
               then substring path 1 (length path) else path in
  let path2 := if endsWith path1 (lit "/")
               then substring path1 0 (length path1 - 1) else path1 in
  mkCASC (_productTag c) (_patchServer c) (Some host2) (Some path2).

Definition setTargetProduct (tag : jsString) (c : CASC) : CASC :=
  mkCASC (Some tag) (_patchServer c) (_cdnServer c) (_cdnPath c).

(** [util.format] with [%s] placeholders puts its string arguments in the
    places of the placeholders. *)
Definition _formatDataKey (key : jsString) : jsString :=
  substring key 0 2 ++ lit "/" ++ substring key 2 4 ++ lit "/" ++ key.

(** The arguments of [util.format] are evaluated from left to right: the
    getter [cdnServer] throws before [cdnPath] is looked at. *)
Definition _formatDataURL (c : CASC) (key : jsString) (dir : option jsString)
  : thrown jsString :=
  match cdnServer c with
  | Throws e => Throws e
  | Returns server =>
      match cdnPath c with
      | Throws e => Throws e
      | Returns path =>
          Returns (server ++ lit "/" ++ path ++ lit "/"
                     ++ orElse dir (lit "data") ++ lit "/" ++ _formatDataKey key)
      end
  end.

Definition _formatConfigURL (c : CASC) (key : jsString) : thrown jsString :=
  _formatDataURL c key (Some (lit "config")).

Definition _formatIndexURL (c : CASC) (key : jsString) : thrown jsString :=
  match _formatDataURL c key None with
  | Throws e => Throws e
  | Returns url => Returns (url ++ lit ".index")
  end.

Definition _formatPatchURL (c : CASC) (file : jsString) : thrown jsString :=
  match targetProduct c with
  | Throws e => Throws e
  | Returns product =>
      Returns (patchServer c ++ lit "/" ++ product ++ lit "/" ++ file)
  end.

(** The server [setCDNServer] stores, by first and last characters: the
    host, with "http://" in front unless it starts with "http", less one
    trailing slash. *)
Definition storedServer (host : jsString) : jsString :=
  let host1 := if startsWith host (lit "http") then host
               else lit "http://" ++ host in
  match last host1 with
  | Some "/"%char => removelast host1
  | _ => host1
  end.

(** The path [setCDNServer] stores, by first and last characters: the
    path less one leading and one trailing slash. *)
Definition storedPath (path : jsString) : jsString :=
  let path1 := match path with "/"%char :: t => t | _ => path end in
  match last path1 with
  | Some "/"%char => removelast path1
  | _ => path1
  end.

(** ** _processCDNConfig *)

(** [line.trim().length === 0 || line.startsWith('#')] *)
Definition skippedLine (line : jsString) : bool :=
  (length (trim line) =? 0)%nat || startsWith line (lit "#").

(** The object [_processCDNConfig] returns: its own properties, and the
    array that has become its prototype, if any.  [None] is the prototype
    every object literal starts with. *)
Record KeyValueConfig : Type := mkKeyValueConfig {
  kvOwn : gmap jsString (list jsString);
  kvProto : option (list jsString)
}.

(** [entries[key] = value] for an array [value]: the key [__proto__] does
    not become a property, it replaces the prototype of the object. *)
Definition setArrayProperty (entries : KeyValueConfig) (key : jsString)
    (value : list jsString) : KeyValueConfig :=
  if decide (key = lit "__proto__")
  then mkKeyValueConfig (kvOwn entries) (Some value)
  else mkKeyValueConfig (<[key := value]> (kvOwn entries)) (kvProto entries).

(** The loop [for (let line of lines)]. *)
Fixpoint cdnConfigLines (lines : list jsString) (entries : KeyValueConfig)
  : thrown KeyValueConfig :=
  match lines with
  | [] => Returns entries
  | line :: lines' =>
      if skippedLine line then cdnConfigLines lines' entries
      else
        let tokens := split line "=" in
        if negb (length tokens =? 2)%nat then Throws InvalidTokenLength
        else
          cdnConfigLines lines'
            (setArrayProperty entries (trim (nth 0 tokens []))
               (split (trim (nth 1 tokens [])) " "))
  end.

Definition _processCDNConfig (data : jsString) : thrown KeyValueConfig :=
  cdnConfigLines (split data LF) (mkKeyValueConfig ∅ None).

(** ** _processVersionConfig *)

(** [tokens[i].split('!')[0].replace(' ', '')] *)
Definition headerField (token : jsString) : jsString :=
  removeFirst (nth 0 (split token "!") []) " ".

(** [fields[i]] used as a property key: past the end of [fields] it is
    [undefined], whose key is the string "undefined". *)
Definition fieldKey (fields : list jsString) (i : nat) : jsString :=
  match fields !! i with
  | Some f => f
  | None => lit "undefined"
  end.

(** [node[key] = value] for a string [value]: the key [__proto__] is
    ignored, a string is no prototype. *)
Definition setStringProperty (node : gmap jsString jsString)
    (key value : jsString) : gmap jsString jsString :=
  if decide (key = lit "__proto__") then node else <[key := value]> node.

(** The loop [for (let i = 0; i < tokens.length; i++)] of a value line;
    [tokens] is what is left of the line from index [i] on. *)
Fixpoint versionNode (fields tokens : list jsString) (i : nat)
    (node : gmap jsString jsString) : gmap jsString jsString :=
  match tokens with
  | [] => node
  | t :: tokens' =>
      versionNode fields tokens' (S i)
        (setStringProperty node (fieldKey fields i) t)
  end.

(** The loop over the lines.  The first line that is not skipped gives the
    fields, assigned from index 0 on into the empty array; each later one
    gives a node, stored at [index - 1], the length of [entries]. *)
Fixpoint versionConfigLines (lines : list jsString) (index : nat)
    (fields : list jsString) (entries : list (gmap jsString jsString))
  : list (gmap jsString jsString) :=
  match lines with
  | [] => entries
  | line :: lines' =>
      if skippedLine line then versionConfigLines lines' index fields entries
      else
        let tokens := split line "|" in
        if (index =? 0)%nat
        then versionConfigLines lines' (S index) (map headerField tokens) entries
        else versionConfigLines lines' (S index) fields
               (entries ++ [versionNode fields tokens 0 ∅])
  end.

Definition _processVersionConfig (data : jsString)
  : list (gmap jsString jsString) :=
  versionConfigLines (split data LF) 0 [] [].

(** ** Configuration texts the statements quantify over *)

(** The parts with the separator in between: what [split] takes apart. *)
Fixpoint join (sep : ascii) (parts : list jsString) : jsString :=
  match parts with
  | [] => []
  | [p] => p
  | p :: parts' => p ++ sep :: join sep parts'
  end.

(** The lines of a text that are neither blank nor comments. *)
Definition dataLines (lines : list jsString) : list jsString :=
  filter (fun line => skippedLine line = false) lines.

(** A word: not empty, without white space and without [=]. *)
Definition plainWord (w : jsString) : Prop :=
  w <> [] /\ Forall (fun c => isWhiteSpace c = false /\ c <> "="%char) w.

(** A line [key = value value ...] of a CDN config. *)
Definition cdnLine (kv : jsString * list jsString) : jsString :=
  fst kv ++ lit " = " ++ join " " (snd kv).

Definition cdnPair_wf (kv : jsString * list jsString) : Prop :=
  plainWord (fst kv)
  /\ head (fst kv) <> Some "#"%char
  /\ fst kv <> lit "__proto__"
  /\ snd kv <> []
  /\ Forall plainWord (snd kv).

(** The values of the last pair with the given key. *)
Fixpoint lastValue (key : jsString) (kvs : list (jsString * list jsString))
  : option (list jsString) :=
  match kvs with
  | [] => None
  | kv :: kvs' =>
      match lastValue key kvs' with
      | Some v => Some v
      | None => if decide (fst kv = key) then Some (snd kv) else None
      end
  end.

(** A header cell [Name!TYPE] of a version table. *)
Definition headerCell (col : jsString * jsString) : jsString :=
  fst col ++ "!"%char :: snd col.

(** A name of a column: without [!], [|], space and line feed, and not
    [__proto__]. *)
Definition columnName (name : jsString) : Prop :=
  Forall (fun c => c <> "!"%char /\ c <> "|"%char /\ c <> " "%char /\ c <> LF)
    name
  /\ name <> lit "__proto__".

(** A cell of a version table: without [|] and line feed. *)
Definition tableCell (cell : jsString) : Prop :=
  Forall (fun c => c <> "|"%char /\ c <> LF) cell.

(** A version table as text: the header line, then one line per row, the
    cells of a line separated by [|]. *)
Definition versionTable (cols : list (jsString * jsString))
    (rows : list (list jsString)) : jsString :=
  join LF (join "|" (map headerCell cols) :: map (join "|") rows).

(** The table is made of names and cells, and none of its lines is blank
    or starts with [#]. *)
Definition versionTable_wf (cols : list (jsString * jsString))
    (rows : list (list jsString)) : Prop :=
  Forall (fun col => columnName (fst col) /\ tableCell (snd col)) cols
  /\ skippedLine (join "|" (map headerCell cols)) = false
  /\ Forall (fun row => Forall tableCell row
                        /\ skippedLine (join "|" row) = false) rows.

(** ** Bytes and integers: lemmas *)

Lemma byteVal_range (b : byte) : 0 <= byteVal b < 256.
Proof.
  unfold byteVal. pose proof (Byte.to_N_bounded b). lia.
Qed.

Lemma byteVal_byteOf (z : Z) : byteVal (byteOf z) = z mod 256.
Proof.
  unfold byteVal, byteOf.
  pose proof (Z.mod_pos_bound z 256 ltac:(lia)) as Hr.
  destruct (Byte.of_N (Z.to_N (z mod 256))) as [b|] eqn:E.
  - apply Byte.to_of_N in E. rewrite E. lia.
  - apply Byte.of_N_None_iff in E. lia.
Qed.

Lemma uintLE_le32 (v : Z) : uintLE (le32 v) = v mod 2 ^ 32.
Proof.
  unfold le32. cbn [uintLE]. rewrite !byteVal_byteOf.
  change 65536 with (256 * 256). change 16777216 with (256 * 256 * 256).
  rewrite <- !Z.div_div by lia.
  change (2 ^ 32) with (256 * (256 * (256 * 256))).
  rewrite !Z.rem_mul_r by lia. lia.
Qed.

Lemma uintLE_le16 (v : Z) : uintLE (le16 v) = v mod 2 ^ 16.
Proof.
  unfold le16. cbn [uintLE]. rewrite !byteVal_byteOf.
  change (2 ^ 16) with (256 * 256).
  rewrite Z.rem_mul_r by lia. lia.
Qed.

Lemma length_le32 (v : Z) : length (le32 v) = 4%nat.
Proof. reflexivity. Qed.

Lemma length_be32 (v : Z) : length (be32 v) = 4%nat.
Proof. reflexivity. Qed.

Lemma uintOf_le32 (v : Z) : uint32 v -> uintOf ENDIAN_LITTLE (le32 v) = v.
Proof.
  intros Hv. cbn [uintOf]. rewrite uintLE_le32.
  apply Z.mod_small. exact Hv.
Qed.

Lemma uintOf_be32 (v : Z) : uint32 v -> uintOf ENDIAN_BIG (be32 v) = v.
Proof.
  intros Hv. unfold be32. cbn [uintOf]. rewrite rev_involutive.
  rewrite uintLE_le32. apply Z.mod_small. exact Hv.
Qed.

Lemma intOf_be32 (v : Z) : uint32 v -> intOf ENDIAN_BIG (be32 v) = toSigned 32 v.
Proof.
  intros Hv. unfold intOf. rewrite uintOf_be32 by exact Hv. reflexivity.
Qed.

Lemma intOf_le32 (v : Z) : int32 v -> intOf ENDIAN_LITTLE (le32 v) = v.
Proof.
  unfold int32. intros Hv. unfold intOf. cbn [uintOf]. rewrite uintLE_le32.
  rewrite length_le32. change (8 * Z.of_nat 4) with 32.
  unfold toSigned. change (32 - 1) with 31.
  destruct (Z.ltb_spec v 0) as [Hneg|Hpos].
  - replace (v mod 2 ^ 32) with (v + 2 ^ 32)
      by (apply Z.mod_unique with (q := -1); lia).
    destruct (Z.ltb_spec (v + 2 ^ 32) (2 ^ 31)); lia.
  - rewrite Z.mod_small by lia.
    destruct (Z.ltb_spec v (2 ^ 31)); lia.
Qed.

Lemma uintOf_le16 (v : Z) : 0 <= v < 2 ^ 16 -> uintOf ENDIAN_LITTLE (le16 v) = v.
Proof.
  intros Hv. cbn [uintOf]. rewrite uintLE_le16. apply Z.mod_small. exact Hv.
Qed.

(** ** The cursor: lemmas *)

Lemma bind_Ok {A B} (m : M A) (k : A -> M B) b a b' :
  m b = Ok (a, b') -> bind m k b = k a b'.
Proof. intros H. unfold bind. rewrite H. reflexivity. Qed.

Lemma bind_Err {A B} (m : M A) (k : A -> M B) b e :
  m b = Err e -> bind m k b = Err e.
Proof. intros H. unfold bind. rewrite H. reflexivity. Qed.

Lemma inBounds_true b pos :
  0 <= pos <= byteLength b -> inBounds b pos = true.
Proof.
  intros [H1 H2]. unfold inBounds.
  apply andb_true_intro. split; apply Z.leb_le; assumption.
Qed.

Lemma seek_front b pos :
  0 <= pos < byteLength b -> seek pos b = Ok (tt, mkBufo (buffer b) pos).
Proof.
  intros H. unfold seek.
  destruct (Z.ltb_spec (Z.abs pos) (byteLength b)); [|lia].
  destruct (Z.ltb_spec pos 0); [lia|]. reflexivity.
Qed.

Lemma seek_back b pos :
  pos < 0 -> 0 < byteLength b + pos ->
  seek pos b = Ok (tt, mkBufo (buffer b) (byteLength b + pos)).
Proof.
  intros Hneg H. unfold seek.
  destruct (Z.ltb_spec (Z.abs pos) (byteLength b)); [|lia].
  destruct (Z.ltb_spec pos 0); [|lia]. reflexivity.
Qed.

Lemma move_Ok b delta :
  0 <= offset b + delta < byteLength b ->
  move delta b = Ok (tt, advance b delta).
Proof.
  intros H. unfold move. cbn zeta.
  rewrite (proj2 (Z.leb_le _ _)) by lia.
  rewrite (proj2 (Z.ltb_lt _ _)) by lia. reflexivity.
Qed.

Lemma readUInt8_Ok b (n : nat) :
  0 <= offset b -> offset b + Z.of_nat n <= byteLength b ->
  readUInt8 n b
  = Ok (take n (drop (Z.to_nat (offset b)) (buffer b)), advance b (Z.of_nat n)).
Proof.
  intros H1 H2. unfold readUInt8.
  rewrite inBounds_true by lia.
  rewrite (proj2 (Z.leb_le _ _)) by exact H2. reflexivity.
Qed.

Lemma cursorAt_bounds b rest :
  cursorAt b rest ->
  0 <= offset b /\ offset b + Z.of_nat (length rest) = byteLength b.
Proof.
  intros (pre & Hb & Ho). unfold byteLength.
  rewrite Hb, length_app. lia.
Qed.

(** Reading the bytes the cursor stands in front of. *)
Lemma readUInt8_at b bs rest :
  cursorAt b (bs ++ rest) ->
  readUInt8 (length bs) b = Ok (bs, advance b (Z.of_nat (length bs)))
  /\ cursorAt (advance b (Z.of_nat (length bs))) rest.
Proof.
  intros Hat. pose proof (cursorAt_bounds _ _ Hat) as [H0 Hlen].
  rewrite length_app in Hlen.
  destruct Hat as (pre & Hb & Ho). split.
  - rewrite readUInt8_Ok by lia. f_equal. f_equal.
    rewrite Hb, Ho, Nat2Z.id, drop_app_length, take_app_length. reflexivity.
  - exists (pre ++ bs). cbn [advance buffer offset]. split.
    + rewrite Hb, <- app_assoc. reflexivity.
    + rewrite length_app. lia.
Qed.

Lemma readInt32_at e b bs rest :
  length bs = 4%nat -> cursorAt b (bs ++ rest) ->
  readInt32 e b = Ok (intOf e bs, advance b 4)
  /\ cursorAt (advance b 4) rest.
Proof.
  intros Hl Hat. destruct (readUInt8_at _ _ _ Hat) as [Hr Hat'].
  rewrite Hl in Hr, Hat'. split; [|exact Hat'].
  unfold readInt32. rewrite (bind_Ok _ _ _ _ _ Hr). reflexivity.
Qed.

Lemma readUInt32_at e b bs rest :
  length bs = 4%nat -> cursorAt b (bs ++ rest) ->
  readUInt32 e b = Ok (uintOf e bs, advance b 4)
  /\ cursorAt (advance b 4) rest.
Proof.
  intros Hl Hat. destruct (readUInt8_at _ _ _ Hat) as [Hr Hat'].
  rewrite Hl in Hr, Hat'. split; [|exact Hat'].
  unfold readUInt32. rewrite (bind_Ok _ _ _ _ _ Hr). reflexivity.
Qed.

Lemma readUInt16_at e b bs rest :
  length bs = 2%nat -> cursorAt b (bs ++ rest) ->
  readUInt16 e b = Ok (uintOf e bs, advance b 2)
  /\ cursorAt (advance b 2) rest.
Proof.
  intros Hl Hat. destruct (readUInt8_at _ _ _ Hat) as [Hr Hat'].
  rewrite Hl in Hr, Hat'. split; [|exact Hat'].
  unfold readUInt16. rewrite (bind_Ok _ _ _ _ _ Hr). reflexivity.
Qed.

(** ** parseIndexFile: lemmas *)

Lemma indexCount_Ok (data : list byte) (o : Z) :
  (12 < length data)%nat ->
  indexCount (mkBufo data o) = Ok (trailerCount data, mkBufo data 0).
Proof.
  intros Hlen. unfold indexCount.
  erewrite bind_Ok; cycle 1.
  { apply seek_back; unfold byteLength; cbn [buffer]; lia. }
  unfold readInt32.
  erewrite bind_Ok; cycle 1.
  { erewrite bind_Ok; cycle 1.
    { apply readUInt8_Ok; unfold byteLength; cbn [buffer offset]; lia. }
    reflexivity. }
  erewrite bind_Ok; cycle 1.
  { apply seek_front. unfold byteLength, advance. cbn [buffer]. lia. }
  unfold ret, advance, byteLength, trailerCount. cbn [buffer offset].
  replace (Z.to_nat (Z.of_nat (length data) + -12))
    with (length data - 12)%nat by lia.
  reflexivity.
Qed.

Lemma parseIndexFile_unfold (data : list byte) :
  (12 < length data)%nat ->
  parseIndexFile data
  = if trailerCount data * 24 >? Z.of_nat (length data)
    then Err CorruptArchiveIndex
    else run (indexEntries (Z.to_nat (trailerCount data)) []) data.
Proof.
  intros Hlen. unfold parseIndexFile, run, parseIndex.
  rewrite (bind_Ok _ _ _ _ _ (indexCount_Ok data 0 Hlen)).
  unfold getByteLength at 1, bind at 1, byteLength. cbn [buffer].
  destruct (trailerCount data * 24 >? Z.of_nat (length data)); reflexivity.
Qed.

Lemma indexEntries_rows (rows : list IndexRow) :
  forall acc b rest,
    Forall IndexRow_wf rows ->
    cursorAt b (concat (map encodeIndexRow rows) ++ rest) ->
    exists b',
      indexEntries (length rows) acc b = Ok (acc ++ map readIndexRow rows, b')
      /\ cursorAt b' rest.
Proof.
  induction rows as [|r rows IH]; intros acc b rest Hwf Hat.
  - exists b. cbn. rewrite app_nil_r. split; [reflexivity|exact Hat].
  - apply Forall_cons in Hwf as [(Hk & Hs & Ho) Hwf].
    cbn [map concat] in Hat. unfold encodeIndexRow at 1 in Hat.
    rewrite <- !app_assoc in Hat.
    destruct (readUInt8_at _ _ _ Hat) as [R1 Hat1]. rewrite Hk in R1, Hat1.
    destruct (readInt32_at ENDIAN_BIG _ _ _ (length_be32 _) Hat1) as [R2 Hat2].
    destruct (readInt32_at ENDIAN_BIG _ _ _ (length_be32 _) Hat2) as [R3 Hat3].
    destruct (IH (acc ++ [readIndexRow r]) _ _ Hwf Hat3) as (b' & R4 & Hat4).
    exists b'. split; [|exact Hat4].
    cbn [length indexEntries].
    rewrite (bind_Ok _ _ _ _ _ R1), (bind_Ok _ _ _ _ _ R2),
      (bind_Ok _ _ _ _ _ R3).
    rewrite !intOf_be32 by assumption.
    rewrite <- app_assoc in R4. exact R4.
Qed.

(** [archive.seek(-12)] needs more than 12 bytes: on a shorter buffer, and
    on one of exactly 12 bytes, the parse ends there. *)
Lemma parseIndexFile_short (data : list byte) :
  (length data <= 12)%nat -> parseIndexFile data = Err BufferUnderrun.
Proof.
  intros Hlen. unfold parseIndexFile, run, parseIndex, indexCount.
  unfold bind at 1. unfold bind at 1. unfold seek at 1.
  unfold byteLength. cbn [buffer].
  destruct (Z.ltb_spec (Z.abs (-12)) (Z.of_nat (length data))); [lia|].
  reflexivity.
Qed.

(** ** parseIndexFile: the statements *)



(** C9 fails at a buffer of exactly 12 bytes: the count, here -1, is
    negative, but [archive.seek(-12)] is out of bounds and the parse ends
    with an error before the count is read. *)
Lemma parseIndexFile_negative_count_counterexample :
  length (le32 (-1) ++ replicate 8 x00) = 12%nat
  /\ trailerCount (le32 (-1) ++ replicate 8 x00) = -1
  /\ parseIndexFile (le32 (-1) ++ replicate 8 x00) = Err BufferUnderrun
  /\ parseIndexFile (le32 (-1) ++ replicate 8 x00) <> Ok [].
Proof.
  assert (H : parseIndexFile (le32 (-1) ++ replicate 8 x00)
              = Err BufferUnderrun)
    by (apply parseIndexFile_short; vm_compute; lia).
  split; [reflexivity|]. split; [vm_compute; reflexivity|].
  split; [exact H|]. rewrite H. discriminate.
Qed.

(** C9, amended.  In a buffer of more than 12 bytes a negative entry count
    passes the size guard, the entry loop does not run, and the parse
    returns the empty list. *)
Theorem parseIndexFile_negative_count (archive : list byte) :
  (12 < length archive)%nat ->
  trailerCount archive < 0 ->
  (trailerCount archive * 24 >? Z.of_nat (length archive)) = false
  /\ Z.to_nat (trailerCount archive) = 0%nat
  /\ parseIndexFile archive = Ok [].
Proof.
  intros Hlen Hneg.
  assert (Hg : (trailerCount archive * 24 >? Z.of_nat (length archive)) = false).
  { destruct (Z.gtb_spec (trailerCount archive * 24) (Z.of_nat (length archive)));
      [lia|reflexivity]. }
  assert (Hz : Z.to_nat (trailerCount archive) = 0%nat) by lia.
  split; [exact Hg|]. split; [exact Hz|].
  rewrite parseIndexFile_unfold by exact Hlen.
  rewrite Hg, Hz. reflexivity.
Qed.

Lemma parseIndexFile_negative_count_witness :
  parseIndexFile (x00 :: le32 (-1) ++ replicate 8 x00) = Ok [].
Proof.
  apply (parseIndexFile_negative_count (x00 :: le32 (-1) ++ replicate 8 x00)).
  - vm_compute. lia.
  - vm_compute. reflexivity.
Defined.

Lemma length_encoded_rows (rows : list IndexRow) :
  Forall IndexRow_wf rows ->
  length (concat (map encodeIndexRow rows)) = (24 * length rows)%nat.
Proof.
  intros Hwf. induction Hwf as [|r rows (Hk & _) _ IH]; [reflexivity|].
  cbn [map concat length]. unfold encodeIndexRow at 1.
  rewrite !length_app, !length_be32, Hk, IH. lia.
Qed.

(** The parse of an archive index made of rows. *)
Lemma parseIndexFile_encoded (rows : list IndexRow) (rest : list byte) :
  Forall IndexRow_wf rows ->
  (12 < length (concat (map encodeIndexRow rows) ++ rest))%nat ->
  trailerCount (concat (map encodeIndexRow rows) ++ rest)
  = Z.of_nat (length rows) ->
  parseIndexFile (concat (map encodeIndexRow rows) ++ rest)
  = Ok (map readIndexRow rows).
Proof.
  intros Hwf Hlen Hcount.
  rewrite parseIndexFile_unfold by exact Hlen.
  rewrite Hcount, Nat2Z.id.
  pose proof (length_encoded_rows rows Hwf) as Hrows.
  rewrite length_app, Hrows.
  destruct (Z.gtb_spec (Z.of_nat (length rows) * 24)
              (Z.of_nat (24 * length rows + length rest))); [lia|].
  destruct (indexEntries_rows rows []
              (mkBufo (concat (map encodeIndexRow rows) ++ rest) 0) rest Hwf
              ltac:(exists []; split; reflexivity)) as (b' & R & _).
  unfold run. rewrite R. reflexivity.
Qed.

(** A trailer of the count, little-endian, followed by 8 more bytes puts
    the count 12 bytes before the end. *)
Lemma trailerCount_trailer (body tail : list byte) (n : Z) :
  int32 n -> length tail = 8%nat ->
  trailerCount (body ++ le32 n ++ tail) = n.
Proof.
  intros Hn Htail. unfold trailerCount.
  rewrite !length_app, length_le32, Htail.
  replace (length body + (4 + 8) - 12)%nat with (length body) by lia.
  rewrite drop_app_length.
  rewrite (take_app_length' (le32 n) tail 4 (length_le32 n)).
  apply intOf_le32. exact Hn.
Qed.

(** C3. An archive index of more than 12 bytes, made of N catalogue rows
    followed by anything that puts N twelve bytes before the end, parses
    to exactly N entries, in
    catalogue order, each with the hex string of its 16 key bytes and the
    two 4-byte big-endian numbers of its row; the numbers are read as
    signed, and are the encoded values whenever those are below 2^31. *)
Theorem parseIndexFile_rows (rows : list IndexRow) (rest : list byte) :
  let archive := concat (map encodeIndexRow rows) ++ rest in
  Forall IndexRow_wf rows ->
  (12 < length archive)%nat ->
  trailerCount archive = Z.of_nat (length rows) ->
  parseIndexFile archive = Ok (map readIndexRow rows)
  /\ (Forall (fun r => rowSize r < 2 ^ 31 /\ rowOffset r < 2 ^ 31) rows ->
      parseIndexFile archive = Ok (map plainIndexRow rows)).
Proof.
  intros archive Hwf Hlen Hcount.
  pose proof (parseIndexFile_encoded rows rest Hwf Hlen Hcount) as Hparse.
  split; [exact Hparse|].
  intros Hsmall. subst archive. rewrite Hparse. f_equal.
  apply map_ext_Forall.
  rewrite Forall_forall in Hwf, Hsmall |- *.
  intros r Hr. destruct (Hwf r Hr) as (_ & Hs & Ho).
  destruct (Hsmall r Hr) as [Hs' Ho'].
  unfold readIndexRow, plainIndexRow, toSigned, uint32 in *.
  change (32 - 1) with 31.
  destruct (Z.ltb_spec (rowSize r) (2 ^ 31)); [|lia].
  destruct (Z.ltb_spec (rowOffset r) (2 ^ 31)); [|lia].
  reflexivity.
Qed.

Lemma parseIndexFile_rows_witness :
  parseIndexFile
    (replicate 16 xaa ++ be32 256 ++ be32 512 ++ le32 1 ++ replicate 8 x00)
  = Ok [mkIndexEntry "aaaaaaaaaaaaaaaaaaaaaaaaaaaaaaaa" 256 512].
Proof.
  apply (proj2 (parseIndexFile_rows
                  [mkIndexRow (replicate 16 xaa) 256 512]
                  (le32 1 ++ replicate 8 x00)
                  ltac:(repeat constructor; vm_compute; congruence)
                  ltac:(vm_compute; lia)
                  ltac:(vm_compute; reflexivity))).
  repeat constructor; vm_compute; reflexivity.
Defined.

(** C8 fails at an entry whose size and offset have the high bit set:
    the size bytes 80 00 00 00 encode 2^31, and the two fields come back
    negative, since both are read with [readInt32]. *)
Lemma parseIndexFile_high_bit_counterexample :
  exists e : IndexEntry,
    parseIndexFile highBitArchive = Ok [e]
    /\ ieSize e = -2147483648
    /\ ieOffset e = -1
    /\ ieSize e <> uintOf ENDIAN_BIG (be32 0x80000000)
    /\ ~ (2 ^ 31 <= ieSize e < 2 ^ 32)
    /\ ~ (2 ^ 31 <= ieOffset e < 2 ^ 32).
Proof.
  exists (mkIndexEntry "aaaaaaaaaaaaaaaaaaaaaaaaaaaaaaaa" (-2147483648) (-1)).
  split; [vm_compute; reflexivity|].
  cbn [ieSize ieOffset].
  repeat split; try lia; vm_compute; congruence.
Qed.

(** C8, amended.  The Size and Offset of every returned entry are the
    signed 32-bit readings of their 4-byte big-endian encodings: the
    encoded value itself below 2^31, and that value lowered by 2^32, a
    negative number, from 2^31 on. *)
Theorem parseIndexFile_fields_signed (rows : list IndexRow) (rest : list byte) :
  let archive := concat (map encodeIndexRow rows) ++ rest in
  Forall IndexRow_wf rows ->
  (12 < length archive)%nat ->
  trailerCount archive = Z.of_nat (length rows) ->
  exists entries : list IndexEntry,
    parseIndexFile archive = Ok entries
    /\ length entries = length rows
    /\ forall i r e,
         rows !! i = Some r -> entries !! i = Some e ->
         ieSize e = (if rowSize r <? 2 ^ 31 then rowSize r
                     else rowSize r - 2 ^ 32)
         /\ ieOffset e = (if rowOffset r <? 2 ^ 31 then rowOffset r
                          else rowOffset r - 2 ^ 32)
         /\ int32 (ieSize e) /\ int32 (ieOffset e).
Proof.
  intros archive Hwf Hlen Hcount.
  exists (map readIndexRow rows).
  split; [exact (parseIndexFile_encoded rows rest Hwf Hlen Hcount)|].
  split; [apply length_map|].
  intros i r e Hr He.
  change (map readIndexRow rows) with (readIndexRow <$> rows) in He.
  rewrite list_lookup_fmap, Hr in He. injection He as <-.
  rewrite Forall_forall in Hwf.
  destruct (Hwf r) as (_ & Hs & Ho).
  { eapply list_elem_of_lookup_2, Hr. }
  unfold readIndexRow, toSigned, uint32, int32 in *. cbn [ieSize ieOffset].
  change (32 - 1) with 31.
  destruct (Z.ltb_spec (rowSize r) (2 ^ 31));
    destruct (Z.ltb_spec (rowOffset r) (2 ^ 31)); repeat split; lia.
Qed.

Lemma parseIndexFile_fields_signed_witness :
  exists entries : list IndexEntry,
    parseIndexFile highBitArchive = Ok entries
    /\ length entries = 1%nat
    /\ forall i r e,
         [mkIndexRow (replicate 16 xaa) 0x80000000 0xFFFFFFFF] !! i = Some r ->
         entries !! i = Some e ->
         ieSize e = (if rowSize r <? 2 ^ 31 then rowSize r
                     else rowSize r - 2 ^ 32)
         /\ ieOffset e = (if rowOffset r <? 2 ^ 31 then rowOffset r
                          else rowOffset r - 2 ^ 32)
         /\ int32 (ieSize e) /\ int32 (ieOffset e).
Proof.
  exact (parseIndexFile_fields_signed
           [mkIndexRow (replicate 16 xaa) 0x80000000 0xFFFFFFFF]
           (le32 1 ++ replicate 8 x00)
           ltac:(repeat constructor; vm_compute; congruence)
           ltac:(vm_compute; lia)
           ltac:(vm_compute; reflexivity)).
Defined.

(** ** Cursor computations: inversion *)

Lemma bind_inv {A B} (m : M A) (k : A -> M B) b c b'' :
  bind m k b = Ok (c, b'') ->
  exists a b', m b = Ok (a, b') /\ k a b' = Ok (c, b'').
Proof.
  unfold bind. destruct (m b) as [[a b']|e]; [|discriminate].
  intros H. exists a, b'. split; [reflexivity|exact H].
Qed.

Lemma readUInt8_inv (n : nat) b bs b' :
  readUInt8 n b = Ok (bs, b') ->
  b' = advance b (Z.of_nat n)
  /\ 0 <= offset b /\ offset b + Z.of_nat n <= byteLength b.
Proof.
  unfold readUInt8, inBounds. intros H.
  destruct (Z.leb_spec 0 (offset b)); [|discriminate].
  destruct (Z.leb_spec (offset b) (byteLength b)); [|discriminate].
  destruct (Z.leb_spec (offset b + Z.of_nat n) (byteLength b)); [|discriminate].
  cbn in H. injection H as _ <-. auto.
Qed.

Lemma readUInt16_inv e b v b' :
  readUInt16 e b = Ok (v, b') ->
  b' = advance b 2 /\ 0 <= offset b /\ offset b + 2 <= byteLength b.
Proof.
  unfold readUInt16. intros H.
  apply bind_inv in H as (bs & b1 & H1 & H2).
  apply readUInt8_inv in H1. injection H2 as _ <-. exact H1.
Qed.

Lemma readUInt32_inv e b v b' :
  readUInt32 e b = Ok (v, b') ->
  b' = advance b 4 /\ 0 <= offset b /\ offset b + 4 <= byteLength b.
Proof.
  unfold readUInt32. intros H.
  apply bind_inv in H as (bs & b1 & H1 & H2).
  apply readUInt8_inv in H1. injection H2 as _ <-. exact H1.
Qed.

Lemma readInt32_inv e b v b' :
  readInt32 e b = Ok (v, b') ->
  b' = advance b 4 /\ 0 <= offset b /\ offset b + 4 <= byteLength b.
Proof.
  unfold readInt32. intros H.
  apply bind_inv in H as (bs & b1 & H1 & H2).
  apply readUInt8_inv in H1. injection H2 as _ <-. exact H1.
Qed.

Lemma move_inv delta b u b' :
  move delta b = Ok (u, b') ->
  b' = advance b delta /\ 0 <= offset b + delta < byteLength b.
Proof.
  unfold move. cbn zeta. intros H.
  destruct (Z.leb_spec 0 (offset b + delta)); [|discriminate].
  destruct (Z.ltb_spec (offset b + delta) (byteLength b)); [|discriminate].
  cbn in H. injection H as <-. auto.
Qed.

Lemma advance_advance b n m : advance (advance b n) m = advance b (n + m).
Proof. unfold advance. cbn. f_equal. lia. Qed.

Lemma byteLength_advance b n : byteLength (advance b n) = byteLength b.
Proof. reflexivity. Qed.

Lemma offset_advance b n : offset (advance b n) = offset b + n.
Proof. reflexivity. Qed.

(** The only error of the cursor operations is [BufferUnderrun]. *)
Lemma readUInt8_Err (n : nat) b e : readUInt8 n b = Err e -> e = BufferUnderrun.
Proof.
  unfold readUInt8. destruct (_ && _); [discriminate|]. congruence.
Qed.

Lemma readUInt16_Err en b e : readUInt16 en b = Err e -> e = BufferUnderrun.
Proof.
  unfold readUInt16, bind. destruct (readUInt8 2 b) as [[bs b1]|e1] eqn:E.
  - discriminate.
  - intros [= <-]. eapply readUInt8_Err, E.
Qed.

Lemma readUInt32_Err en b e : readUInt32 en b = Err e -> e = BufferUnderrun.
Proof.
  unfold readUInt32, bind. destruct (readUInt8 4 b) as [[bs b1]|e1] eqn:E.
  - discriminate.
  - intros [= <-]. eapply readUInt8_Err, E.
Qed.

Lemma readInt32_Err en b e : readInt32 en b = Err e -> e = BufferUnderrun.
Proof.
  unfold readInt32, bind. destruct (readUInt8 4 b) as [[bs b1]|e1] eqn:E.
  - discriminate.
  - intros [= <-]. eapply readUInt8_Err, E.
Qed.

Lemma move_Err delta b e : move delta b = Err e -> e = BufferUnderrun.
Proof. unfold move. cbn zeta. destruct (_ && _); [discriminate|]. congruence. Qed.

Lemma seek_Err pos b e : seek pos b = Err e -> e = BufferUnderrun.
Proof. unfold seek. destruct (_ <? _); [discriminate|]. congruence. Qed.

(** ** parseEncodingFile: the groups of a chunk *)

Lemma encodingKeys_later (keys : list (list byte)) :
  forall j entryKey b rest,
    0 < j ->
    Forall keyBytes keys ->
    cursorAt b (concat keys ++ rest) ->
    encodingKeys (length keys) j entryKey b
    = Ok (entryKey, advance b (16 * Z.of_nat (length keys)))
    /\ cursorAt (advance b (16 * Z.of_nat (length keys))) rest.
Proof.
  induction keys as [|k keys IH]; intros j entryKey b rest Hj Hk Hat.
  - cbn. unfold ret, advance. destruct b as [d o]. cbn [buffer offset] in *.
    rewrite Z.add_0_r. split; [reflexivity|exact Hat].
  - apply Forall_cons in Hk as [Hk Hks].
    cbn [concat] in Hat. rewrite <- app_assoc in Hat.
    destruct (readUInt8_at _ _ _ Hat) as [R1 Hat1].
    rewrite Hk in R1, Hat1.
    destruct (IH (j + 1) entryKey _ rest ltac:(lia) Hks Hat1) as [R2 Hat2].
    rewrite advance_advance in R2, Hat2.
    replace (Z.of_nat 16 + 16 * Z.of_nat (length keys))
      with (16 * Z.of_nat (length (k :: keys))) in R2, Hat2
      by (cbn [length]; lia).
    split; [|exact Hat2].
    cbn [length encodingKeys]. rewrite (bind_Ok _ _ _ _ _ R1).
    destruct (Z.eqb_spec j 0); [lia|]. exact R2.
Qed.

Lemma encodingKeys_first (key : list byte) (keys : list (list byte)) :
  forall entryKey b rest,
    Forall keyBytes (key :: keys) ->
    cursorAt b (concat (key :: keys) ++ rest) ->
    encodingKeys (length (key :: keys)) 0 entryKey b
    = Ok (Some (byteArrayToHexString key),
          advance b (16 * Z.of_nat (length (key :: keys))))
    /\ cursorAt (advance b (16 * Z.of_nat (length (key :: keys)))) rest.
Proof.
  intros entryKey b rest Hk Hat.
  apply Forall_cons in Hk as [Hk Hks].
  cbn [concat] in Hat. rewrite <- app_assoc in Hat.
  destruct (readUInt8_at _ _ _ Hat) as [R1 Hat1].
  rewrite Hk in R1, Hat1.
  destruct (encodingKeys_later keys (0 + 1)
              (Some (byteArrayToHexString key)) _ rest ltac:(lia) Hks Hat1)
    as [R2 Hat2].
  rewrite advance_advance in R2, Hat2.
  replace (Z.of_nat 16 + 16 * Z.of_nat (length keys))
    with (16 * Z.of_nat (length (key :: keys))) in R2, Hat2
    by (cbn [length]; lia).
  split; [|exact Hat2].
  cbn [length encodingKeys]. rewrite (bind_Ok _ _ _ _ _ R1). exact R2.
Qed.

(** C7. At a group with key-count k > 0 the parser reads a 4-byte
    big-endian size, a 16-byte content hash and k 16-byte keys; it appends
    exactly one entry, whose key is the first of the k keys, and goes on
    behind all k keys, where it reads the next key-count. *)
Theorem encodingGroup_keeps_first_key
    (size : Z) (hash key : list byte) (keys : list (list byte))
    (rest : list byte) (b : Bufo) :
  let keysCount := Z.of_nat (length (key :: keys)) in
  let entry :=
    mkEncodingEntry (byteArrayToHexString hash)
      (Some (byteArrayToHexString key)) size in
  let b' := advance b (4 + 16 + 16 * keysCount) in
  uint32 size ->
  length hash = 16%nat ->
  Forall keyBytes (key :: keys) ->
  cursorAt b (be32 size ++ hash ++ concat (key :: keys) ++ rest) ->
  encodingGroup keysCount b = Ok (entry, b')
  /\ cursorAt b' rest
  /\ forall fuel entries,
       encodingGroups (S fuel) keysCount entries b
       = bind (readUInt16 defaultEndian)
           (fun keysCount' => encodingGroups fuel keysCount' (entries ++ [entry]))
           b'.
Proof.
  intros keysCount entry b' Hsize Hhash Hkeys Hat.
  destruct (readUInt32_at ENDIAN_BIG _ _ _ (length_be32 size) Hat) as [R1 Hat1].
  rewrite uintOf_be32 in R1 by exact Hsize.
  destruct (readUInt8_at _ _ _ Hat1) as [R2 Hat2]. rewrite Hhash in R2, Hat2.
  destruct (encodingKeys_first key keys None _ rest Hkeys Hat2) as [R3 Hat3].
  rewrite !advance_advance in R3, Hat3.
  replace (4 + Z.of_nat 16 + 16 * Z.of_nat (length (key :: keys)))
    with (4 + 16 + 16 * keysCount) in R3, Hat3 by (subst keysCount; lia).
  assert (G : encodingGroup keysCount b = Ok (entry, b')).
  { unfold encodingGroup.
    rewrite (bind_Ok _ _ _ _ _ R1), (bind_Ok _ _ _ _ _ R2).
    rewrite advance_advance.
    subst keysCount. rewrite Nat2Z.id, (bind_Ok _ _ _ _ _ R3). reflexivity. }
  split; [exact G|]. split; [exact Hat3|].
  intros fuel entries. cbn [encodingGroups].
  destruct (Z.eqb_spec keysCount 0) as [Hz|_].
  { subst keysCount. cbn [length] in Hz. lia. }
  rewrite (bind_Ok _ _ _ _ _ G). reflexivity.
Qed.

Lemma encodingGroup_keeps_first_key_witness :
  encodingGroup 3
    (mkBufo (le16 3 ++ be32 77 ++ replicate 16 x11 ++ replicate 16 x22
               ++ replicate 16 x33 ++ replicate 16 x44 ++ le16 0) 2)
  = Ok (mkEncodingEntry "11111111111111111111111111111111"
          (Some "22222222222222222222222222222222") 77,
        mkBufo (le16 3 ++ be32 77 ++ replicate 16 x11 ++ replicate 16 x22
                  ++ replicate 16 x33 ++ replicate 16 x44 ++ le16 0) 70).
Proof.
  apply (proj1 (encodingGroup_keeps_first_key 77 (replicate 16 x11)
                  (replicate 16 x22) [replicate 16 x33; replicate 16 x44]
                  (le16 0)
                  (mkBufo (le16 3 ++ be32 77 ++ replicate 16 x11
                             ++ replicate 16 x22 ++ replicate 16 x33
                             ++ replicate 16 x44 ++ le16 0) 2)
                  ltac:(unfold uint32; lia)
                  ltac:(reflexivity)
                  ltac:(repeat constructor)
                  ltac:(exists (le16 3); split; reflexivity))).
Defined.

(** ** parseEncodingFile: chunk alignment *)

Lemma encodingKeys_later_cursor (n : nat) :
  forall j entryKey b r b',
    encodingKeys n j entryKey b = Ok (r, b') ->
    0 <= offset b <= byteLength b ->
    laterCursor b b'.
Proof.
  induction n as [|n IH]; intros j entryKey b r b' H Hb.
  - injection H as _ <-. split; [reflexivity|lia].
  - cbn [encodingKeys] in H. apply bind_inv in H as (bs & b1 & H1 & H2).
    apply readUInt8_inv in H1 as (-> & H0 & Hle).
    apply IH in H2 as [E1 E2].
    + split; [exact E1|]. rewrite byteLength_advance, offset_advance in E2. lia.
    + rewrite byteLength_advance, offset_advance. lia.
Qed.

Lemma encodingGroup_later_cursor keysCount b e b' :
  encodingGroup keysCount b = Ok (e, b') ->
  buffer b' = buffer b /\ offset b + 20 <= offset b' <= byteLength b
  /\ 0 <= offset b.
Proof.
  unfold encodingGroup. intros H.
  apply bind_inv in H as (fileSize & b1 & H1 & H).
  apply bind_inv in H as (bs & b2 & H2 & H).
  apply bind_inv in H as (entryKey & b3 & H3 & H).
  injection H as _ <-.
  apply readUInt32_inv in H1 as (-> & H0 & Hle1).
  apply readUInt8_inv in H2 as (-> & _ & Hle2).
  rewrite byteLength_advance, offset_advance in Hle2.
  apply encodingKeys_later_cursor in H3 as [E1 E2].
  - rewrite !byteLength_advance, !offset_advance in E2.
    split; [exact E1|]. lia.
  - rewrite !byteLength_advance, !offset_advance. lia.
Qed.

Lemma encodingGroups_later_cursor (fuel : nat) :
  forall keysCount entries b entries' b',
    encodingGroups fuel keysCount entries b = Ok (entries', b') ->
    0 <= offset b <= byteLength b ->
    laterCursor b b'.
Proof.
  induction fuel as [|fuel IH]; intros keysCount entries b entries' b' H Hb;
    cbn [encodingGroups] in H; destruct (keysCount =? 0).
  - injection H as _ <-. split; [reflexivity|lia].
  - discriminate.
  - injection H as _ <-. split; [reflexivity|lia].
  - apply bind_inv in H as (e & b1 & H1 & H).
    apply bind_inv in H as (k' & b2 & H2 & H).
    apply encodingGroup_later_cursor in H1 as (B1 & O1 & _).
    apply readUInt16_inv in H2 as (-> & _ & Hle).
    apply IH in H as [E1 E2].
    + rewrite byteLength_advance, offset_advance in E2.
      unfold byteLength in *. rewrite B1 in *.
      split; [rewrite E1; exact B1|]. unfold byteLength. lia.
    + rewrite byteLength_advance, offset_advance. lia.
Qed.

Lemma alignChunk_inv chunkStart b u b' :
  chunkStart <= offset b ->
  alignChunk chunkStart b = Ok (u, b') ->
  b' = advance b (4096 - (offset b - chunkStart) mod 4096)
  /\ offset b' < byteLength b.
Proof.
  intros Hcs. unfold alignChunk, getOffset, bind.
  rewrite Z.rem_mod_nonneg by lia.
  pose proof (Z.mod_pos_bound (offset b - chunkStart) 4096 ltac:(lia)) as Hm.
  destruct (Z.gtb_spec (4096 - (offset b - chunkStart) mod 4096) 0); [|lia].
  intros Hmv. apply move_inv in Hmv as [-> Hin].
  split; [reflexivity|]. rewrite offset_advance. lia.
Qed.

(** The next 4096-byte boundary behind position [o], counted from
    [chunkStart]. *)
Lemma next_boundary (chunkStart o : Z) :
  chunkStart <= o ->
  let o' := o + (4096 - (o - chunkStart) mod 4096) in
  o' = chunkStart + 4096 * ((o - chunkStart) / 4096 + 1)
  /\ (o' - chunkStart) mod 4096 = 0
  /\ o < o' <= o + 4096
  /\ ((o - chunkStart) mod 4096 = 0 -> o' = o + 4096).
Proof.
  intros Hcs o'. subst o'.
  pose proof (Z.div_mod (o - chunkStart) 4096 ltac:(lia)) as Hdm.
  pose proof (Z.mod_pos_bound (o - chunkStart) 4096 ltac:(lia)) as Hm.
  split; [lia|]. split; [|split; [lia|intros Hz; lia]].
  replace (o + (4096 - (o - chunkStart) mod 4096) - chunkStart)
    with (((o - chunkStart) / 4096 + 1) * 4096) by lia.
  apply Z.mod_mul. lia.
Qed.

(** A chunk that has been read ends with [alignChunk], run where the
    terminating key-count ends. *)
Lemma encodingChunk_inv
    (chunkStart : Z) (entries entries' : list EncodingEntry) (b b' : Bufo) :
  chunkStart <= offset b ->
  encodingChunk chunkStart entries b = Ok (entries', b') ->
  exists terminator : Bufo,
    offset b + 2 <= offset terminator
    /\ alignChunk chunkStart terminator = Ok (tt, b')
    /\ b' = advance terminator
              (4096 - (offset terminator - chunkStart) mod 4096).
Proof.
  intros Hcs H. unfold encodingChunk in H.
  apply bind_inv in H as (fuel & b0 & H0 & H).
  injection H0 as _ <-.
  apply bind_inv in H as (keysCount & b1 & H1 & H).
  apply bind_inv in H as (es & b2 & H2 & H).
  apply bind_inv in H as ([] & b3 & H3 & H).
  injection H as _ <-.
  apply readUInt16_inv in H1 as (-> & Hb0 & Hle).
  apply encodingGroups_later_cursor in H2 as [_ E2];
    [|rewrite byteLength_advance, offset_advance; lia].
  rewrite byteLength_advance, offset_advance in E2.
  exists b2. split; [lia|]. split; [exact H3|].
  apply alignChunk_inv in H3 as [-> _]; [reflexivity|lia].
Qed.

(** The same across the chunks of the table: read from [chunkStart] on,
    every chunk starts at a multiple of 4096 from [chunkStart], and so does
    whatever follows the last one. *)
Lemma encodingChunks_aligned (n : nat) :
  forall chunkStart entries entries' b b',
    chunkStart <= offset b ->
    (offset b - chunkStart) mod 4096 = 0 ->
    encodingChunks n chunkStart entries b = Ok (entries', b') ->
    chunkStart <= offset b' /\ (offset b' - chunkStart) mod 4096 = 0.
Proof.
  induction n as [|n IH]; intros chunkStart entries entries' b b' Hcs Hal H.
  - injection H as _ <-. split; assumption.
  - cbn [encodingChunks] in H. apply bind_inv in H as (es & b1 & H1 & H).
    destruct (encodingChunk_inv _ _ _ _ _ Hcs H1) as (t & Ht & _ & ->).
    destruct (next_boundary chunkStart (offset t) ltac:(lia))
      as (_ & Hmod & Hlt & _).
    eapply IH; [| |exact H]; rewrite offset_advance; [lia|exact Hmod].
Qed.

(** ** parseEncodingFile: the loop bound is never reached *)

Lemma bind_Err_inv {A B} (m : M A) (k : A -> M B) b e :
  bind m k b = Err e ->
  m b = Err e \/ exists a b', m b = Ok (a, b') /\ k a b' = Err e.
Proof.
  unfold bind. destruct (m b) as [[a b']|e1].
  - intros H. right. exists a, b'. split; [reflexivity|exact H].
  - intros [= ->]. left. reflexivity.
Qed.

Lemma encodingKeys_Err (n : nat) :
  forall j entryKey b e,
    encodingKeys n j entryKey b = Err e -> e = BufferUnderrun.
Proof.
  induction n as [|n IH]; intros j entryKey b e H.
  - discriminate.
  - cbn [encodingKeys] in H.
    apply bind_Err_inv in H as [H|(bs & b1 & _ & H)].
    + eapply readUInt8_Err, H.
    + eapply IH, H.
Qed.

Lemma encodingGroup_Err keysCount b e :
  encodingGroup keysCount b = Err e -> e = BufferUnderrun.
Proof.
  unfold encodingGroup. intros H.
  apply bind_Err_inv in H as [H|(fileSize & b1 & _ & H)];
    [eapply readUInt32_Err, H|].
  apply bind_Err_inv in H as [H|(bs & b2 & _ & H)];
    [eapply readUInt8_Err, H|].
  apply bind_Err_inv in H as [H|(entryKey & b3 & _ & H)];
    [eapply encodingKeys_Err, H|].
  discriminate.
Qed.

Lemma encodingGroups_Err (fuel : nat) :
  forall keysCount entries b e,
    0 <= offset b <= byteLength b ->
    byteLength b - offset b < Z.of_nat fuel ->
    encodingGroups fuel keysCount entries b = Err e ->
    e = BufferUnderrun.
Proof.
  induction fuel as [|fuel IH]; intros keysCount entries b e Hb Hfuel H;
    [lia|].
  cbn [encodingGroups] in H. destruct (keysCount =? 0); [discriminate|].
  apply bind_Err_inv in H as [H|(en & b1 & H1 & H)];
    [eapply encodingGroup_Err, H|].
  apply encodingGroup_later_cursor in H1 as (B1 & O1 & _).
  apply bind_Err_inv in H as [H|(k' & b2 & H2 & H)];
    [eapply readUInt16_Err, H|].
  apply readUInt16_inv in H2 as (-> & _ & Hle).
  assert (Hlen : byteLength b1 = byteLength b)
    by (unfold byteLength; rewrite B1; reflexivity).
  eapply IH, H; rewrite byteLength_advance, offset_advance; lia.
Qed.

Lemma alignChunk_Err chunkStart b e :
  alignChunk chunkStart b = Err e -> e = BufferUnderrun.
Proof.
  unfold alignChunk, getOffset, bind.
  destruct (_ >? 0); [apply move_Err|discriminate].
Qed.

Lemma encodingChunk_Err chunkStart entries b e :
  encodingChunk chunkStart entries b = Err e -> e = BufferUnderrun.
Proof.
  unfold encodingChunk, getFuel. unfold bind at 1. intros H.
  apply bind_Err_inv in H as [H|(keysCount & b1 & H1 & H)];
    [eapply readUInt16_Err, H|].
  apply readUInt16_inv in H1 as (-> & H0 & Hle).
  apply bind_Err_inv in H as [H|(es & b2 & _ & H)].
  - eapply encodingGroups_Err, H;
      rewrite byteLength_advance, offset_advance; unfold byteLength in *; lia.
  - apply bind_Err_inv in H as [H|(u & b3 & _ & H)];
      [eapply alignChunk_Err, H|discriminate].
Qed.

Lemma encodingChunks_Err (n : nat) :
  forall chunkStart entries b e,
    encodingChunks n chunkStart entries b = Err e -> e = BufferUnderrun.
Proof.
  induction n as [|n IH]; intros chunkStart entries b e H.
  - discriminate.
  - cbn [encodingChunks] in H.
    apply bind_Err_inv in H as [H|(es & b1 & _ & H)].
    + eapply encodingChunk_Err, H.
    + eapply IH, H.
Qed.

(** Every failure of [parseEncodingFile] is a [BufferUnderrun]: the bound
    on the [while] loop is never what ends a parse. *)
Lemma parseEncodingFile_Err (encoding : list byte) (e : error) :
  parseEncodingFile encoding = Err e -> e = BufferUnderrun.
Proof.
  unfold parseEncodingFile, run.
  destruct (parseEncoding _) as [[a b']|e1] eqn:E; [discriminate|].
  intros [= <-]. revert E. generalize (mkBufo encoding 0). intros b H.
  unfold parseEncoding in H.
  apply bind_Err_inv in H as [H|(u1 & b1 & _ & H)]; [eapply seek_Err, H|].
  apply bind_Err_inv in H as [H|(numEntriesA & b2 & _ & H)];
    [eapply readInt32_Err, H|].
  apply bind_Err_inv in H as [H|(u2 & b3 & _ & H)]; [eapply move_Err, H|].
  apply bind_Err_inv in H as [H|(stringBlockSize & b4 & _ & H)];
    [eapply readInt32_Err, H|].
  apply bind_Err_inv in H as [H|(u3 & b5 & _ & H)]; [eapply move_Err, H|].
  apply bind_Err_inv in H as [H|(u4 & b6 & _ & H)]; [eapply move_Err, H|].
  apply bind_Err_inv in H as [H|(chunkStart & b7 & _ & H)]; [discriminate|].
  eapply encodingChunks_Err, H.
Qed.

(** ** parseRootFile: the content-flag check *)

Lemma contentFlagMask_nonzero : (contentFlagMask =? 0) = false.
Proof. vm_compute. reflexivity. Qed.

(** The condition of the second [throw] is false for every content flag. *)
Lemma contentFlagRejected_never (contentFlag : Z) :
  contentFlagRejected contentFlag = false.
Proof.
  unfold contentFlagRejected. rewrite contentFlagMask_nonzero.
  destruct (negb (contentFlag =? CONTENT_FLAG_None)); [|reflexivity].
  unfold js_bitand, js_number_of_bool.
  change (ToInt32 0) with 0. rewrite Z.land_0_r. reflexivity.
Qed.

(** C2, against the code: the written condition rejects no content flag
    at all.  At a block whose content flag is 1 the flag is non-zero and
    has none of the four bits of the mask, and the block is accepted. *)
Theorem parseRootFile_accepts_flag_outside_mask :
  (forall contentFlag : Z, contentFlagRejected contentFlag = false)
  /\ contentFlagOutsideMask 1 = true
  /\ parseRootFile (encodeRootBlock (mkRootBlock 1 2 []))
     = Ok (mkRootResult [] [None; Some (mkTypePair 2 1)]).
Proof.
  split; [exact contentFlagRejected_never|].
  split; vm_compute; reflexivity.
Qed.

(** ** parseRootFile: the returned entries *)

(** The array returned as [Entries] is the one of the first line of the
    function, which nothing is pushed to. *)
Lemma parseRootFile_Entries_empty (root : list byte) (r : RootResult) :
  parseRootFile root = Ok r -> Entries r = [].
Proof.
  unfold parseRootFile, run.
  destruct (parseRoot _) as [[[r' arrays] b']|e] eqn:E; [|discriminate].
  intros [= <-]. unfold parseRoot in E.
  apply bind_inv in E as (u & b1 & _ & E).
  apply bind_inv in E as (fuel & b2 & _ & E).
  apply bind_inv in E as (x & b3 & _ & E).
  injection E as <- _ _. reflexivity.
Qed.

(** C1, at two blocks that each declare FileDataID 100 with the same
    hash: both entries are pushed to the arrays of their blocks, and the
    returned [Entries] is empty. *)
Theorem parseRootFile_drops_pushed_entries :
  let root :=
    encodeRootBlock (mkRootBlock 0 2 [hundredRow x01 x07])
    ++ encodeRootBlock (mkRootBlock 0 4 [hundredRow x03 x07]) in
  parseRootFile_blocks root
  = Ok [[Pending 1 100; Pushed (rowEntry 1 100 (hundredRow x01 x07))];
        [Pending 2 100; Pushed (rowEntry 2 100 (hundredRow x03 x07))]]
  /\ parseRootFile root
     = Ok (mkRootResult []
             [None; Some (mkTypePair 2 0); Some (mkTypePair 4 0)]).
Proof. vm_compute. split; reflexivity. Qed.

(** ** parseRootFile: a block on its encoding *)

Lemma rootIds_encoded (deltas : list Z) :
  forall typeIndex fileDataIndex acc b rest,
    Forall int32 deltas ->
    cursorAt b (concat (map le32 deltas) ++ rest) ->
    exists b',
      rootIds (length deltas) typeIndex fileDataIndex acc b
      = Ok (acc ++ map (Pending typeIndex) (decodeIds fileDataIndex deltas), b')
      /\ cursorAt b' rest.
Proof.
  induction deltas as [|d ds IH]; intros typeIndex fileDataIndex acc b rest Hd Hat.
  - exists b. cbn. rewrite app_nil_r. split; [reflexivity|exact Hat].
  - apply Forall_cons in Hd as [Hd Hds].
    cbn [map concat] in Hat. rewrite <- app_assoc in Hat.
    destruct (readInt32_at ENDIAN_LITTLE _ _ _ (length_le32 d) Hat) as [R1 Hat1].
    rewrite intOf_le32 in R1 by exact Hd.
    destruct (IH typeIndex (fileDataIndex + d + 1)
                (acc ++ [Pending typeIndex (fileDataIndex + d)]) _ rest Hds Hat1)
      as (b' & R2 & Hat2).
    exists b'. split; [|exact Hat2].
    cbn [length rootIds decodeIds map]. unfold defaultEndian.
    rewrite (bind_Ok _ _ _ _ _ R1).
    rewrite <- app_assoc in R2. exact R2.
Qed.

Lemma rootRows_encoded (rows : list RootRow) :
  forall (fids : list Z) (pre post : list RootSlot) rootIndex b rest typeIndex,
    Forall RootRow_wf rows ->
    length fids = length rows ->
    cursorAt b (concat (map (fun r => rrKey r ++ rrHash r) rows) ++ rest) ->
    exists pushed rootIndex' b',
      rootRows (length rows) (length pre)
        (pre ++ map (Pending typeIndex) fids ++ post) rootIndex b
      = Ok ((pre ++ map (Pending typeIndex) fids ++ post ++ map Pushed pushed,
             rootIndex'), b')
      /\ cursorAt b' rest
      /\ sublist pushed (zip_with (rowEntry typeIndex) fids rows).
Proof.
  induction rows as [|r rows IH];
    intros fids pre post rootIndex b rest typeIndex Hwf Hlen Hat.
  - exists [], rootIndex, b. cbn [length rootRows map]. rewrite app_nil_r.
    split; [reflexivity|]. split; [exact Hat|]. apply sublist_nil_l.
  - destruct fids as [|f fids]; [discriminate|].
    apply Forall_cons in Hwf as [(_ & Hk & Hh) Hwf].
    injection Hlen as Hlen.
    cbn [map concat] in Hat. rewrite <- !app_assoc in Hat.
    destruct (readUInt8_at _ _ _ Hat) as [R1 Hat1]. rewrite Hk in R1, Hat1.
    destruct (readUInt8_at _ _ _ Hat1) as [R2 Hat2]. rewrite Hh in R2, Hat2.
    cbn [length rootRows map].
    rewrite (bind_Ok _ _ _ _ _ R1), (bind_Ok _ _ _ _ _ R2).
    change ((Pending typeIndex f :: map (Pending typeIndex) fids) ++ post)
      with (Pending typeIndex f :: (map (Pending typeIndex) fids ++ post)).
    rewrite (list_lookup_middle pre _ (Pending typeIndex f) (length pre) eq_refl).
    cbn [slotFileDataID slotRootType].
    assert (Hpre : S (length pre) = length (pre ++ [Pending typeIndex f]))
      by (rewrite length_app; cbn; lia).
    destruct (match rootIndex !! f with
              | Some hashCheck =>
                  negb (String.eqb hashCheck (byteArrayToHexString (rrHash r)))
              | None => false
              end).
    + destruct (IH fids (pre ++ [Pending typeIndex f]) post rootIndex _ rest
                  typeIndex Hwf Hlen Hat2) as (pushed & idx' & b' & R3 & Hat3 & Hsub).
      exists pushed, idx', b'.
      split; [|split; [exact Hat3|]].
      * rewrite <- Hpre, <- !app_assoc in R3. cbn [app] in R3.
        cbn [app]. exact R3.
      * cbn [zip_with]. apply sublist_cons. exact Hsub.
    + destruct (IH fids (pre ++ [Pending typeIndex f])
                  (post ++ [Pushed (rowEntry typeIndex f r)])
                  (<[f := byteArrayToHexString (rrHash r)]> rootIndex) _ rest
                  typeIndex Hwf Hlen Hat2) as (pushed & idx' & b' & R3 & Hat3 & Hsub).
      exists (rowEntry typeIndex f r :: pushed), idx', b'.
      split; [|split; [exact Hat3|]].
      * rewrite <- Hpre, <- !app_assoc in R3. cbn [app] in R3.
        rewrite <- !app_assoc. cbn [app map]. rewrite <- !app_assoc.
        exact R3.
      * cbn [zip_with]. apply sublist_skip. exact Hsub.
Qed.

Lemma arraySet_typesOf (done : list TypePair) (p : TypePair) :
  arraySet (typesOf done) (S (length done)) p = typesOf (done ++ [p]).
Proof.
  unfold arraySet. destruct done as [|q done].
  - reflexivity.
  - cbn [typesOf app length]. rewrite length_map. cbn [length].
    destruct (decide (S (S (length done)) < S (S (length done)))%nat); [lia|].
    rewrite Nat.sub_diag. cbn [replicate app].
    change (q :: done ++ [p]) with ((q :: done) ++ [p]).
    rewrite map_app. reflexivity.
Qed.

Lemma length_decodeIds (deltas : list Z) :
  forall runningIndex, length (decodeIds runningIndex deltas) = length deltas.
Proof.
  induction deltas as [|d ds IH]; intros runningIndex; [reflexivity|].
  cbn [decodeIds length]. rewrite IH. reflexivity.
Qed.

Lemma rootBlock_encoded (blk : RootBlock) (st : RootState) b rest :
  RootBlock_wf blk ->
  cursorAt b (encodeRootBlock blk ++ rest) ->
  exists slots rootIndex' b',
    rootBlock st b
    = Ok (mkRootState
            (arraySet (types st) (Z.to_nat (typeIndex st + 1)) (blockFlags blk))
            rootIndex' (typeIndex st + 1),
          slots, b')
    /\ cursorAt b' rest
    /\ blockArray (typeIndex st + 1) blk slots.
Proof.
  intros (Hcf & Hlf & Hlf0 & Hn & Hrows) Hat.
  unfold encodeRootBlock in Hat. rewrite <- !app_assoc in Hat.
  destruct (readInt32_at ENDIAN_LITTLE _ _ _ (length_le32 _) Hat) as [R1 Hat1].
  rewrite intOf_le32 in R1 by (unfold int32; lia).
  destruct (readUInt32_at ENDIAN_LITTLE _ _ _ (length_le32 _) Hat1) as [R2 Hat2].
  rewrite uintOf_le32 in R2 by exact Hcf.
  destruct (readUInt32_at ENDIAN_LITTLE _ _ _ (length_le32 _) Hat2) as [R3 Hat3].
  rewrite uintOf_le32 in R3 by exact Hlf.
  rewrite <- (map_map rrDelta le32 (rbRows blk)) in Hat3.
  assert (Hd : Forall int32 (map rrDelta (rbRows blk))).
  { apply Forall_map. eapply Forall_impl; [exact Hrows|].
    intros r (Hr & _). exact Hr. }
  destruct (rootIds_encoded _ (typeIndex st + 1) 0 [] _ _ Hd Hat3)
    as (b4 & R4 & Hat4).
  rewrite length_map in R4. cbn [app] in R4. fold (blockIds blk) in R4.
  assert (Hlen : length (blockIds blk) = length (rbRows blk))
    by (unfold blockIds; rewrite length_decodeIds, length_map; reflexivity).
  destruct (rootRows_encoded (rbRows blk) (blockIds blk) [] [] (rootIndex st)
              b4 rest (typeIndex st + 1) Hrows Hlen Hat4)
    as (pushed & idx' & b5 & R5 & Hat5 & Hsub).
  cbn [app length] in R5. rewrite app_nil_r in R5.
  exists (map (Pending (typeIndex st + 1)) (blockIds blk) ++ map Pushed pushed),
    idx', b5.
  split; [|split; [exact Hat5|]].
  - unfold rootBlock, defaultEndian.
    rewrite (bind_Ok _ _ _ _ _ R1), (bind_Ok _ _ _ _ _ R2),
      (bind_Ok _ _ _ _ _ R3).
    destruct (Z.eqb_spec (rbLocaleFlag blk) LOCALE_FLAG_None) as [E|_];
      [contradiction|].
    rewrite contentFlagRejected_never, Nat2Z.id.
    rewrite (bind_Ok _ _ _ _ _ R4), (bind_Ok _ _ _ _ _ R5).
    reflexivity.
  - exists pushed. split; [reflexivity|exact Hsub].
Qed.

(** ** parseRootFile: the loop over the blocks *)

Lemma length_encodeRootBlock (blk : RootBlock) :
  (12 <= length (encodeRootBlock blk))%nat.
Proof.
  unfold encodeRootBlock. rewrite !length_app, !length_le32. lia.
Qed.

Lemma length_encoded_blocks (blks : list RootBlock) :
  (length blks <= length (concat (map encodeRootBlock blks)))%nat.
Proof.
  induction blks as [|blk blks IH]; [reflexivity|].
  cbn [map concat length]. rewrite length_app.
  pose proof (length_encodeRootBlock blk). lia.
Qed.

(** [root.seek(0)] needs a byte to go to; a buffer of blocks has one as
    soon as there is a block. *)
Lemma encoded_blocks_nonempty (blks : list RootBlock) :
  blks <> [] -> (0 < length (concat (map encodeRootBlock blks)))%nat.
Proof.
  intros Hne. pose proof (length_encoded_blocks blks).
  destruct blks; [contradiction|]. cbn [length] in *. lia.
Qed.

Lemma rootBlocks_encoded (blks : list RootBlock) :
  forall fuel done idx arrays b,
    Forall RootBlock_wf blks ->
    (length blks <= fuel)%nat ->
    cursorAt b (concat (map encodeRootBlock blks)) ->
    exists new idx' b',
      rootBlocks fuel
        (mkRootState (typesOf done) idx (Z.of_nat (length done))) arrays b
      = Ok (mkRootState (typesOf (done ++ map blockFlags blks)) idx'
              (Z.of_nat (length done + length blks)),
            arrays ++ new, b')
      /\ length new = length blks
      /\ forall k blk slots,
           blks !! k = Some blk -> new !! k = Some slots ->
           blockArray (Z.of_nat (length done + k) + 1) blk slots.
Proof.
  induction blks as [|blk blks IH]; intros fuel done idx arrays b Hwf Hfuel Hat.
  - exists [], idx, b. rewrite !app_nil_r, Nat.add_0_r.
    pose proof (cursorAt_bounds _ _ Hat) as [_ Hend].
    cbn [map concat length] in Hend.
    split; [|split; [reflexivity|intros k blk slots Hk; discriminate]].
    destruct fuel; cbn [rootBlocks]; unfold bind, getOffset, getByteLength;
      (destruct (Z.ltb_spec (offset b) (byteLength b)); [lia|reflexivity]).
  - destruct fuel as [|fuel]; [cbn [length] in Hfuel; lia|].
    apply Forall_cons in Hwf as [Hblk Hwf].
    cbn [map concat] in Hat.
    pose proof (cursorAt_bounds _ _ Hat) as [_ Hend].
    rewrite length_app in Hend. pose proof (length_encodeRootBlock blk) as H12.
    destruct (rootBlock_encoded blk
                (mkRootState (typesOf done) idx (Z.of_nat (length done)))
                b _ Hblk Hat) as (slots & idx1 & b1 & R1 & Hat1 & Harr).
    cbn [types typeIndex] in R1, Harr.
    replace (Z.to_nat (Z.of_nat (length done) + 1)) with (S (length done))
      in R1 by lia.
    rewrite arraySet_typesOf in R1.
    replace (Z.of_nat (length done) + 1)
      with (Z.of_nat (length (done ++ [blockFlags blk]))) in R1
      by (rewrite length_app; cbn [length]; lia).
    destruct (IH fuel (done ++ [blockFlags blk]) idx1 (arrays ++ [slots]) b1
                Hwf ltac:(cbn [length] in Hfuel; lia) Hat1)
      as (new & idx' & b' & R2 & Hnew & Hall).
    exists (slots :: new), idx', b'.
    split; [|split].
    + cbn [rootBlocks]. unfold bind at 1, getOffset.
      unfold bind at 1, getByteLength.
      destruct (Z.ltb_spec (offset b) (byteLength b)); [|lia].
      rewrite (bind_Ok _ _ _ _ _ R1). cbn [fst snd].
      rewrite R2. cbn [map length].
      rewrite <- !app_assoc, length_app. cbn [app length].
      do 4 f_equal. lia.
    + cbn [length]. rewrite Hnew. reflexivity.
    + intros [|k] blk' slots' Hk Hs.
      * injection Hk as <-. injection Hs as <-.
        rewrite Nat.add_0_r. exact Harr.
      * specialize (Hall k blk' slots' Hk Hs).
        rewrite length_app in Hall. cbn [length] in Hall.
        replace (Z.of_nat (length done + S k))
          with (Z.of_nat (length done + 1 + k)) by lia.
        exact Hall.
Qed.

Lemma arrayGet_typesOf (pairs : list TypePair) :
  arrayGet (typesOf pairs) 0 = None
  /\ forall k p, pairs !! k = Some p -> arrayGet (typesOf pairs) (S k) = Some p.
Proof.
  split.
  - destruct pairs; reflexivity.
  - intros k p Hk. destruct pairs as [|q pairs]; [discriminate|].
    unfold arrayGet, typesOf.
    change ((None :: map Some (q :: pairs)) !! S k)
      with ((Some <$> (q :: pairs)) !! k).
    rewrite list_lookup_fmap, Hk. reflexivity.
Qed.

Lemma blockArray_pushed typeIndex blk slots e :
  blockArray typeIndex blk slots ->
  In (Pushed e) slots ->
  reType e = Some typeIndex.
Proof.
  intros (pushed & -> & Hsub) Hin.
  apply in_app_iff in Hin as [Hin|Hin]; apply in_map_iff in Hin as (x & Hx & Hin);
    [discriminate|].
  injection Hx as ->.
  apply list_elem_of_In in Hin.
  apply (elem_of_sublist _ _ _ Hin) in Hsub.
  apply elem_of_zip_with in Hsub as (f & r & -> & _ & _).
  reflexivity.
Qed.

(** ** parseRootFile: the statements *)

(** C10. For a root buffer made of well-formed blocks, one at least, the
    parse succeeds, position 0 of [Types] holds nothing, the k-th block's
    (LocaleFlag, ContentFlag) pair is at position k, counting from 1, and
    every entry pushed while the k-th block is read carries k as its
    [Type], so that [Types] read at the entry's [Type] is the pair of its
    block. *)
Theorem parseRootFile_types_one_based (blks : list RootBlock) :
  let root := concat (map encodeRootBlock blks) in
  Forall RootBlock_wf blks ->
  blks <> [] ->
  exists (r : RootResult) (arrays : list (list RootSlot)),
    parseRootFile root = Ok r
    /\ parseRootFile_blocks root = Ok arrays
    /\ arrayGet (Types r) 0 = None
    /\ (forall k blk,
          blks !! k = Some blk ->
          arrayGet (Types r) (S k) = Some (blockFlags blk))
    /\ length arrays = length blks
    /\ (forall k blk slots e,
          blks !! k = Some blk -> arrays !! k = Some slots ->
          In (Pushed e) slots ->
          reType e = Some (Z.of_nat (S k))
          /\ arrayGet (Types r) (S k) = Some (blockFlags blk)).
Proof.
  intros root Hwf Hne.
  destruct (rootBlocks_encoded blks (length root) [] ∅ [] (mkBufo root 0)
              Hwf (length_encoded_blocks blks))
    as (new & idx' & b' & R & Hlen & Hall).
  { exists []. split; reflexivity. }
  cbn [app length Nat.add] in R, Hall.
  assert (Hrun : run parseRoot root
                 = Ok (mkRootResult [] (typesOf (map blockFlags blks)), new)).
  { unfold run, parseRoot.
    erewrite bind_Ok; cycle 1.
    { apply seek_front. unfold byteLength. cbn [buffer].
      pose proof (encoded_blocks_nonempty blks Hne). subst root. lia. }
    unfold getFuel. unfold bind at 1. cbn [buffer].
    change (typesOf []) with (@nil (option TypePair)) in R.
    change (Z.of_nat 0) with 0 in R.
    rewrite (bind_Ok _ _ _ _ _ R). reflexivity. }
  exists (mkRootResult [] (typesOf (map blockFlags blks))), new.
  destruct (arrayGet_typesOf (map blockFlags blks)) as [Hzero Hpos].
  assert (Hflags : forall k blk, blks !! k = Some blk ->
            arrayGet (typesOf (map blockFlags blks)) (S k) = Some (blockFlags blk)).
  { intros k blk Hk. apply Hpos.
    change (map blockFlags blks) with (blockFlags <$> blks).
    rewrite list_lookup_fmap, Hk. reflexivity. }
  unfold parseRootFile, parseRootFile_blocks. rewrite Hrun. cbn [fst snd Types].
  split; [reflexivity|]. split; [reflexivity|]. split; [exact Hzero|].
  split; [exact Hflags|]. split; [exact Hlen|].
  intros k blk slots e Hk Hs Hin. split; [|exact (Hflags k blk Hk)].
  specialize (Hall k blk slots Hk Hs).
  rewrite (blockArray_pushed _ _ _ _ Hall Hin). f_equal. lia.
Qed.

Lemma twoBlocks_wf : Forall RootBlock_wf twoBlocks.
Proof.
  unfold twoBlocks, RootBlock_wf, RootRow_wf, uint32, int32.
  repeat (apply Forall_cons; split); try apply Forall_nil;
    cbn [rbContentFlag rbLocaleFlag rbRows rrDelta rrKey rrHash length];
    repeat split; try lia; try reflexivity;
    repeat (apply Forall_cons; split); try apply Forall_nil;
    cbn [rrDelta rrKey rrHash]; repeat split; try lia; try reflexivity.
Defined.

Lemma parseRootFile_types_one_based_witness :
  exists (r : RootResult) (arrays : list (list RootSlot)),
    parseRootFile (concat (map encodeRootBlock twoBlocks)) = Ok r
    /\ parseRootFile_blocks (concat (map encodeRootBlock twoBlocks)) = Ok arrays
    /\ arrayGet (Types r) 0 = None
    /\ (forall k blk,
          twoBlocks !! k = Some blk ->
          arrayGet (Types r) (S k) = Some (blockFlags blk))
    /\ length arrays = length twoBlocks
    /\ (forall k blk slots e,
          twoBlocks !! k = Some blk -> arrays !! k = Some slots ->
          In (Pushed e) slots ->
          reType e = Some (Z.of_nat (S k))
          /\ arrayGet (Types r) (S k) = Some (blockFlags blk)).
Proof.
  exact (parseRootFile_types_one_based twoBlocks twoBlocks_wf ltac:(discriminate)).
Defined.

(** ** parseRootFile: delta decoding *)

Lemma decodeIds_lookup (deltas : list Z) :
  forall runningIndex i d id,
    deltas !! i = Some d ->
    decodeIds runningIndex deltas !! i = Some id ->
    id = match i with
         | O => runningIndex
         | S j => default 0 (decodeIds runningIndex deltas !! j) + 1
         end + d.
Proof.
  induction deltas as [|d0 ds IH]; intros runningIndex i d id Hd Hid;
    [discriminate|].
  destruct i as [|j].
  - injection Hd as <-. injection Hid as <-. reflexivity.
  - cbn [decodeIds] in Hid |- *.
    change ((runningIndex + d0 :: decodeIds (runningIndex + d0 + 1) ds) !! S j)
      with (decodeIds (runningIndex + d0 + 1) ds !! j) in Hid.
    change ((d0 :: ds) !! S j) with (ds !! j) in Hd.
    rewrite (IH _ _ _ _ Hd Hid).
    destruct j as [|j']; reflexivity.
Qed.

(** C6. While a block is read, its FileDataIDs are decoded from the
    deltas with a running index that starts at 0: the id of a position is
    the running index plus the delta read there, and the running index of
    the next position is that id plus one.  The first slots of the block's
    array hold these ids, in order. *)
Theorem rootBlock_delta_decoding
    (blk : RootBlock) (st : RootState) (b : Bufo) (rest : list byte) :
  RootBlock_wf blk ->
  cursorAt b (encodeRootBlock blk ++ rest) ->
  exists st' slots b',
    rootBlock st b = Ok (st', slots, b')
    /\ take (length (rbRows blk)) slots
       = map (Pending (typeIndex st + 1)) (blockIds blk)
    /\ length (blockIds blk) = length (rbRows blk)
    /\ forall i r id,
         rbRows blk !! i = Some r ->
         blockIds blk !! i = Some id ->
         id = match i with
              | O => 0
              | S j => default 0 (blockIds blk !! j) + 1
              end + rrDelta r.
Proof.
  intros Hwf Hat.
  destruct (rootBlock_encoded blk st b rest Hwf Hat)
    as (slots & idx' & b' & R & _ & pushed & -> & _).
  assert (Hlen : length (blockIds blk) = length (rbRows blk))
    by (unfold blockIds; rewrite length_decodeIds, length_map; reflexivity).
  eexists _, _, b'. split; [exact R|]. split; [|split; [exact Hlen|]].
  - rewrite <- Hlen, <- (length_map (Pending (typeIndex st + 1))).
    apply take_app_length.
  - intros i r id Hr Hid. unfold blockIds in *.
    eapply decodeIds_lookup; [|exact Hid].
    change (map rrDelta (rbRows blk)) with (rrDelta <$> rbRows blk).
    rewrite list_lookup_fmap, Hr. reflexivity.
Qed.

Lemma deltaBlock_wf : RootBlock_wf deltaBlock.
Proof.
  unfold deltaBlock, RootBlock_wf, RootRow_wf, uint32, int32.
  cbn [rbContentFlag rbLocaleFlag rbRows length].
  repeat split; try lia;
    repeat (apply Forall_cons; split); try apply Forall_nil;
    cbn [rrDelta rrKey rrHash]; repeat split; try lia; try reflexivity.
Defined.

Lemma rootBlock_delta_decoding_witness :
  exists st' slots b',
    rootBlock (mkRootState [] ∅ 0) (mkBufo (encodeRootBlock deltaBlock) 0)
    = Ok (st', slots, b')
    /\ take 3 slots = [Pending 1 5; Pending 1 6; Pending 1 9].
Proof.
  destruct (rootBlock_delta_decoding deltaBlock (mkRootState [] ∅ 0)
              (mkBufo (encodeRootBlock deltaBlock) 0) [] deltaBlock_wf
              ltac:(exists []; rewrite app_nil_r; split; reflexivity))
    as (st' & slots & b' & R & Htake & _).
  exists st', slots, b'. split; [exact R|exact Htake].
Defined.

(** ** parseRootFile: the loop bound is never reached *)

Lemma rootIds_later_cursor (n : nat) :
  forall typeIndex fileDataIndex acc b slots b',
    rootIds n typeIndex fileDataIndex acc b = Ok (slots, b') ->
    0 <= offset b <= byteLength b ->
    laterCursor b b'.
Proof.
  induction n as [|n IH]; intros typeIndex fileDataIndex acc b slots b' H Hb.
  - injection H as _ <-. split; [reflexivity|lia].
  - cbn [rootIds] in H. apply bind_inv in H as (d & b1 & H1 & H2).
    apply readInt32_inv in H1 as (-> & H0 & Hle).
    apply IH in H2 as [E1 E2].
    + split; [exact E1|]. rewrite byteLength_advance, offset_advance in E2. lia.
    + rewrite byteLength_advance, offset_advance. lia.
Qed.

Lemma rootIds_Err (n : nat) :
  forall typeIndex fileDataIndex acc b e,
    rootIds n typeIndex fileDataIndex acc b = Err e -> e <> OutOfFuel.
Proof.
  induction n as [|n IH]; intros typeIndex fileDataIndex acc b e H.
  - discriminate.
  - cbn [rootIds] in H.
    apply bind_Err_inv in H as [H|(d & b1 & _ & H)].
    + apply readInt32_Err in H as ->. discriminate.
    + eapply IH, H.
Qed.

Lemma rootRows_later_cursor (n : nat) :
  forall i slots idx b r b',
    rootRows n i slots idx b = Ok (r, b') ->
    0 <= offset b <= byteLength b ->
    laterCursor b b'.
Proof.
  induction n as [|n IH]; intros i slots idx b r b' H Hb.
  - injection H as _ <-. split; [reflexivity|lia].
  - cbn [rootRows] in H.
    apply bind_inv in H as (kbs & b1 & H1 & H).
    apply bind_inv in H as (hbs & b2 & H2 & H).
    apply readUInt8_inv in H1 as (-> & H0 & Hle1).
    apply readUInt8_inv in H2 as (-> & _ & Hle2).
    rewrite byteLength_advance, offset_advance in Hle2.
    destruct (slots !! i) as [entry|]; [|discriminate].
    assert (Hb2 : 0 <= offset (advance (advance b (Z.of_nat 16)) (Z.of_nat 8))
                  <= byteLength (advance (advance b (Z.of_nat 16)) (Z.of_nat 8)))
      by (rewrite !byteLength_advance, !offset_advance; lia).
    destruct (match idx !! slotFileDataID entry with
              | Some hashCheck => _
              | None => false
              end); apply IH in H as [E1 E2]; try exact Hb2;
      rewrite !byteLength_advance, !offset_advance in E2;
      (split; [exact E1|lia]).
Qed.

Lemma rootRows_Err (n : nat) :
  forall i slots idx b e,
    rootRows n i slots idx b = Err e -> e <> OutOfFuel.
Proof.
  induction n as [|n IH]; intros i slots idx b e H.
  - discriminate.
  - cbn [rootRows] in H.
    apply bind_Err_inv in H as [H|(kbs & b1 & _ & H)];
      [apply readUInt8_Err in H as ->; discriminate|].
    apply bind_Err_inv in H as [H|(hbs & b2 & _ & H)];
      [apply readUInt8_Err in H as ->; discriminate|].
    destruct (slots !! i) as [entry|]; [|injection H as <-; discriminate].
    destruct (match idx !! slotFileDataID entry with
              | Some hashCheck => _
              | None => false
              end); eapply IH, H.
Qed.

Lemma rootBlock_later_cursor st b r b' :
  rootBlock st b = Ok (r, b') ->
  buffer b' = buffer b /\ offset b + 12 <= offset b' <= byteLength b.
Proof.
  unfold rootBlock. intros H.
  apply bind_inv in H as (count & b1 & H1 & H).
  apply bind_inv in H as (contentFlag & b2 & H2 & H).
  apply bind_inv in H as (localeFlag & b3 & H3 & H).
  apply readInt32_inv in H1 as (-> & H0 & Hle1).
  apply readUInt32_inv in H2 as (-> & _ & Hle2).
  apply readUInt32_inv in H3 as (-> & _ & Hle3).
  repeat rewrite byteLength_advance, offset_advance in Hle2.
  repeat rewrite byteLength_advance, offset_advance in Hle3.
  destruct (localeFlag =? LOCALE_FLAG_None); [discriminate|].
  destruct (contentFlagRejected contentFlag); [discriminate|].
  apply bind_inv in H as (slots & b4 & H4 & H).
  apply bind_inv in H as (rr & b5 & H5 & H).
  injection H as _ <-.
  apply rootIds_later_cursor in H4 as [B4 O4];
    [|rewrite !byteLength_advance, !offset_advance; lia].
  rewrite !byteLength_advance, !offset_advance in O4.
  assert (Hlen4 : byteLength b4 = byteLength b)
    by (unfold byteLength; rewrite B4; reflexivity).
  apply rootRows_later_cursor in H5 as [B5 O5]; [|lia].
  split; [rewrite B5; exact B4|lia].
Qed.

Lemma rootBlock_Err st b e : rootBlock st b = Err e -> e <> OutOfFuel.
Proof.
  unfold rootBlock. intros H.
  apply bind_Err_inv in H as [H|(count & b1 & _ & H)];
    [apply readInt32_Err in H as ->; discriminate|].
  apply bind_Err_inv in H as [H|(contentFlag & b2 & _ & H)];
    [apply readUInt32_Err in H as ->; discriminate|].
  apply bind_Err_inv in H as [H|(localeFlag & b3 & _ & H)];
    [apply readUInt32_Err in H as ->; discriminate|].
  destruct (localeFlag =? LOCALE_FLAG_None); [injection H as <-; discriminate|].
  destruct (contentFlagRejected contentFlag); [injection H as <-; discriminate|].
  apply bind_Err_inv in H as [H|(slots & b4 & _ & H)];
    [eapply rootIds_Err, H|].
  apply bind_Err_inv in H as [H|(rr & b5 & _ & H)];
    [eapply rootRows_Err, H|discriminate].
Qed.

Lemma rootBlocks_Err (fuel : nat) :
  forall st arrays b e,
    byteLength b - offset b <= Z.of_nat fuel ->
    rootBlocks fuel st arrays b = Err e -> e <> OutOfFuel.
Proof.
  induction fuel as [|fuel IH]; intros st arrays b e Hfuel H;
    cbn [rootBlocks] in H; unfold bind at 1, getOffset in H;
    unfold bind at 1, getByteLength in H;
    destruct (Z.ltb_spec (offset b) (byteLength b)); try discriminate;
    try lia.
  apply bind_Err_inv in H as [H|(r & b1 & H1 & H)];
    [eapply rootBlock_Err, H|].
  apply rootBlock_later_cursor in H1 as [B1 O1].
  eapply IH, H. unfold byteLength in *. rewrite B1. lia.
Qed.

(** [parseRootFile] does not fail for want of loop iterations. *)
Lemma parseRootFile_Err (root : list byte) (e : error) :
  parseRootFile root = Err e -> e <> OutOfFuel.
Proof.
  unfold parseRootFile, run.
  destruct (parseRoot _) as [[a b']|e1] eqn:E; [discriminate|].
  intros [= <-]. unfold parseRoot in E.
  apply bind_Err_inv in E as [E|(u & b1 & E1 & E)];
    [apply seek_Err in E as ->; discriminate|].
  unfold seek in E1. cbn [offset buffer] in E1.
  destruct (_ <? byteLength _); [|discriminate].
  injection E1 as _ <-.
  unfold getFuel in E. unfold bind at 1 in E. cbn [buffer] in E.
  apply bind_Err_inv in E as [E|(x & b2 & _ & E)]; [|discriminate].
  eapply rootBlocks_Err, E. unfold byteLength. cbn [buffer offset].
  destruct (0 <? 0); lia.
Qed.

(** * Further properties of the parsers *)

(** ** parseIndexFile: the size guard keeps every read inside the buffer *)

Lemma indexEntries_in_bounds (n : nat) :
  forall acc b,
    0 <= offset b ->
    offset b + 24 * Z.of_nat n <= byteLength b ->
    exists es b',
      indexEntries n acc b = Ok (acc ++ es, b') /\ length es = n.
Proof.
  induction n as [|n IH]; intros acc b H0 Hle.
  - exists [], b. rewrite app_nil_r. split; reflexivity.
  - cbn [indexEntries]. unfold readInt32.
    rewrite (bind_Ok _ _ _ _ _ (readUInt8_Ok b 16 H0 ltac:(lia))).
    erewrite (bind_Ok (bind (readUInt8 4) _)); cycle 1.
    { erewrite bind_Ok; [reflexivity|].
      apply readUInt8_Ok; rewrite ?byteLength_advance, ?offset_advance; lia. }
    erewrite (bind_Ok (bind (readUInt8 4) _)); cycle 1.
    { erewrite bind_Ok; [reflexivity|].
      apply readUInt8_Ok;
        rewrite ?byteLength_advance, ?advance_advance, ?offset_advance; lia. }
    match goal with
    | |- context [indexEntries n ?a ?bb] =>
        destruct (IH a bb) as (es & b' & R & Hlen)
    end.
    { rewrite !advance_advance, offset_advance. lia. }
    { rewrite !advance_advance, byteLength_advance, offset_advance. lia. }
    rewrite R. eexists (_ :: es), b'. rewrite <- app_assoc.
    split; [reflexivity|]. cbn [length]. rewrite Hlen. reflexivity.
Qed.

(** X1. Whatever the bytes of an archive index of more than 12 bytes, once
    [count * 24 <= byteLength] holds no read leaves the buffer: the parse
    succeeds and returns exactly [count] entries (none for a negative
    count). *)
Theorem parseIndexFile_in_bounds (archive : list byte) :
  (12 < length archive)%nat ->
  trailerCount archive * 24 <= Z.of_nat (length archive) ->
  exists entries : list IndexEntry,
    parseIndexFile archive = Ok entries
    /\ length entries = Z.to_nat (trailerCount archive).
Proof.
  intros Hlen Hguard.
  rewrite parseIndexFile_unfold by exact Hlen.
  destruct (Z.gtb_spec (trailerCount archive * 24) (Z.of_nat (length archive)));
    [lia|].
  destruct (indexEntries_in_bounds (Z.to_nat (trailerCount archive)) []
              (mkBufo archive 0)) as (es & b' & R & Hn).
  { cbn. lia. }
  { unfold byteLength. cbn [buffer offset]. lia. }
  exists es. unfold run. rewrite R. split; [reflexivity|exact Hn].
Qed.

Lemma parseIndexFile_in_bounds_witness :
  exists entries : list IndexEntry,
    parseIndexFile (replicate 40 x07 ++ le32 2 ++ replicate 8 x00) = Ok entries
    /\ length entries
       = Z.to_nat (trailerCount (replicate 40 x07 ++ le32 2 ++ replicate 8 x00)).
Proof.
  apply (parseIndexFile_in_bounds
           (replicate 40 x07 ++ le32 2 ++ replicate 8 x00)).
  - vm_compute. lia.
  - vm_compute. discriminate.
Defined.

(** ** parseRootFile: one hash per FileDataID *)

Lemma rootIds_appends (n : nat) :
  forall typeIndex fileDataIndex acc b slots b',
    rootIds n typeIndex fileDataIndex acc b = Ok (slots, b') ->
    exists ids, slots = acc ++ map (Pending typeIndex) ids.
Proof.
  induction n as [|n IH]; intros typeIndex fileDataIndex acc b slots b' H.
  - injection H as <- _. exists []. rewrite app_nil_r. reflexivity.
  - cbn [rootIds] in H. apply bind_inv in H as (d & b1 & _ & H).
    apply IH in H as (ids & ->).
    exists (fileDataIndex + d :: ids). rewrite <- app_assoc. reflexivity.
Qed.

(** The second loop only appends entries, never changes a hash the map
    already holds, and leaves the map holding the hash of every entry it
    appends. *)
Lemma rootRows_index (n : nat) :
  forall i slots idx b slots' idx' b',
    rootRows n i slots idx b = Ok (slots', idx', b') ->
    idx ⊆ idx'
    /\ exists pushed,
         slots' = slots ++ map Pushed pushed
         /\ Forall (fun e => idx' !! reFileDataID e = Some (reHash e)) pushed.
Proof.
  induction n as [|n IH]; intros i slots idx b slots' idx' b' H.
  - injection H as <- <- _. split; [reflexivity|].
    exists []. rewrite app_nil_r. split; [reflexivity|constructor].
  - cbn [rootRows] in H.
    apply bind_inv in H as (kbs & b1 & _ & H).
    apply bind_inv in H as (hbs & b2 & _ & H).
    destruct (slots !! i) as [entry|]; [|discriminate].
    destruct (idx !! slotFileDataID entry) as [hashCheck|] eqn:E.
    + destruct (String.eqb_spec hashCheck (byteArrayToHexString hbs)) as [->|Hne];
        cbn [negb] in H.
      * apply IH in H as (Hsub & pushed & -> & Hall).
        rewrite insert_id in Hsub by exact E.
        split; [exact Hsub|].
        eexists (_ :: pushed). rewrite <- app_assoc.
        split; [reflexivity|]. constructor; [|exact Hall].
        cbn [reFileDataID reHash]. eapply lookup_weaken; [exact E|exact Hsub].
      * apply IH in H. exact H.
    + apply IH in H as (Hsub & pushed & -> & Hall).
      split.
      * transitivity (<[slotFileDataID entry := byteArrayToHexString hbs]> idx);
          [apply insert_subseteq; exact E|exact Hsub].
      * eexists (_ :: pushed). rewrite <- app_assoc.
        split; [reflexivity|]. constructor; [|exact Hall].
        cbn [reFileDataID reHash].
        eapply lookup_weaken; [apply lookup_insert_eq|exact Hsub].
Qed.

Lemma rootBlock_index st b st' slots b' :
  rootBlock st b = Ok (st', slots, b') ->
  rootIndex st ⊆ rootIndex st'
  /\ forall e, In (Pushed e) slots ->
               rootIndex st' !! reFileDataID e = Some (reHash e).
Proof.
  unfold rootBlock. intros H.
  apply bind_inv in H as (count & b1 & _ & H).
  apply bind_inv in H as (contentFlag & b2 & _ & H).
  apply bind_inv in H as (localeFlag & b3 & _ & H).
  destruct (localeFlag =? LOCALE_FLAG_None); [discriminate|].
  destruct (contentFlagRejected contentFlag); [discriminate|].
  apply bind_inv in H as (ids & b4 & H4 & H).
  apply bind_inv in H as ([slots5 idx5] & b5 & H5 & H).
  injection H as <- <- _. cbn [fst snd rootIndex].
  apply rootIds_appends in H4 as (fids & ->). cbn [app] in H5.
  apply rootRows_index in H5 as (Hsub & pushed & -> & Hall).
  split; [exact Hsub|]. intros e Hin.
  apply in_app_iff in Hin as [Hin|Hin];
    apply in_map_iff in Hin as (x & Hx & Hin); [discriminate|].
  injection Hx as ->. rewrite Forall_forall in Hall.
  apply Hall, list_elem_of_In, Hin.
Qed.

Lemma rootBlocks_index (fuel : nat) :
  forall st arrays b st' arrays' b',
    rootBlocks fuel st arrays b = Ok (st', arrays', b') ->
    (forall e, pushedIn e arrays ->
               rootIndex st !! reFileDataID e = Some (reHash e)) ->
    forall e, pushedIn e arrays' ->
              rootIndex st' !! reFileDataID e = Some (reHash e).
Proof.
  induction fuel as [|fuel IH]; intros st arrays b st' arrays' b' H Hinv;
    cbn [rootBlocks] in H; unfold bind at 1, getOffset in H;
    unfold bind at 1, getByteLength in H;
    destruct (offset b <? byteLength b); try discriminate;
    try (injection H as <- <- _; exact Hinv).
  apply bind_inv in H as ([st1 slots1] & b1 & H1 & H). cbn [fst snd] in H.
  apply rootBlock_index in H1 as [Hsub Hnew].
  eapply IH; [exact H|].
  intros e (slots & Hin & He).
  apply in_app_iff in Hin as [Hin|[<-|[]]].
  - eapply lookup_weaken; [|exact Hsub]. apply Hinv. exists slots. auto.
  - apply Hnew, He.
Qed.

(** X2. Whatever the buffer, a parse that succeeds never pushes two
    entries with the same FileDataID and different hashes, within a block
    or across blocks. *)
Theorem parseRootFile_one_hash_per_id
    (root : list byte) (arrays : list (list RootSlot)) (e1 e2 : RootEntry) :
  parseRootFile_blocks root = Ok arrays ->
  pushedIn e1 arrays -> pushedIn e2 arrays ->
  reFileDataID e1 = reFileDataID e2 ->
  reHash e1 = reHash e2.
Proof.
  unfold parseRootFile_blocks, run.
  destruct (parseRoot _) as [[[r arrays0] b']|e] eqn:E; [|discriminate].
  intros [= <-] H1 H2 Hid. unfold parseRoot in E.
  apply bind_inv in E as (u & b1 & _ & E).
  apply bind_inv in E as (fuel & b2 & _ & E).
  apply bind_inv in E as ([st' arrays'] & b3 & E & E').
  injection E' as _ <- _. cbn [snd] in *.
  pose proof (rootBlocks_index _ _ _ _ _ _ _ E) as Hall.
  assert (Hinit : forall e, pushedIn e [] ->
            rootIndex (mkRootState [] ∅ 0) !! reFileDataID e = Some (reHash e))
    by (intros e (slots & [] & _)).
  pose proof (Hall Hinit e1 H1) as L1.
  pose proof (Hall Hinit e2 H2) as L2.
  rewrite Hid in L1. congruence.
Qed.

Lemma parseRootFile_one_hash_per_id_witness :
  reHash (rowEntry 1 100 (mkRootRow 100 (replicate 16 x01) (replicate 8 x07)))
  = reHash (rowEntry 2 100 (mkRootRow 100 (replicate 16 x03) (replicate 8 x07))).
Proof.
  apply (parseRootFile_one_hash_per_id
           (concat (map encodeRootBlock twoBlocks))
           [[Pending 1 100;
             Pushed (rowEntry 1 100
                       (mkRootRow 100 (replicate 16 x01) (replicate 8 x07)))];
            [Pending 2 100; Pending 2 104;
             Pushed (rowEntry 2 100
                       (mkRootRow 100 (replicate 16 x03) (replicate 8 x07)));
             Pushed (rowEntry 2 104
                       (mkRootRow 3 (replicate 16 x04) (replicate 8 x09)))]]).
  - vm_compute. reflexivity.
  - eexists. split; [left; reflexivity|right; left; reflexivity].
  - eexists. split; [right; left; reflexivity|].
    right; right; left; reflexivity.
  - reflexivity.
Defined.

(** ** parseRootFile: the dedup rule on the arrays of the blocks *)

Lemma rootRows_accept (rows : list RootRow) :
  forall (fids : list Z) (pre post : list RootSlot) idx b rest typeIndex,
    Forall RootRow_wf rows ->
    length fids = length rows ->
    cursorAt b (concat (map (fun r => rrKey r ++ rrHash r) rows) ++ rest) ->
    exists b',
      rootRows (length rows) (length pre)
        (pre ++ map (Pending typeIndex) fids ++ post) idx b
      = Ok ((pre ++ map (Pending typeIndex) fids ++ post
               ++ map Pushed (fst (acceptRows typeIndex fids rows idx)),
             snd (acceptRows typeIndex fids rows idx)), b')
      /\ cursorAt b' rest.
Proof.
  induction rows as [|r rows IH];
    intros fids pre post idx b rest typeIndex Hwf Hlen Hat.
  - exists b. destruct fids; [|discriminate].
    cbn [length rootRows map acceptRows fst snd]. rewrite app_nil_r.
    split; [reflexivity|exact Hat].
  - destruct fids as [|f fids]; [discriminate|].
    apply Forall_cons in Hwf as [(_ & Hk & Hh) Hwf].
    injection Hlen as Hlen.
    cbn [map concat] in Hat. rewrite <- !app_assoc in Hat.
    destruct (readUInt8_at _ _ _ Hat) as [R1 Hat1]. rewrite Hk in R1, Hat1.
    destruct (readUInt8_at _ _ _ Hat1) as [R2 Hat2]. rewrite Hh in R2, Hat2.
    cbn [length rootRows map acceptRows].
    rewrite (bind_Ok _ _ _ _ _ R1), (bind_Ok _ _ _ _ _ R2).
    change ((Pending typeIndex f :: map (Pending typeIndex) fids) ++ post)
      with (Pending typeIndex f :: (map (Pending typeIndex) fids ++ post)).
    rewrite (list_lookup_middle pre _ (Pending typeIndex f) (length pre) eq_refl).
    cbn [slotFileDataID slotRootType].
    assert (Hpre : S (length pre) = length (pre ++ [Pending typeIndex f]))
      by (rewrite length_app; cbn; lia).
    assert (Hskip :
      (match idx !! f with
       | Some hashCheck =>
           negb (String.eqb hashCheck (byteArrayToHexString (rrHash r)))
       | None => false
       end) = negb (bool_decide (idx !! f = None
                       \/ idx !! f = Some (byteArrayToHexString (rrHash r))))).
    { destruct (idx !! f) as [hc|].
      - destruct (String.eqb_spec hc (byteArrayToHexString (rrHash r))) as [->|Hne].
        + rewrite bool_decide_eq_true_2 by (right; reflexivity). reflexivity.
        + rewrite bool_decide_eq_false_2; [reflexivity|].
          intros [?|[= ?]]; [discriminate|contradiction].
      - rewrite bool_decide_eq_true_2 by (left; reflexivity). reflexivity. }
    rewrite Hskip. clear Hskip.
    destruct (decide (idx !! f = None
                \/ idx !! f = Some (byteArrayToHexString (rrHash r)))) as [Hacc|Hrej].
    + rewrite bool_decide_eq_true_2 by exact Hacc. cbn [negb fst snd].
      destruct (IH fids (pre ++ [Pending typeIndex f])
                  (post ++ [Pushed (rowEntry typeIndex f r)])
                  (<[f := byteArrayToHexString (rrHash r)]> idx) _ rest
                  typeIndex Hwf Hlen Hat2) as (b' & R3 & Hat3).
      exists b'. split; [|exact Hat3].
      rewrite <- Hpre, <- !app_assoc in R3. cbn [app] in R3.
      rewrite <- !app_assoc. cbn [app map]. rewrite <- !app_assoc.
      exact R3.
    + rewrite bool_decide_eq_false_2 by exact Hrej. cbn [negb].
      destruct (IH fids (pre ++ [Pending typeIndex f]) post idx _ rest
                  typeIndex Hwf Hlen Hat2) as (b' & R3 & Hat3).
      exists b'. split; [|exact Hat3].
      rewrite <- Hpre, <- !app_assoc in R3. cbn [app] in R3.
      cbn [app]. exact R3.
Qed.

Lemma rootBlock_accept (blk : RootBlock) (st : RootState) b rest :
  RootBlock_wf blk ->
  cursorAt b (encodeRootBlock blk ++ rest) ->
  let acc :=
    acceptRows (typeIndex st + 1) (blockIds blk) (rbRows blk) (rootIndex st) in
  exists b',
    rootBlock st b
    = Ok (mkRootState
            (arraySet (types st) (Z.to_nat (typeIndex st + 1)) (blockFlags blk))
            (snd acc) (typeIndex st + 1),
          map (Pending (typeIndex st + 1)) (blockIds blk) ++ map Pushed (fst acc),
          b')
    /\ cursorAt b' rest.
Proof.
  intros (Hcf & Hlf & Hlf0 & Hn & Hrows) Hat acc.
  unfold encodeRootBlock in Hat. rewrite <- !app_assoc in Hat.
  destruct (readInt32_at ENDIAN_LITTLE _ _ _ (length_le32 _) Hat) as [R1 Hat1].
  rewrite intOf_le32 in R1 by (unfold int32; lia).
  destruct (readUInt32_at ENDIAN_LITTLE _ _ _ (length_le32 _) Hat1) as [R2 Hat2].
  rewrite uintOf_le32 in R2 by exact Hcf.
  destruct (readUInt32_at ENDIAN_LITTLE _ _ _ (length_le32 _) Hat2) as [R3 Hat3].
  rewrite uintOf_le32 in R3 by exact Hlf.
  rewrite <- (map_map rrDelta le32 (rbRows blk)) in Hat3.
  assert (Hd : Forall int32 (map rrDelta (rbRows blk))).
  { apply Forall_map. eapply Forall_impl; [exact Hrows|].
    intros r (Hr & _). exact Hr. }
  destruct (rootIds_encoded _ (typeIndex st + 1) 0 [] _ _ Hd Hat3)
    as (b4 & R4 & Hat4).
  rewrite length_map in R4. cbn [app] in R4. fold (blockIds blk) in R4.
  assert (Hlen : length (blockIds blk) = length (rbRows blk))
    by (unfold blockIds; rewrite length_decodeIds, length_map; reflexivity).
  destruct (rootRows_accept (rbRows blk) (blockIds blk) [] [] (rootIndex st)
              b4 rest (typeIndex st + 1) Hrows Hlen Hat4) as (b5 & R5 & Hat5).
  cbn [app length] in R5. rewrite app_nil_r in R5.
  exists b5. split; [|exact Hat5].
  unfold rootBlock, defaultEndian.
  rewrite (bind_Ok _ _ _ _ _ R1), (bind_Ok _ _ _ _ _ R2),
    (bind_Ok _ _ _ _ _ R3).
  destruct (Z.eqb_spec (rbLocaleFlag blk) LOCALE_FLAG_None) as [E|_];
    [contradiction|].
  rewrite contentFlagRejected_never, Nat2Z.id.
  rewrite (bind_Ok _ _ _ _ _ R4), (bind_Ok _ _ _ _ _ R5).
  reflexivity.
Qed.

(** Reading a run of well-formed blocks takes one turn of the loop per
    block and leaves the loop in front of what follows them. *)
Lemma rootBlocks_prefix (blks : list RootBlock) :
  forall fuel done idx arrays b rest,
    Forall RootBlock_wf blks ->
    cursorAt b (concat (map encodeRootBlock blks) ++ rest) ->
    exists idx' b',
      rootBlocks (length blks + fuel)
        (mkRootState (typesOf done) idx (Z.of_nat (length done))) arrays b
      = rootBlocks fuel
          (mkRootState (typesOf (done ++ map blockFlags blks)) idx'
             (Z.of_nat (length done + length blks)))
          (arrays ++ acceptBlocks (Z.of_nat (length done) + 1) blks idx) b'
      /\ cursorAt b' rest.
Proof.
  induction blks as [|blk blks IH]; intros fuel done idx arrays b rest Hwf Hat.
  - exists idx, b. cbn [length Nat.add map acceptBlocks].
    rewrite !app_nil_r, Nat.add_0_r. split; [reflexivity|exact Hat].
  - apply Forall_cons in Hwf as [Hblk Hwf].
    cbn [map concat] in Hat. rewrite <- app_assoc in Hat.
    pose proof (cursorAt_bounds _ _ Hat) as [_ Hend].
    rewrite length_app in Hend. pose proof (length_encodeRootBlock blk) as H12.
    destruct (rootBlock_accept blk
                (mkRootState (typesOf done) idx (Z.of_nat (length done)))
                b _ Hblk Hat) as (b1 & R1 & Hat1).
    cbn [types typeIndex rootIndex] in R1.
    replace (Z.to_nat (Z.of_nat (length done) + 1)) with (S (length done))
      in R1 by lia.
    rewrite arraySet_typesOf in R1.
    destruct (IH fuel (done ++ [blockFlags blk])
                (snd (acceptRows (Z.of_nat (length done) + 1) (blockIds blk)
                        (rbRows blk) idx))
                (arrays ++ [map (Pending (Z.of_nat (length done) + 1))
                              (blockIds blk)
                            ++ map Pushed
                                 (fst (acceptRows (Z.of_nat (length done) + 1)
                                         (blockIds blk) (rbRows blk) idx))])
                b1 rest Hwf Hat1) as (idx' & b' & R2 & Hat2).
    exists idx', b'. split; [|exact Hat2].
    cbn [length Nat.add rootBlocks]. unfold bind at 1, getOffset.
    unfold bind at 1, getByteLength.
    destruct (Z.ltb_spec (offset b) (byteLength b)); [|lia].
    rewrite (bind_Ok _ _ _ _ _ R1). cbn [fst snd].
    rewrite length_app in R2. cbn [length] in R2.
    replace (Z.of_nat (length done + 1)) with (Z.of_nat (length done) + 1)
      in R2 by lia.
    rewrite R2. cbn [map acceptBlocks].
    rewrite <- !app_assoc. cbn [app].
    replace (length done + 1 + length blks)%nat
      with (length done + S (length blks))%nat by lia.
    reflexivity.
Qed.

Lemma rootBlocks_at_end (fuel : nat) st arrays b :
  cursorAt b [] -> rootBlocks fuel st arrays b = Ok (st, arrays, b).
Proof.
  intros Hat. pose proof (cursorAt_bounds _ _ Hat) as [_ Hend].
  cbn [length] in Hend.
  destruct fuel; cbn [rootBlocks]; unfold bind, getOffset, getByteLength;
    (destruct (Z.ltb_spec (offset b) (byteLength b)); [lia|reflexivity]).
Qed.

(** The whole parse of a root buffer made of well-formed blocks. *)
Lemma parseRoot_encoded (blks : list RootBlock) :
  Forall RootBlock_wf blks ->
  blks <> [] ->
  run parseRoot (concat (map encodeRootBlock blks))
  = Ok (mkRootResult [] (typesOf (map blockFlags blks)),
        acceptBlocks 1 blks ∅).
Proof.
  intros Hwf Hne. set (root := concat (map encodeRootBlock blks)).
  pose proof (length_encoded_blocks blks) as Hfuel. fold root in Hfuel.
  pose proof (encoded_blocks_nonempty blks Hne) as Hpos. fold root in Hpos.
  destruct (rootBlocks_prefix blks (length root - length blks) [] ∅ []
              (mkBufo root 0) [] Hwf) as (idx' & b' & R & Hat).
  { exists []. rewrite app_nil_r. split; reflexivity. }
  replace (length blks + (length root - length blks))%nat with (length root)
    in R by lia.
  rewrite (rootBlocks_at_end _ _ _ b' Hat) in R.
  unfold run, parseRoot.
  erewrite bind_Ok; cycle 1.
  { apply seek_front. unfold byteLength. cbn [buffer]. lia. }
  unfold getFuel. unfold bind at 1. cbn [buffer].
  change (typesOf []) with (@nil (option TypePair)) in R.
  cbn [length app] in R. change (Z.of_nat 0) with 0 in R.
  rewrite (bind_Ok _ _ _ _ _ R). reflexivity.
Qed.

(** X3. On a root buffer made of well-formed blocks, one at least, the
    arrays of the blocks are exactly what the dedup rule gives, block after block: per
    position one pending slot with the decoded id, then the entries of the
    positions whose id was unseen or seen with the same hash, the map being
    handed from each block to the next. *)
Theorem parseRootFile_blocks_dedup (blks : list RootBlock) :
  Forall RootBlock_wf blks ->
  blks <> [] ->
  parseRootFile_blocks (concat (map encodeRootBlock blks))
  = Ok (acceptBlocks 1 blks ∅).
Proof.
  intros Hwf Hne. unfold parseRootFile_blocks.
  rewrite (parseRoot_encoded blks Hwf Hne). reflexivity.
Qed.

Lemma parseRootFile_blocks_dedup_witness :
  parseRootFile_blocks (concat (map encodeRootBlock twoBlocks))
  = Ok (acceptBlocks 1 twoBlocks ∅).
Proof.
  exact (parseRootFile_blocks_dedup twoBlocks twoBlocks_wf ltac:(discriminate)).
Defined.

(** ** parseRootFile: ids of a block with non-negative deltas *)

Lemma decodeIds_increasing (deltas : list Z) :
  forall runningIndex,
    Forall (fun d => 0 <= d) deltas ->
    StronglySorted Z.lt (decodeIds runningIndex deltas)
    /\ Forall (fun id => runningIndex <= id) (decodeIds runningIndex deltas).
Proof.
  induction deltas as [|d ds IH]; intros runningIndex Hd.
  - split; constructor.
  - apply Forall_cons in Hd as [Hd Hds].
    destruct (IH (runningIndex + d + 1) Hds) as [Hs Hge].
    cbn [decodeIds]. split.
    + constructor; [exact Hs|].
      eapply Forall_impl; [exact Hge|]. cbn. intros x Hx. lia.
    + constructor; [lia|].
      eapply Forall_impl; [exact Hge|]. cbn. intros x Hx. lia.
Qed.

Lemma StronglySorted_lt_NoDup (l : list Z) : StronglySorted Z.lt l -> NoDup l.
Proof.
  induction 1 as [|x l Hs IH Hall]; constructor; [|exact IH].
  intros Hin. rewrite Forall_forall in Hall. specialize (Hall x Hin). lia.
Qed.

(** Fresh, distinct ids are all accepted. *)
Lemma acceptRows_fresh (typeIndex : Z) (rows : list RootRow) :
  forall fids seen,
    length fids = length rows ->
    NoDup fids ->
    (forall f, f ∈ fids -> seen !! f = None) ->
    fst (acceptRows typeIndex fids rows seen)
    = zip_with (rowEntry typeIndex) fids rows.
Proof.
  induction rows as [|r rows IH]; intros fids seen Hlen Hnd Hfresh.
  - destruct fids; reflexivity.
  - destruct fids as [|f fids]; [discriminate|].
    injection Hlen as Hlen. apply NoDup_cons in Hnd as [Hf Hnd].
    cbn [acceptRows zip_with].
    destruct (decide (seen !! f = None
                \/ seen !! f = Some (byteArrayToHexString (rrHash r)))) as [_|Hrej].
    + cbn [fst]. f_equal. apply IH; [exact Hlen|exact Hnd|].
      intros f' Hf'. rewrite lookup_insert_ne.
      * apply Hfresh. right. exact Hf'.
      * intros ->. contradiction.
    + exfalso. apply Hrej. left. apply Hfresh. left.
Qed.

(** X4. In a block whose deltas are all non-negative the decoded
    FileDataIDs increase strictly from position to position, none is
    negative, and when the block is the only one of the buffer no position
    is dropped: the block's array holds one entry per position, in
    order. *)
Theorem parseRootFile_increasing_ids (blk : RootBlock) :
  RootBlock_wf blk ->
  Forall (fun r => 0 <= rrDelta r) (rbRows blk) ->
  StronglySorted Z.lt (blockIds blk)
  /\ Forall (fun id => 0 <= id) (blockIds blk)
  /\ parseRootFile_blocks (encodeRootBlock blk)
     = Ok [map (Pending 1) (blockIds blk)
           ++ map Pushed (zip_with (rowEntry 1) (blockIds blk) (rbRows blk))].
Proof.
  intros Hwf Hpos.
  destruct (decodeIds_increasing (map rrDelta (rbRows blk)) 0) as [Hs Hge].
  { apply Forall_map. exact Hpos. }
  fold (blockIds blk) in Hs, Hge.
  split; [exact Hs|]. split; [exact Hge|].
  pose proof (parseRoot_encoded [blk] ltac:(constructor; [exact Hwf|constructor])
                ltac:(discriminate))
    as R.
  cbn [map concat] in R. rewrite app_nil_r in R.
  unfold parseRootFile_blocks. rewrite R. cbn [snd acceptBlocks].
  rewrite acceptRows_fresh; [reflexivity| | |].
  - unfold blockIds. rewrite length_decodeIds, length_map. reflexivity.
  - apply StronglySorted_lt_NoDup, Hs.
  - intros f _. apply lookup_empty.
Qed.

Lemma parseRootFile_increasing_ids_witness :
  StronglySorted Z.lt (blockIds deltaBlock)
  /\ Forall (fun id => 0 <= id) (blockIds deltaBlock)
  /\ parseRootFile_blocks (encodeRootBlock deltaBlock)
     = Ok [map (Pending 1) (blockIds deltaBlock)
           ++ map Pushed
                (zip_with (rowEntry 1) (blockIds deltaBlock) (rbRows deltaBlock))].
Proof.
  apply (parseRootFile_increasing_ids deltaBlock deltaBlock_wf).
  repeat constructor; cbn [rrDelta]; lia.
Defined.

(** ** parseRootFile: a block without a locale *)

(** X5. A block whose locale flag is 0 ends the parse with
    [InvalidRootBlock], whatever its entry count and content flag, wherever
    it stands behind well-formed blocks and whatever follows it: nothing of
    the blocks read before it is returned. *)
Theorem parseRootFile_no_locale
    (blks : list RootBlock) (countBytes flagBytes rest : list byte) :
  Forall RootBlock_wf blks ->
  length countBytes = 4%nat ->
  length flagBytes = 4%nat ->
  parseRootFile
    (concat (map encodeRootBlock blks)
       ++ countBytes ++ flagBytes ++ le32 0 ++ rest)
  = Err InvalidRootBlock.
Proof.
  intros Hwf Hc Hf.
  set (tail := countBytes ++ flagBytes ++ le32 0 ++ rest).
  set (root := concat (map encodeRootBlock blks) ++ tail).
  assert (Hlen : (length blks + 12 <= length root)%nat).
  { subst root tail. rewrite !length_app, Hc, Hf, length_le32.
    pose proof (length_encoded_blocks blks). lia. }
  destruct (rootBlocks_prefix blks (length root - length blks) [] ∅ []
              (mkBufo root 0) tail Hwf) as (idx' & b' & R & Hat).
  { exists []. split; reflexivity. }
  replace (length blks + (length root - length blks))%nat with (length root)
    in R by lia.
  unfold parseRootFile, run, parseRoot.
  erewrite bind_Ok; cycle 1.
  { apply seek_front. unfold byteLength. cbn [buffer]. lia. }
  unfold getFuel. unfold bind at 1. cbn [buffer].
  change (typesOf []) with (@nil (option TypePair)) in R.
  cbn [length app] in R. change (Z.of_nat 0) with 0 in R.
  erewrite bind_Err; [reflexivity|]. rewrite R. clear R.
  destruct (length root - length blks)%nat as [|fuel] eqn:Efuel; [lia|].
  pose proof (cursorAt_bounds _ _ Hat) as [_ Hend].
  subst tail. rewrite !length_app, Hc in Hend.
  cbn [rootBlocks]. unfold bind at 1, getOffset.
  unfold bind at 1, getByteLength.
  destruct (Z.ltb_spec (offset b') (byteLength b')); [|lia].
  erewrite bind_Err; [reflexivity|].
  destruct (readInt32_at ENDIAN_LITTLE _ _ _ Hc Hat) as [R1 Hat1].
  destruct (readUInt32_at ENDIAN_LITTLE _ _ _ Hf Hat1) as [R2 Hat2].
  destruct (readUInt32_at ENDIAN_LITTLE _ _ _ (length_le32 0) Hat2) as [R3 _].
  unfold rootBlock, defaultEndian.
  rewrite (bind_Ok _ _ _ _ _ R1), (bind_Ok _ _ _ _ _ R2),
    (bind_Ok _ _ _ _ _ R3).
  reflexivity.
Qed.

Lemma parseRootFile_no_locale_witness :
  parseRootFile
    (concat (map encodeRootBlock twoBlocks)
       ++ le32 1 ++ le32 8 ++ le32 0 ++ replicate 28 x00)
  = Err InvalidRootBlock.
Proof.
  exact (parseRootFile_no_locale twoBlocks (le32 1) (le32 8) (replicate 28 x00)
           twoBlocks_wf eq_refl eq_refl).
Defined.

(** ** parseEncodingFile: what every entry has *)

Lemma uintLE_range (bs : list byte) :
  0 <= uintLE bs < 256 ^ Z.of_nat (length bs).
Proof.
  induction bs as [|b bs IH].
  - cbn. lia.
  - cbn [uintLE length]. pose proof (byteVal_range b).
    rewrite Nat2Z.inj_succ, Z.pow_succ_r by lia. lia.
Qed.

Lemma uintOf_range (e : endian) (bs : list byte) :
  0 <= uintOf e bs < 256 ^ Z.of_nat (length bs).
Proof.
  destruct e; cbn [uintOf]; [apply uintLE_range|].
  rewrite <- length_rev. apply uintLE_range.
Qed.

Lemma readUInt32_range e b v b' :
  readUInt32 e b = Ok (v, b') -> uint32 v.
Proof.
  unfold readUInt32. intros H. apply bind_inv in H as (bs & b1 & H1 & H).
  injection H as <- _.
  unfold readUInt8 in H1. destruct (_ && _); [|discriminate].
  injection H1 as <- _.
  pose proof (uintOf_range e (take 4 (drop (Z.to_nat (offset b)) (buffer b)))) as Hr.
  pose proof (length_take_le (drop (Z.to_nat (offset b)) (buffer b)) 4).
  pose proof (length_take (drop (Z.to_nat (offset b)) (buffer b)) 4) as Hl.
  assert (256 ^ Z.of_nat (length (take 4 (drop (Z.to_nat (offset b)) (buffer b))))
          <= 256 ^ 4) by (apply Z.pow_le_mono_r; lia).
  unfold uint32. change (2 ^ 32) with (256 ^ 4). lia.
Qed.

Lemma readUInt16_nonneg e b v b' :
  readUInt16 e b = Ok (v, b') -> 0 <= v.
Proof.
  unfold readUInt16. intros H. apply bind_inv in H as (bs & b1 & _ & H).
  injection H as <- _. apply uintOf_range.
Qed.

Lemma encodingKeys_defined (n : nat) :
  forall j entryKey b r b',
    encodingKeys n j entryKey b = Ok (r, b') ->
    (n <> 0%nat /\ j = 0) \/ is_Some entryKey ->
    is_Some r.
Proof.
  induction n as [|n IH]; intros j entryKey b r b' H Hor.
  - injection H as <- _. destruct Hor as [[? _]|?]; [contradiction|assumption].
  - cbn [encodingKeys] in H. apply bind_inv in H as (bs & b1 & _ & H).
    eapply IH; [exact H|]. right.
    destruct Hor as [[_ ->]|Hs]; [eexists; reflexivity|].
    destruct (j =? 0); [eexists; reflexivity|exact Hs].
Qed.

Lemma encodingGroup_ok keysCount b e b' :
  0 < keysCount ->
  encodingGroup keysCount b = Ok (e, b') -> EncodingEntry_ok e.
Proof.
  intros Hk H. unfold encodingGroup in H.
  apply bind_inv in H as (fileSize & b1 & H1 & H).
  apply bind_inv in H as (bs & b2 & _ & H).
  apply bind_inv in H as (entryKey & b3 & H3 & H).
  injection H as <- _. split; cbn [eeKey eeSize].
  - eapply encodingKeys_defined; [exact H3|]. left. split; [lia|reflexivity].
  - eapply readUInt32_range, H1.
Qed.

Lemma encodingGroups_ok (fuel : nat) :
  forall keysCount entries b entries' b',
    0 <= keysCount ->
    Forall EncodingEntry_ok entries ->
    encodingGroups fuel keysCount entries b = Ok (entries', b') ->
    Forall EncodingEntry_ok entries'.
Proof.
  induction fuel as [|fuel IH]; intros keysCount entries b entries' b' Hk Hok H;
    cbn [encodingGroups] in H; destruct (Z.eqb_spec keysCount 0);
    try discriminate; try (injection H as <- _; exact Hok).
  apply bind_inv in H as (e & b1 & H1 & H).
  apply bind_inv in H as (k' & b2 & H2 & H).
  eapply IH; [|  |exact H].
  - eapply readUInt16_nonneg, H2.
  - apply Forall_app. split; [exact Hok|].
    constructor; [|constructor]. eapply encodingGroup_ok; [|exact H1]. lia.
Qed.

Lemma encodingChunks_ok (n : nat) :
  forall chunkStart entries b entries' b',
    Forall EncodingEntry_ok entries ->
    encodingChunks n chunkStart entries b = Ok (entries', b') ->
    Forall EncodingEntry_ok entries'.
Proof.
  induction n as [|n IH]; intros chunkStart entries b entries' b' Hok H.
  - injection H as <- _. exact Hok.
  - cbn [encodingChunks] in H. apply bind_inv in H as (es & b1 & H1 & H).
    eapply IH; [|exact H]. unfold encodingChunk in H1.
    apply bind_inv in H1 as (fuel & b2 & _ & H1).
    apply bind_inv in H1 as (k & b3 & Hk & H1).
    apply bind_inv in H1 as (es' & b4 & Hg & H1).
    apply bind_inv in H1 as (u & b5 & _ & H1).
    injection H1 as <- _.
    eapply encodingGroups_ok; [|exact Hok|exact Hg].
    eapply readUInt16_nonneg, Hk.
Qed.

(** X6. Whatever the buffer, every entry of an encoding table that parses
    has a key (the variable [entryKey] is never left undefined, since a
    group is only read for a non-zero key-count) and a size in
    [0, 2^32). *)
Theorem parseEncodingFile_entries_ok
    (encoding : list byte) (entries : list EncodingEntry) :
  parseEncodingFile encoding = Ok entries ->
  Forall EncodingEntry_ok entries.
Proof.
  unfold parseEncodingFile, run.
  destruct (parseEncoding _) as [[es b']|e] eqn:E; [|discriminate].
  intros [= <-]. unfold parseEncoding in E.
  apply bind_inv in E as (u1 & b1 & _ & E).
  apply bind_inv in E as (numEntriesA & b2 & _ & E).
  apply bind_inv in E as (u2 & b3 & _ & E).
  apply bind_inv in E as (stringBlockSize & b4 & _ & E).
  apply bind_inv in E as (u3 & b5 & _ & E).
  apply bind_inv in E as (u4 & b6 & _ & E).
  apply bind_inv in E as (chunkStart & b7 & _ & E).
  eapply encodingChunks_ok; [|exact E]. constructor.
Qed.

(** ** parseEncodingFile: a whole file *)

Lemma toSigned_small (v : Z) : 0 <= v < 2 ^ 31 -> toSigned 32 v = v.
Proof.
  intros Hv. unfold toSigned. change (32 - 1) with 31.
  destruct (Z.ltb_spec v (2 ^ 31)); [reflexivity|lia].
Qed.

Lemma length_le16 (v : Z) : length (le16 v) = 2%nat.
Proof. reflexivity. Qed.

Lemma cursorAt_advance b bs rest :
  cursorAt b (bs ++ rest) -> cursorAt (advance b (Z.of_nat (length bs))) rest.
Proof.
  intros (pre & Hb & Ho). exists (pre ++ bs).
  cbn [advance buffer offset]. split.
  - rewrite Hb, <- app_assoc. reflexivity.
  - rewrite length_app. lia.
Qed.

(** Moving over the bytes the cursor stands in front of, to a byte of the
    buffer. *)
Lemma move_at b bs rest :
  cursorAt b (bs ++ rest) ->
  rest <> [] ->
  move (Z.of_nat (length bs)) b = Ok (tt, advance b (Z.of_nat (length bs)))
  /\ cursorAt (advance b (Z.of_nat (length bs))) rest.
Proof.
  intros Hat Hrest. pose proof (cursorAt_bounds _ _ Hat) as [H0 Hlen].
  rewrite length_app in Hlen.
  assert (0 < length rest)%nat by (destruct rest; [contradiction|cbn; lia]).
  split; [apply move_Ok; lia|]. apply cursorAt_advance, Hat.
Qed.

Lemma chunkBody_groupsTail (gs : list EncodingGroup) :
  concat (map encodeGroup gs) ++ le16 0
  = le16 (nextKeysCount gs) ++ groupsTail gs.
Proof.
  induction gs as [|g gs IH]; [reflexivity|].
  cbn [map concat groupsTail nextKeysCount]. unfold encodeGroup at 1.
  rewrite <- !app_assoc, IH. reflexivity.
Qed.

Lemma encodingGroup_at (g : EncodingGroup) b rest :
  EncodingGroup_wf g ->
  cursorAt b (groupBody g ++ rest) ->
  encodingGroup (Z.of_nat (length (egKeys g))) b
  = Ok (groupEntry g, advance b (Z.of_nat (length (groupBody g))))
  /\ cursorAt (advance b (Z.of_nat (length (groupBody g)))) rest.
Proof.
  intros (Hsize & Hhash & Hkeys & Hn) Hat.
  destruct (egKeys g) as [|key keys] eqn:Ek; [cbn in Hn; lia|].
  unfold groupBody in *. rewrite Ek in *. rewrite <- !app_assoc in Hat.
  destruct (readUInt32_at ENDIAN_BIG _ _ _ (length_be32 _) Hat) as [R1 Hat1].
  rewrite uintOf_be32 in R1 by exact Hsize.
  destruct (readUInt8_at _ _ _ Hat1) as [R2 Hat2]. rewrite Hhash in R2, Hat2.
  destruct (encodingKeys_first key keys None _ rest Hkeys Hat2) as [R3 Hat3].
  rewrite !advance_advance in Hat3.
  assert (Hlen : Z.of_nat (length (be32 (egSize g) ++ egHash g
                                     ++ concat (key :: keys)))
                 = 4 + (Z.of_nat 16 + 16 * Z.of_nat (length (key :: keys)))).
  { rewrite !length_app, length_be32, Hhash.
    assert (length (concat (key :: keys)) = (16 * length (key :: keys))%nat).
    { clear -Hkeys. induction Hkeys as [|k ks Hk _ IH]; [reflexivity|].
      cbn [concat length]. rewrite length_app, Hk, IH. cbn [length]. lia. }
    lia. }
  rewrite Hlen. split; [|exact Hat3].
  unfold encodingGroup.
  rewrite (bind_Ok _ _ _ _ _ R1), (bind_Ok _ _ _ _ _ R2).
  rewrite Nat2Z.id, (bind_Ok _ _ _ _ _ R3).
  rewrite !advance_advance. unfold groupEntry. rewrite Ek. reflexivity.
Qed.

Lemma encodingGroups_at (gs : list EncodingGroup) :
  forall fuel entries b rest,
    Forall EncodingGroup_wf gs ->
    (length gs <= fuel)%nat ->
    cursorAt b (groupsTail gs ++ rest) ->
    encodingGroups fuel (nextKeysCount gs) entries b
    = Ok (entries ++ map groupEntry gs,
          advance b (Z.of_nat (length (groupsTail gs))))
    /\ cursorAt (advance b (Z.of_nat (length (groupsTail gs)))) rest.
Proof.
  induction gs as [|g gs IH]; intros fuel entries b rest Hwf Hfuel Hat.
  - cbn [groupsTail length nextKeysCount map]. rewrite app_nil_r.
    assert (advance b (Z.of_nat 0) = b) as ->
      by (destruct b; unfold advance; cbn; f_equal; lia).
    split; [destruct fuel; reflexivity|exact Hat].
  - destruct fuel as [|fuel]; [cbn [length] in Hfuel; lia|].
    apply Forall_cons in Hwf as [Hg Hwf].
    cbn [groupsTail] in Hat. rewrite <- !app_assoc in Hat.
    destruct (encodingGroup_at g b _ Hg Hat) as [R1 Hat1].
    destruct (readUInt16_at ENDIAN_LITTLE _ _ _ (length_le16 _) Hat1)
      as [R2 Hat2].
    rewrite uintOf_le16 in R2.
    2:{ destruct gs as [|g' gs']; cbn [nextKeysCount]; [lia|].
        apply Forall_cons in Hwf as [(_ & _ & _ & Hn) _]. lia. }
    destruct (IH fuel (entries ++ [groupEntry g]) _ rest Hwf
                ltac:(cbn [length] in Hfuel; lia) Hat2) as [R3 Hat3].
    rewrite !advance_advance in R3, Hat3.
    assert (Hlen : Z.of_nat (length (groupsTail (g :: gs)))
                   = Z.of_nat (length (groupBody g))
                     + (2 + Z.of_nat (length (groupsTail gs)))).
    { cbn [groupsTail]. rewrite !length_app, length_le16. lia. }
    rewrite Hlen. split; [|exact Hat3].
    cbn [encodingGroups nextKeysCount].
    destruct Hg as (_ & _ & _ & Hn).
    destruct (Z.eqb_spec (Z.of_nat (length (egKeys g))) 0); [lia|].
    rewrite (bind_Ok _ _ _ _ _ R1). unfold defaultEndian.
    rewrite (bind_Ok _ _ _ _ _ R2), advance_advance, R3.
    cbn [map]. rewrite <- app_assoc, Z.add_assoc. reflexivity.
Qed.

Lemma length_groupsTail_le (gs : list EncodingGroup) :
  (length gs <= length (groupsTail gs))%nat.
Proof.
  induction gs as [|g gs IH]; [reflexivity|].
  cbn [groupsTail length]. rewrite !length_app, length_le16. lia.
Qed.

(** A chunk read from the buffer: its groups, the zero key-count, then
    the move to the boundary, which has to be a byte of the buffer. *)
Lemma encodingChunk_body (gs : list EncodingGroup) chunkStart entries b rest :
  Forall EncodingGroup_wf gs ->
  chunkStart <= offset b ->
  cursorAt b (concat (map encodeGroup gs) ++ le16 0 ++ rest) ->
  let terminatorEnd :=
    offset b + Z.of_nat (length (concat (map encodeGroup gs) ++ le16 0)) in
  terminatorEnd + (4096 - (terminatorEnd - chunkStart) mod 4096)
  < byteLength b ->
  encodingChunk chunkStart entries b
  = Ok (entries ++ map groupEntry gs,
        mkBufo (buffer b)
          (terminatorEnd + (4096 - (terminatorEnd - chunkStart) mod 4096))).
Proof.
  intros Hgs Hcs Hat terminatorEnd Hfit.
  rewrite app_assoc, chunkBody_groupsTail, <- app_assoc in Hat.
  pose proof (cursorAt_bounds _ _ Hat) as [H0 Hend].
  destruct (readUInt16_at ENDIAN_LITTLE _ _ _ (length_le16 _) Hat) as [R1 Hat1].
  rewrite uintOf_le16 in R1.
  2:{ destruct gs as [|g gs']; cbn [nextKeysCount]; [lia|].
      apply Forall_cons in Hgs as [(_ & _ & _ & Hn) _]. lia. }
  destruct (encodingGroups_at gs (length (buffer b)) entries
              (advance b 2) rest Hgs) as [R2 _];
    [|exact Hat1|].
  { pose proof (length_groupsTail_le gs).
    rewrite !length_app in Hend. unfold byteLength in Hend. lia. }
  rewrite advance_advance in R2.
  assert (Hterm : terminatorEnd
                  = offset b + (2 + Z.of_nat (length (groupsTail gs)))).
  { subst terminatorEnd.
    rewrite chunkBody_groupsTail, length_app, length_le16. lia. }
  rewrite Hterm in *. clear Hterm terminatorEnd.
  set (body := 2 + Z.of_nat (length (groupsTail gs))) in *.
  pose proof (Z.mod_pos_bound (offset b + body - chunkStart) 4096 ltac:(lia))
    as Hm.
  unfold encodingChunk, getFuel. unfold bind at 1. unfold defaultEndian.
  rewrite (bind_Ok _ _ _ _ _ R1), (bind_Ok _ _ _ _ _ R2).
  erewrite bind_Ok; [reflexivity|].
  unfold alignChunk, getOffset. unfold bind.
  rewrite offset_advance.
  rewrite Z.rem_mod_nonneg by (subst body; lia).
  destruct (Z.gtb_spec (4096 - (offset b + body - chunkStart) mod 4096) 0);
    [|lia].
  rewrite move_Ok by (rewrite offset_advance, byteLength_advance; subst body; lia).
  reflexivity.
Qed.

(** C4. A chunk is read from the cursor on, at or behind [chunkStart]: its
    groups, then the terminating zero key-count.  From where that
    key-count ends the cursor is moved to the next 4096-byte boundary
    measured from [chunkStart], which is where the next chunk is read: a
    multiple of 4096 from [chunkStart], strictly behind the terminator, a
    whole 4096 bytes further when the terminator itself ends on a
    boundary; the loop over the chunks goes on from there.  The boundary
    has to be a byte of the buffer. *)
Theorem encodingChunk_ends_on_boundary
    (gs : list EncodingGroup) (chunkStart : Z) (entries : list EncodingEntry)
    (b : Bufo) (rest : list byte) :
  let terminatorEnd :=
    offset b + Z.of_nat (length (concat (map encodeGroup gs) ++ le16 0)) in
  let next := chunkStart + 4096 * ((terminatorEnd - chunkStart) / 4096 + 1) in
  Forall EncodingGroup_wf gs ->
  chunkStart <= offset b ->
  cursorAt b (concat (map encodeGroup gs) ++ le16 0 ++ rest) ->
  next < byteLength b ->
  encodingChunk chunkStart entries b
  = Ok (entries ++ map groupEntry gs, mkBufo (buffer b) next)
  /\ (next - chunkStart) mod 4096 = 0
  /\ terminatorEnd < next <= terminatorEnd + 4096
  /\ ((terminatorEnd - chunkStart) mod 4096 = 0 ->
      next = terminatorEnd + 4096)
  /\ (forall n,
        encodingChunks (S n) chunkStart entries b
        = encodingChunks n chunkStart (entries ++ map groupEntry gs)
            (mkBufo (buffer b) next)).
Proof.
  intros terminatorEnd next Hgs Hcs Hat Hfit.
  assert (Hle : chunkStart <= terminatorEnd) by (subst terminatorEnd; lia).
  destruct (next_boundary chunkStart terminatorEnd Hle)
    as (Hnext & Hmod & Hlt & Hon).
  fold next in Hnext. rewrite <- Hnext.
  assert (R : encodingChunk chunkStart entries b
              = Ok (entries ++ map groupEntry gs,
                    mkBufo (buffer b)
                      (terminatorEnd
                       + (4096 - (terminatorEnd - chunkStart) mod 4096)))).
  { apply (encodingChunk_body gs chunkStart entries b rest Hgs Hcs Hat).
    fold terminatorEnd. rewrite Hnext. exact Hfit. }
  split; [exact R|].
  split; [exact Hmod|]. split; [exact Hlt|]. split; [exact Hon|].
  intros n. cbn [encodingChunks]. rewrite (bind_Ok _ _ _ _ _ R). reflexivity.
Qed.

Lemma boundaryGroups_wf : Forall EncodingGroup_wf boundaryGroups.
Proof.
  assert (Hkeys : forall n, Forall keyBytes (replicate n (replicate 16 x00))).
  { intros n. induction n as [|n IH]; [constructor|].
    cbn [replicate]. apply Forall_cons. split; [reflexivity|exact IH]. }
  unfold boundaryGroups. apply Forall_cons. split.
  - split; [unfold uint32; cbn; lia|]. split; [reflexivity|].
    split; [apply Hkeys|]. cbn [egKeys]. rewrite length_replicate. lia.
  - apply Forall_replicate.
    split; [unfold uint32; cbn; lia|]. split; [reflexivity|].
    split; [apply (Hkeys 1%nat)|]. cbn. lia.
Defined.

Lemma encodingChunk_ends_on_boundary_witness :
  encodingChunk 0 [] (mkBufo boundaryChunk 0)
  = Ok (replicate 5 zeroEntry, mkBufo boundaryChunk 8192)
  /\ (8192 - 0) mod 4096 = 0
  /\ 4096 < 8192 <= 4096 + 4096
  /\ ((4096 - 0) mod 4096 = 0 -> 8192 = 4096 + 4096)
  /\ (forall n,
        encodingChunks (S n) 0 [] (mkBufo boundaryChunk 0)
        = encodingChunks n 0 (replicate 5 zeroEntry)
            (mkBufo boundaryChunk 8192)).
Proof.
  exact (encodingChunk_ends_on_boundary boundaryGroups 0 []
           (mkBufo boundaryChunk 0) (replicate 4097 x00)
           boundaryGroups_wf
           ltac:(cbn; lia)
           ltac:(exists []; split; reflexivity)
           ltac:(vm_compute; reflexivity)).
Defined.

Lemma encodingChunk_at (c : EncodingChunk) chunkStart entries b rest :
  EncodingChunk_wf c ->
  chunkStart <= offset b ->
  (offset b - chunkStart) mod 4096 = 0 ->
  cursorAt b (encodeChunk c ++ rest) ->
  rest <> [] ->
  exists b',
    encodingChunk chunkStart entries b
    = Ok (entries ++ map groupEntry (ecGroups c), b')
    /\ cursorAt b' rest
    /\ chunkStart <= offset b'
    /\ (offset b' - chunkStart) mod 4096 = 0.
Proof.
  intros [Hgs Hpad] Hcs Hal Hat Hrest.
  unfold encodeChunk, chunkBody in Hat. unfold chunkBody in Hpad.
  rewrite chunkBody_groupsTail in Hat, Hpad.
  rewrite <- !app_assoc in Hat.
  pose proof (cursorAt_bounds _ _ Hat) as [H0 Hend].
  destruct (readUInt16_at ENDIAN_LITTLE _ _ _ (length_le16 _) Hat) as [R1 Hat1].
  rewrite uintOf_le16 in R1.
  2:{ destruct (ecGroups c) as [|g gs]; cbn [nextKeysCount]; [lia|].
      apply Forall_cons in Hgs as [(_ & _ & _ & Hn) _]. lia. }
  destruct (encodingGroups_at (ecGroups c) (length (buffer b)) entries
              (advance b 2) (ecPad c ++ rest) Hgs) as [R2 Hat2];
    [|exact Hat1|].
  { pose proof (length_groupsTail_le (ecGroups c)).
    rewrite !length_app in Hend. unfold byteLength in Hend. lia. }
  rewrite advance_advance in R2, Hat2.
  set (body := 2 + Z.of_nat (length (groupsTail (ecGroups c)))) in *.
  assert (Hbody : Z.of_nat (length (le16 (nextKeysCount (ecGroups c))
                                      ++ groupsTail (ecGroups c))) = body)
    by (rewrite length_app, length_le16; subst body; lia).
  rewrite Hbody in Hpad.
  assert (Hrem : (offset (advance b body) - chunkStart) mod 4096
                 = body mod 4096).
  { rewrite offset_advance.
    replace (offset b + body - chunkStart)
      with (body + (offset b - chunkStart)) by lia.
    rewrite Z.add_mod, Hal, Z.add_0_r, Z.mod_mod by lia. reflexivity. }
  destruct (move_at _ _ _ Hat2 Hrest) as [R3 Hat3]. rewrite Hpad in R3, Hat3.
  exists (advance (advance b body) (4096 - body mod 4096)).
  pose proof (Z.mod_pos_bound body 4096 ltac:(lia)) as Hm.
  assert (Hbpos : 0 <= body) by (subst body; lia).
  split; [|split; [exact Hat3|]].
  - unfold encodingChunk, getFuel. unfold bind at 1. unfold defaultEndian.
    rewrite (bind_Ok _ _ _ _ _ R1), (bind_Ok _ _ _ _ _ R2).
    erewrite bind_Ok; [reflexivity|].
    unfold alignChunk, getOffset. unfold bind.
    rewrite Z.rem_mod_nonneg by (rewrite ?offset_advance; lia).
    rewrite Hrem.
    destruct (Z.gtb_spec (4096 - body mod 4096) 0); [exact R3|lia].
  - rewrite !offset_advance. split; [lia|].
    replace (offset b + body + (4096 - body mod 4096) - chunkStart)
      with ((offset b - chunkStart) + (body - body mod 4096) + 1 * 4096) by lia.
    rewrite Z.mod_add by lia.
    rewrite Z.add_mod, Hal, Z.add_0_l, Z.mod_mod by lia.
    rewrite (Z.div_mod body 4096) at 1 by lia.
    replace (4096 * (body / 4096) + body mod 4096 - body mod 4096)
      with ((body / 4096) * 4096) by lia.
    apply Z.mod_mul. lia.
Qed.

Lemma encodingChunks_at (cs : list EncodingChunk) :
  forall chunkStart entries b rest,
    Forall EncodingChunk_wf cs ->
    chunkStart <= offset b ->
    (offset b - chunkStart) mod 4096 = 0 ->
    cursorAt b (concat (map encodeChunk cs) ++ rest) ->
    rest <> [] ->
    exists b',
      encodingChunks (length cs) chunkStart entries b
      = Ok (entries ++ concat (map (fun c => map groupEntry (ecGroups c)) cs), b')
      /\ cursorAt b' rest.
Proof.
  induction cs as [|c cs IH];
    intros chunkStart entries b rest Hwf Hcs Hal Hat Hrest.
  - exists b. cbn. rewrite app_nil_r. split; [reflexivity|exact Hat].
  - apply Forall_cons in Hwf as [Hc Hwf].
    cbn [map concat] in Hat. rewrite <- app_assoc in Hat.
    destruct (encodingChunk_at c chunkStart entries b _ Hc Hcs Hal Hat)
      as (b1 & R1 & Hat1 & Hcs1 & Hal1).
    { intros E. apply app_eq_nil in E as [_ E]. contradiction. }
    destruct (IH chunkStart (entries ++ map groupEntry (ecGroups c)) b1 rest
                Hwf Hcs1 Hal1 Hat1 Hrest) as (b' & R2 & Hat2).
    exists b'. split; [|exact Hat2].
    cbn [length encodingChunks map concat].
    rewrite (bind_Ok _ _ _ _ _ R1), R2, <- app_assoc. reflexivity.
Qed.

(** X7. An encoding file laid out as 9 bytes, the chunk count, 5 bytes,
    the string-block size, the string block, 32 bytes per chunk and the
    chunks, each padded to the next 4096-byte boundary, parses to one entry
    per group, in file order, with the hash, the first key and the size of
    the group; the string block, the 32-byte records, the padding and what
    follows the last chunk are never looked at.  Something has to follow
    the last chunk: the cursor is moved behind its padding, and a move to
    the end of the buffer is out of bounds. *)
Theorem parseEncodingFile_encoded (f : EncodingFile) :
  EncodingFile_wf f ->
  efRest f <> [] ->
  parseEncodingFile (encodeEncodingFile f)
  = Ok (concat (map (fun c => map groupEntry (ecGroups c)) (efChunks f))).
Proof.
  intros (Hhead & Hmid & Hstr & Hn & Htab & Hchunks) Hrest.
  assert (Hne : forall pre : list byte, pre ++ efRest f <> []).
  { intros pre E. apply app_eq_nil in E as [_ E]. contradiction. }
  unfold parseEncodingFile, run, parseEncoding.
  set (data := encodeEncodingFile f).
  assert (Hat0 : cursorAt (mkBufo data 0) data) by (exists []; split; reflexivity).
  unfold data at 2 in Hat0. unfold encodeEncodingFile in Hat0.
  pose proof (cursorAt_advance _ _ _ Hat0) as Hat1.
  rewrite Hhead in Hat1. unfold advance in Hat1.
  cbn [buffer offset] in Hat1.
  replace (0 + Z.of_nat 9) with 9 in Hat1 by lia.
  erewrite bind_Ok; cycle 1.
  { apply seek_front. pose proof (cursorAt_bounds _ _ Hat1) as [_ Hb].
    rewrite length_app, length_be32 in Hb.
    cbn [offset] in Hb. unfold byteLength in *. cbn [buffer] in *. lia. }
  cbn [buffer].
  destruct (readInt32_at ENDIAN_BIG _ _ _ (length_be32 _) Hat1) as [R2 Hat2].
  rewrite intOf_be32, toSigned_small in R2 by (unfold uint32; lia).
  rewrite (bind_Ok _ _ _ _ _ R2).
  destruct (move_at _ _ _ Hat2) as [R3 Hat3]; [destruct (be32 _); discriminate|].
  rewrite Hmid in R3, Hat3.
  rewrite (bind_Ok _ _ _ _ _ R3).
  destruct (readInt32_at ENDIAN_BIG _ _ _ (length_be32 _) Hat3) as [R4 Hat4].
  rewrite intOf_be32, toSigned_small in R4 by (unfold uint32; lia).
  rewrite (bind_Ok _ _ _ _ _ R4).
  destruct (move_at _ _ _ Hat4) as [R5 Hat5];
    [rewrite app_assoc; apply Hne|].
  rewrite (bind_Ok _ _ _ _ _ R5).
  destruct (move_at _ _ _ Hat5) as [R6 Hat6]; [apply Hne|].
  rewrite Htab in R6, Hat6.
  replace (Z.of_nat (32 * length (efChunks f)))
    with (Z.of_nat (length (efChunks f)) * 32) in R6, Hat6 by lia.
  rewrite (bind_Ok _ _ _ _ _ R6).
  unfold getOffset. unfold bind at 1.
  rewrite Nat2Z.id.
  match goal with
  | |- context [encodingChunks _ ?cs0 [] ?b0] =>
      destruct (encodingChunks_at (efChunks f) cs0 [] b0 (efRest f) Hchunks
                  ltac:(lia) ltac:(rewrite Z.sub_diag; reflexivity) Hat6 Hrest)
        as (b' & R7 & _)
  end.
  rewrite R7. reflexivity.
Qed.

Lemma sampleEncodingFile_wf : EncodingFile_wf sampleEncodingFile.
Proof.
  assert (Hgroup : forall size hash keys,
            uint32 size -> length hash = 16%nat -> Forall keyBytes keys ->
            0 < Z.of_nat (length keys) < 65536 ->
            EncodingGroup_wf (mkEncodingGroup size hash keys)).
  { intros size hash keys H1 H2 H3 H4.
    split; [exact H1|split; [exact H2|split; [exact H3|exact H4]]]. }
  unfold EncodingFile_wf, sampleEncodingFile.
  cbn [efHead efMiddle efStrings efTable efChunks].
  split; [reflexivity|]. split; [reflexivity|].
  split; [vm_compute; reflexivity|]. split; [vm_compute; reflexivity|].
  split; [reflexivity|].
  apply Forall_cons. split; [|apply Forall_cons; split; [|constructor]].
  - split; [|vm_compute; reflexivity]. cbn [ecGroups].
    apply Forall_cons. split; [|apply Forall_cons; split; [|constructor]].
    + apply Hgroup;
        [unfold uint32; lia|reflexivity|
         repeat (apply Forall_cons; split; [reflexivity|]); constructor|
         cbn [length]; lia].
    + apply Hgroup;
        [unfold uint32; lia|reflexivity|
         repeat (apply Forall_cons; split; [reflexivity|]); constructor|
         cbn [length]; lia].
  - split; [constructor|vm_compute; reflexivity].
Defined.

Lemma parseEncodingFile_encoded_witness :
  parseEncodingFile (encodeEncodingFile sampleEncodingFile)
  = Ok [mkEncodingEntry "11111111111111111111111111111111"
          (Some "22222222222222222222222222222222") 77;
        mkEncodingEntry "44444444444444444444444444444444"
          (Some "55555555555555555555555555555555") 2147483648].
Proof.
  exact (parseEncodingFile_encoded sampleEncodingFile sampleEncodingFile_wf
           ltac:(discriminate)).
Defined.

Lemma parseEncodingFile_entries_ok_witness :
  Forall EncodingEntry_ok
    (concat (map (fun c => map groupEntry (ecGroups c))
               (efChunks sampleEncodingFile))).
Proof.
  apply (parseEncodingFile_entries_ok (encodeEncodingFile sampleEncodingFile)).
  vm_compute. reflexivity.
Defined.

(** * The configuration layer: properties *)

(** ** Strings *)

Lemma startsWith_app (p t : jsString) : startsWith (p ++ t) p = true.
Proof.
  induction p as [|c p IH]; [reflexivity|].
  cbn [app startsWith]. rewrite Ascii.eqb_refl, IH. reflexivity.
Qed.

Lemma startsWith_true (s p : jsString) :
  startsWith s p = true <-> exists t, s = p ++ t.
Proof.
  split.
  - revert s. induction p as [|c p IH]; intros s H.
    + exists s. reflexivity.
    + destruct s as [|d s]; [discriminate|]. cbn [startsWith] in H.
      apply andb_prop in H as [Hc H]. apply Ascii.eqb_eq in Hc as ->.
      destruct (IH s H) as (t & ->). exists t. reflexivity.
  - intros (t & ->). apply startsWith_app.
Qed.

Lemma endsWith_true (s p : jsString) :
  endsWith s p = true <-> exists t, s = t ++ p.
Proof.
  unfold endsWith. rewrite startsWith_true. split.
  - intros (t & Ht). exists (rev t).
    rewrite <- (rev_involutive s), Ht, rev_app_distr, rev_involutive.
    reflexivity.
  - intros (t & ->). exists (rev t). apply rev_app_distr.
Qed.

Lemma endsWith_app (t p : jsString) : endsWith (t ++ p) p = true.
Proof. apply endsWith_true. exists t. reflexivity. Qed.

(** Whether a string ends with a given character. *)
Lemma endsWith_char (s : jsString) (c : ascii) :
  endsWith s [c] = bool_decide (last s = Some c).
Proof.
  destruct (endsWith s [c]) eqn:E.
  - apply endsWith_true in E as (t & ->). rewrite last_snoc.
    rewrite bool_decide_eq_true_2; reflexivity.
  - symmetry. apply bool_decide_eq_false_2. intros Hl.
    apply last_Some in Hl as (t & ->).
    rewrite endsWith_app in E. discriminate.
Qed.

Lemma substring_init (t : jsString) (c : ascii) :
  substring (t ++ [c]) 0 (length (t ++ [c]) - 1) = t.
Proof.
  unfold substring. rewrite length_app. cbn [length].
  replace (length t + 1 - 1)%nat with (length t) by lia.
  rewrite Nat.min_0_l, (Nat.min_l (length t)) by lia.
  rewrite Nat.max_0_l, Nat.min_0_l, Nat.sub_0_r. cbn [skipn].
  apply take_app_length.
Qed.

Lemma substring_tail (c : ascii) (t : jsString) :
  substring (c :: t) 1 (length (c :: t)) = t.
Proof.
  unfold substring. cbn [length].
  rewrite (Nat.min_l 1), Nat.min_id by lia.
  rewrite Nat.max_r, Nat.min_l by lia. cbn [skipn].
  replace (S (length t) - 1)%nat with (length t) by lia.
  apply firstn_all.
Qed.

Lemma substring_take (s : jsString) (n : nat) : substring s 0 n = take n s.
Proof.
  unfold substring. rewrite Nat.min_0_l, Nat.max_0_l, Nat.min_0_l, Nat.sub_0_r.
  cbn [skipn]. destruct (Nat.le_ge_cases n (length s)).
  - rewrite Nat.min_l by lia. reflexivity.
  - rewrite Nat.min_r by lia. rewrite firstn_all, firstn_all2 by lia.
    reflexivity.
Qed.

Lemma substring_2_4 (s : jsString) : substring s 2 4 = take 2 (drop 2 s).
Proof.
  unfold substring.
  destruct (Nat.le_ge_cases 4 (length s)).
  - rewrite !Nat.min_l, Nat.max_r by lia. reflexivity.
  - destruct (Nat.le_ge_cases 2 (length s)).
    + rewrite (Nat.min_l 2), (Nat.min_r 4), Nat.max_r, (Nat.min_l 2) by lia.
      rewrite !firstn_all2 by (rewrite length_drop; lia). reflexivity.
    + rewrite (Nat.min_r 2), (Nat.min_r 4) by lia.
      rewrite Nat.max_id, Nat.min_id, Nat.sub_diag.
      rewrite (drop_ge s 2) by lia. reflexivity.
Qed.

(** ** setPatchServer and patchServer *)

(** X8. [patchServer] after [setPatchServer(url)]: one trailing slash of
    [url] is taken off, and no more; a URL without one is kept as it is;
    and the empty result, for [url] empty or a single slash, gives the US
    patch server back. *)
Theorem setPatchServer_patchServer (c : CASC) :
  (forall t : jsString,
     patchServer (setPatchServer (t ++ lit "/") c)
     = match t with [] => PATCH_SERVER_US | _ => t end)
  /\ (forall url : jsString,
        last url <> Some "/"%char ->
        patchServer (setPatchServer url c)
        = match url with [] => PATCH_SERVER_US | _ => url end).
Proof.
  split.
  - intros t. unfold patchServer, setPatchServer. cbn [_patchServer].
    change (lit "/") with ["/"%char].
    rewrite endsWith_app, substring_init. destruct t; reflexivity.
  - intros url Hlast. unfold patchServer, setPatchServer. cbn [_patchServer].
    change (lit "/") with ["/"%char].
    rewrite endsWith_char, bool_decide_eq_false_2 by exact Hlast.
    destruct url; reflexivity.
Qed.

Lemma setPatchServer_patchServer_witness :
  patchServer (setPatchServer (lit "http://eu.patch.battle.net:1119//") newCASC)
  = lit "http://eu.patch.battle.net:1119/"
  /\ patchServer (setPatchServer PATCH_SERVER_EU newCASC) = PATCH_SERVER_EU.
Proof.
  split.
  - exact (proj1 (setPatchServer_patchServer newCASC)
             (lit "http://eu.patch.battle.net:1119/")).
  - apply (proj2 (setPatchServer_patchServer newCASC) PATCH_SERVER_EU).
    vm_compute. discriminate.
Defined.

(** ** setCDNServer, cdnServer and cdnPath *)

Lemma startsWith_snoc (p s : jsString) (c : ascii) :
  c ∉ p -> startsWith (s ++ [c]) p = startsWith s p.
Proof.
  revert s. induction p as [|d p IH]; intros s Hc; [reflexivity|].
  apply not_elem_of_cons in Hc as [Hcd Hc].
  destruct s as [|e s]; cbn [app startsWith].
  - apply Ascii.eqb_neq in Hcd. rewrite Hcd. reflexivity.
  - rewrite IH by exact Hc. reflexivity.
Qed.

Lemma slash_not_in_http : "/"%char ∉ lit "http".
Proof.
  intros H. repeat (apply elem_of_cons in H as [H|H]; [discriminate|]).
  apply elem_of_nil in H. exact H.
Qed.

(** Taking one trailing slash off. *)
Lemma strip_end_slash (s : jsString) :
  (if endsWith s (lit "/") then substring s 0 (length s - 1) else s)
  = match last s with
    | Some "/"%char => removelast s
    | _ => s
    end.
Proof.
  change (lit "/") with ["/"%char]. rewrite endsWith_char.
  destruct (last s) as [c|] eqn:El.
  - destruct (decide (c = "/"%char)) as [->|Hc].
    + rewrite bool_decide_eq_true_2 by reflexivity.
      apply last_Some in El as (t & ->).
      rewrite substring_init, removelast_last. reflexivity.
    + rewrite bool_decide_eq_false_2 by congruence.
      destruct c as [[] [] [] [] [] [] [] []]; try reflexivity.
      contradiction Hc. reflexivity.
  - rewrite bool_decide_eq_false_2 by discriminate. reflexivity.
Qed.

(** Taking one leading slash off. *)
Lemma strip_start_slash (s : jsString) :
  (if startsWith s (lit "/") then substring s 1 (length s) else s)
  = match s with
    | "/"%char :: t => t
    | _ => s
    end.
Proof.
  destruct s as [|c t]; [reflexivity|].
  change (lit "/") with ["/"%char]. cbn [startsWith].
  rewrite andb_true_r.
  destruct (Ascii.eqb_spec c "/") as [->|Hc].
  - apply substring_tail.
  - destruct c as [[] [] [] [] [] [] [] []]; try reflexivity.
    contradiction Hc. reflexivity.
Qed.

Lemma setCDNServer_stored (host path : jsString) (c : CASC) :
  setCDNServer host path c
  = mkCASC (_productTag c) (_patchServer c)
      (Some (storedServer host)) (Some (storedPath path)).
Proof.
  unfold setCDNServer, storedServer, storedPath.
  rewrite !strip_end_slash, strip_start_slash.
  destruct (startsWith host (lit "http")); reflexivity.
Qed.

Lemma storedServer_http (host : jsString) :
  startsWith (storedServer host) (lit "http") = true.
Proof.
  unfold storedServer.
  set (host1 := if startsWith host (lit "http") then host
                else lit "http://" ++ host).
  assert (H1 : startsWith host1 (lit "http") = true).
  { subst host1. destruct (startsWith host (lit "http")) eqn:E; [exact E|].
    apply startsWith_true. exists (lit "://" ++ host). reflexivity. }
  destruct (last host1) as [c|] eqn:El; [|exact H1].
  apply last_Some in El as (t & Et). rewrite Et in H1 |- *.
  destruct (decide (c = "/"%char)) as [->|Hc].
  - rewrite removelast_last.
    rewrite startsWith_snoc in H1 by exact slash_not_in_http. exact H1.
  - destruct c as [[] [] [] [] [] [] [] []]; try exact H1.
    contradiction Hc. reflexivity.
Qed.

(** X9. After [setCDNServer(host, path)] the getter [cdnServer] never
    throws, whatever the host, and the server starts with "http"; it starts
    with "http://" when the host is not empty and has no "http" in front;
    for the empty host it is "http:/", the slash of the prefix being the
    one taken off. *)
Theorem setCDNServer_cdnServer (host path : jsString) (c : CASC) :
  (exists server,
     cdnServer (setCDNServer host path c) = Returns server
     /\ startsWith server (lit "http") = true
     /\ (host <> [] -> startsWith host (lit "http") = false ->
         startsWith server (lit "http://") = true))
  /\ cdnServer (setCDNServer [] path c) = Returns (lit "http:/").
Proof.
  split; [|rewrite setCDNServer_stored; reflexivity].
  exists (storedServer host). rewrite setCDNServer_stored.
  pose proof (storedServer_http host) as Hh.
  split; [|split; [exact Hh|]].
  - apply startsWith_true in Hh as (t & Ht). unfold cdnServer.
    cbn [_cdnServer]. rewrite Ht. reflexivity.
  - intros Hne Hnot. unfold storedServer. rewrite Hnot.
    destruct (last (lit "http://" ++ host)) as [ch|] eqn:El;
      [|apply startsWith_app].
    destruct (exists_last Hne) as (t & d & ->).
    rewrite app_assoc, last_snoc in El. injection El as <-.
    destruct (decide (d = "/"%char)) as [->|Hd].
    + rewrite app_assoc, removelast_last. apply startsWith_app.
    + destruct d as [[] [] [] [] [] [] [] []]; try apply startsWith_app.
      contradiction Hd. reflexivity.
Qed.

Lemma setCDNServer_cdnServer_witness :
  exists server,
    cdnServer (setCDNServer (lit "edgecast.blizzard.com") (lit "tpr/wow") newCASC)
    = Returns server
    /\ startsWith server (lit "http://") = true.
Proof.
  destruct (proj1 (setCDNServer_cdnServer (lit "edgecast.blizzard.com")
                     (lit "tpr/wow") newCASC)) as (server & R & _ & H).
  exists server. split; [exact R|]. apply H; [discriminate|reflexivity].
Defined.

Lemma storedPath_empty (path : jsString) :
  storedPath path = [] <-> path = [] \/ path = lit "/" \/ path = lit "//".
Proof.
  assert (Hend : forall s : jsString,
            match last s with Some "/"%char => removelast s | _ => s end = []
            <-> s = [] \/ s = lit "/").
  { intros s. destruct (last s) as [c|] eqn:El.
    - apply last_Some in El as (t & ->).
      destruct (decide (c = "/"%char)) as [->|Hc].
      + rewrite removelast_last. split.
        * intros ->. right. reflexivity.
        * intros [H|H]; [destruct t; discriminate|].
          destruct t as [|a [|b t]]; [reflexivity|discriminate|discriminate].
      + assert (match c with "/"%char => removelast (t ++ [c]) | _ => t ++ [c] end
                = t ++ [c]) as ->.
        { destruct c as [[] [] [] [] [] [] [] []]; try reflexivity.
          contradiction Hc. reflexivity. }
        split; [destruct t; discriminate|].
        intros [H|H]; [destruct t; discriminate|].
        destruct t as [|a [|b t]]; try discriminate.
        injection H as ->. contradiction Hc. reflexivity.
    - apply last_None in El as ->. split; [left; reflexivity|reflexivity]. }
  unfold storedPath. rewrite Hend.
  destruct path as [|c t].
  - split; [left; reflexivity|left; reflexivity].
  - destruct (decide (c = "/"%char)) as [->|Hc].
    + split.
      * intros [-> | ->]; right; [left|right]; reflexivity.
      * intros [H|[H|H]]; [discriminate| |]; injection H as ->;
          [left|right]; reflexivity.
    + assert (match c with "/"%char => t | _ => c :: t end = c :: t) as ->.
      { destruct c as [[] [] [] [] [] [] [] []]; try reflexivity.
        contradiction Hc. reflexivity. }
      split.
      * intros [H|H]; [discriminate|]. right. left. exact H.
      * intros [H|[H|H]]; [discriminate| |].
        -- right. exact H.
        -- injection H as -> _. contradiction Hc. reflexivity.
Qed.

(** X10. After [setCDNServer(host, path)] the getter [cdnPath] throws
    'No CDN path specified' exactly when [path] is empty, "/" or "//": one
    leading and one trailing slash are taken off and an empty path counts
    as not set.  The URL of a data, config or index file then cannot be
    formatted. *)
Theorem setCDNServer_cdnPath (host path : jsString) (c : CASC) :
  (cdnPath (setCDNServer host path c) = Throws NoCDNPath
   <-> path = [] \/ path = lit "/" \/ path = lit "//")
  /\ (cdnPath (setCDNServer host path c) = Throws NoCDNPath ->
      forall key,
        _formatDataURL (setCDNServer host path c) key None = Throws NoCDNPath
        /\ _formatConfigURL (setCDNServer host path c) key = Throws NoCDNPath
        /\ _formatIndexURL (setCDNServer host path c) key = Throws NoCDNPath).
Proof.
  rewrite setCDNServer_stored. split.
  - rewrite <- storedPath_empty. unfold cdnPath. cbn [_cdnPath].
    destruct (storedPath path); split; congruence.
  - intros Hp key.
    pose proof (storedServer_http host) as Hh.
    apply startsWith_true in Hh as (t & Ht).
    unfold _formatIndexURL, _formatConfigURL, _formatDataURL.
    rewrite Hp. unfold cdnServer. cbn [_cdnServer]. rewrite Ht.
    repeat split; reflexivity.
Qed.

Lemma setCDNServer_cdnPath_witness :
  _formatIndexURL (setCDNServer (lit "edgecast.blizzard.com") (lit "//") newCASC)
    (lit "0123456789abcdef")
  = Throws NoCDNPath.
Proof.
  apply (proj2 (setCDNServer_cdnPath (lit "edgecast.blizzard.com") (lit "//")
                  newCASC)).
  apply (proj1 (setCDNServer_cdnPath (lit "edgecast.blizzard.com") (lit "//")
                  newCASC)).
  right. right. reflexivity.
Defined.

(** ** Slashes around host and path, and the URLs *)

Lemma last_not_slash_keep (s : jsString) :
  last s <> Some "/"%char ->
  match last s with Some "/"%char => removelast s | _ => s end = s.
Proof.
  intros H. destruct (last s) as [c|]; [|reflexivity].
  destruct c as [[] [] [] [] [] [] [] []]; try reflexivity.
  contradiction H. reflexivity.
Qed.

Lemma head_not_slash_keep (s : jsString) :
  head s <> Some "/"%char ->
  match s with "/"%char :: t => t | _ => s end = s.
Proof.
  intros H. destruct s as [|c t]; [reflexivity|].
  destruct c as [[] [] [] [] [] [] [] []]; try reflexivity.
  contradiction H. reflexivity.
Qed.

Lemma storedServer_plain (host : jsString) :
  host <> [] -> last host <> Some "/"%char ->
  storedServer host
  = if startsWith host (lit "http") then host else lit "http://" ++ host.
Proof.
  intros Hne Hlast. unfold storedServer. apply last_not_slash_keep.
  destruct (startsWith host (lit "http")); [exact Hlast|].
  destruct (exists_last Hne) as (t & d & ->).
  rewrite last_snoc in Hlast. rewrite app_assoc, last_snoc. exact Hlast.
Qed.

Lemma storedPath_plain (path : jsString) :
  head path <> Some "/"%char -> last path <> Some "/"%char ->
  storedPath path = path.
Proof.
  intros Hh Hl. unfold storedPath. rewrite head_not_slash_keep by exact Hh.
  apply last_not_slash_keep, Hl.
Qed.

(** X11. One slash behind the host and one slash on either side of the
    path make no difference to [setCDNServer]: for a host that is not empty
    and does not end in a slash, and a path with no slash at either end,
    the client is left in the same state with or without them. *)
Theorem setCDNServer_slashes (host path : jsString) (c : CASC) :
  host <> [] ->
  last host <> Some "/"%char ->
  head path <> Some "/"%char ->
  last path <> Some "/"%char ->
  setCDNServer (host ++ lit "/") (lit "/" ++ path ++ lit "/") c
  = setCDNServer host path c.
Proof.
  intros Hne Hlast Hph Hpl. rewrite !setCDNServer_stored.
  rewrite (storedServer_plain host), (storedPath_plain path) by assumption.
  f_equal; f_equal.
  - unfold storedServer. change (lit "/") with ["/"%char].
    rewrite startsWith_snoc by exact slash_not_in_http.
    destruct (startsWith host (lit "http")).
    + rewrite last_snoc, removelast_last. reflexivity.
    + rewrite app_assoc, last_snoc, removelast_last. reflexivity.
  - unfold storedPath. change (lit "/") with ["/"%char]. cbn [app].
    rewrite last_snoc, removelast_last. reflexivity.
Qed.

Lemma setCDNServer_slashes_witness :
  setCDNServer (lit "edgecast.blizzard.com" ++ lit "/")
    (lit "/" ++ lit "tpr/wow" ++ lit "/") newCASC
  = setCDNServer (lit "edgecast.blizzard.com") (lit "tpr/wow") newCASC.
Proof.
  apply setCDNServer_slashes; vm_compute; discriminate.
Defined.

(** X12. The URLs of a client set up with [setCDNServer(host, path)], for
    a host that is not empty and does not end in a slash and a path that is
    not empty and has no slash at either end: server, path, the directory
    ("data", or "config" for a config file), the first two characters of
    the key, the next two, and the key, with slashes in between; the index
    URL is the data URL with ".index" behind it. *)
Theorem formatURL_layout (host path key : jsString) (c : CASC) :
  host <> [] -> last host <> Some "/"%char ->
  path <> [] -> head path <> Some "/"%char -> last path <> Some "/"%char ->
  let server :=
    if startsWith host (lit "http") then host else lit "http://" ++ host in
  let tail :=
    lit "/" ++ take 2 key ++ lit "/" ++ take 2 (drop 2 key) ++ lit "/" ++ key in
  let c' := setCDNServer host path c in
  _formatDataURL c' key None
  = Returns (server ++ lit "/" ++ path ++ lit "/data" ++ tail)
  /\ _formatConfigURL c' key
     = Returns (server ++ lit "/" ++ path ++ lit "/config" ++ tail)
  /\ _formatIndexURL c' key
     = Returns (server ++ lit "/" ++ path ++ lit "/data" ++ tail ++ lit ".index").
Proof.
  intros Hne Hlast Hpne Hph Hpl server tail c'.
  assert (Hdata : forall dir,
            _formatDataURL c' key dir
            = Returns (server ++ lit "/" ++ path ++ lit "/"
                         ++ orElse dir (lit "data") ++ tail)).
  { intros dir. subst c'. rewrite setCDNServer_stored.
    rewrite storedServer_plain, storedPath_plain by assumption.
    fold server. unfold _formatDataURL, cdnServer, cdnPath.
    cbn [_cdnServer _cdnPath].
    assert (Hs : server <> []).
    { subst server. destruct (startsWith host (lit "http"));
        [exact Hne|discriminate]. }
    destruct server as [|s0 server]; [contradiction|].
    destruct path as [|p0 path]; [contradiction|].
    unfold _formatDataKey. rewrite substring_take, substring_2_4.
    subst tail. rewrite <- ?app_assoc. reflexivity. }
  split; [|split].
  - rewrite Hdata. cbn [orElse]. rewrite <- ?app_assoc. reflexivity.
  - unfold _formatConfigURL. rewrite Hdata. cbn [orElse].
    rewrite <- ?app_assoc. reflexivity.
  - unfold _formatIndexURL. rewrite Hdata. cbn [orElse].
    rewrite <- ?app_assoc. reflexivity.
Qed.

Lemma formatURL_layout_witness :
  _formatIndexURL
    (setCDNServer (lit "edgecast.blizzard.com") (lit "tpr/wow") newCASC)
    (lit "0123456789abcdef")
  = Returns
      (lit "http://edgecast.blizzard.com/tpr/wow/data/01/23/0123456789abcdef.index").
Proof.
  apply (formatURL_layout (lit "edgecast.blizzard.com") (lit "tpr/wow")
           (lit "0123456789abcdef") newCASC);
    vm_compute; discriminate.
Defined.

(** ** _formatDataKey *)

Lemma length__formatDataKey (key : jsString) :
  length (_formatDataKey key)
  = (Nat.min 2 (length key) + Nat.min 2 (length key - 2) + 2 + length key)%nat.
Proof.
  unfold _formatDataKey. rewrite substring_take, substring_2_4.
  change (lit "/") with ["/"%char].
  rewrite !length_app, !length_take, length_drop. cbn [length]. lia.
Qed.

(** X13. Two different keys never have the same path on the CDN: the key
    can be read back from its path. *)
Theorem _formatDataKey_injective (key1 key2 : jsString) :
  _formatDataKey key1 = _formatDataKey key2 -> key1 = key2.
Proof.
  intros H.
  assert (Hlen : length key1 = length key2).
  { apply (f_equal length) in H. rewrite !length__formatDataKey in H. lia. }
  assert (Hback : forall key,
            drop (length (_formatDataKey key) - length key) (_formatDataKey key)
            = key).
  { intros key. rewrite length__formatDataKey. unfold _formatDataKey.
    rewrite substring_take, substring_2_4. change (lit "/") with ["/"%char].
    rewrite !app_assoc. apply drop_app_length'.
    rewrite !length_app, !length_take, length_drop. cbn [length]. lia. }
  rewrite <- (Hback key1), <- (Hback key2), H, Hlen. reflexivity.
Qed.

Lemma _formatDataKey_injective_witness : lit "0123" = lit "0123".
Proof. apply _formatDataKey_injective. reflexivity. Defined.

(** ** _formatPatchURL *)

(** X14. The URL of a patch file can only fail for want of a product:
    it throws 'No target product' exactly when no product tag, or the empty
    one, has been set, and otherwise is the patch server, the US one unless
    another has been set, the product and the file, with slashes in
    between. *)
Theorem _formatPatchURL_product (c : CASC) (file : jsString) :
  (_formatPatchURL c file = Throws NoTargetProduct
   <-> _productTag c = None \/ _productTag c = Some [])
  /\ (forall tag url,
        tag <> [] -> url <> [] -> last url <> Some "/"%char ->
        _formatPatchURL (setPatchServer url (setTargetProduct tag c)) file
        = Returns (url ++ lit "/" ++ tag ++ lit "/" ++ file))
  /\ (forall tag,
        tag <> [] ->
        _formatPatchURL (setTargetProduct tag newCASC) file
        = Returns (PATCH_SERVER_US ++ lit "/" ++ tag ++ lit "/" ++ file)).
Proof.
  split; [|split].
  - unfold _formatPatchURL, targetProduct.
    destruct (_productTag c) as [[|ch t]|]; split; try congruence; auto.
    + intros [H|H]; discriminate.
  - intros tag url Htag Hurl Hlast.
    unfold _formatPatchURL, targetProduct, patchServer, setPatchServer,
      setTargetProduct. cbn [_productTag _patchServer].
    rewrite strip_end_slash, last_not_slash_keep by exact Hlast.
    destruct tag; [contradiction|]. destruct url; [contradiction|].
    reflexivity.
  - intros tag Htag. unfold _formatPatchURL, targetProduct, patchServer,
      setTargetProduct. cbn [_productTag _patchServer newCASC].
    destruct tag; [contradiction|]. reflexivity.
Qed.

Lemma _formatPatchURL_product_witness :
  _formatPatchURL (setPatchServer PATCH_SERVER_EU
                     (setTargetProduct (lit "wow") newCASC)) (lit "cdns")
  = Returns (lit "http://eu.patch.battle.net:1119/wow/cdns").
Proof.
  apply (proj1 (proj2 (_formatPatchURL_product newCASC (lit "cdns")))
           (lit "wow") PATCH_SERVER_EU);
    vm_compute; discriminate.
Defined.

(** ** split and join *)

Lemma split_nonempty (s : jsString) (sep : ascii) : split s sep <> [].
Proof.
  destruct s as [|c s]; [discriminate|]. cbn [split].
  destruct (Ascii.eqb c sep); [discriminate|].
  destruct (split s sep); discriminate.
Qed.

Lemma split_no_sep (s : jsString) (sep : ascii) :
  sep ∉ s -> split s sep = [s].
Proof.
  induction s as [|c s IH]; intros H; [reflexivity|].
  apply not_elem_of_cons in H as [Hc H]. cbn [split].
  destruct (Ascii.eqb_spec c sep) as [->|_]; [contradiction|].
  rewrite IH by exact H. reflexivity.
Qed.

Lemma split_app_sep (p s : jsString) (sep : ascii) :
  sep ∉ p -> split (p ++ sep :: s) sep = p :: split s sep.
Proof.
  induction p as [|c p IH]; intros H.
  - cbn [app split]. rewrite Ascii.eqb_refl. reflexivity.
  - apply not_elem_of_cons in H as [Hc H]. cbn [app split].
    destruct (Ascii.eqb_spec c sep) as [->|_]; [contradiction|].
    rewrite IH by exact H. reflexivity.
Qed.

Lemma split_join (sep : ascii) (parts : list jsString) :
  parts <> [] ->
  Forall (fun p => sep ∉ p) parts ->
  split (join sep parts) sep = parts.
Proof.
  induction parts as [|p parts IH]; intros Hne Hall; [contradiction|].
  apply Forall_cons in Hall as [Hp Hall].
  destruct parts as [|q parts].
  - cbn [join]. apply split_no_sep, Hp.
  - change (join sep (p :: q :: parts)) with (p ++ sep :: join sep (q :: parts)).
    rewrite split_app_sep by exact Hp. rewrite IH; [reflexivity|discriminate|].
    exact Hall.
Qed.

(** ** trim *)

Lemma trimStart_keep (s : jsString) :
  match head s with Some c => isWhiteSpace c = false | None => True end ->
  trimStart s = s.
Proof.
  destruct s as [|c s]; [reflexivity|]. cbn [head trimStart].
  intros ->. reflexivity.
Qed.

Lemma trimStart_white (w s : jsString) :
  Forall (fun c => isWhiteSpace c = true) w -> trimStart (w ++ s) = trimStart s.
Proof.
  induction 1 as [|c w Hc _ IH]; [reflexivity|].
  cbn [app trimStart]. rewrite Hc. exact IH.
Qed.

Lemma head_rev (s : jsString) : head (rev s) = last s.
Proof.
  induction s as [|x t _] using rev_ind; [reflexivity|].
  rewrite rev_app_distr, last_snoc. reflexivity.
Qed.

(** White space around a string that begins and ends with other
    characters is what [trim] takes off. *)
Lemma trim_around (w1 s w2 : jsString) :
  Forall (fun c => isWhiteSpace c = true) w1 ->
  Forall (fun c => isWhiteSpace c = true) w2 ->
  match head s with Some c => isWhiteSpace c = false | None => True end ->
  match last s with Some c => isWhiteSpace c = false | None => True end ->
  trim (w1 ++ s ++ w2) = s.
Proof.
  intros H1 H2 Hh Hl. unfold trim.
  rewrite trimStart_white by exact H1.
  destruct s as [|c s].
  - cbn [app]. rewrite <- (app_nil_r w2) at 1. rewrite trimStart_white by exact H2.
    cbn [trimStart rev]. reflexivity.
  - rewrite (trimStart_keep ((c :: s) ++ w2)) by exact Hh.
    rewrite rev_app_distr, trimStart_white by (apply Forall_rev; exact H2).
    rewrite (trimStart_keep (rev (c :: s))); [apply rev_involutive|].
    rewrite head_rev. exact Hl.
Qed.

Lemma trim_keep (s : jsString) :
  match head s with Some c => isWhiteSpace c = false | None => True end ->
  match last s with Some c => isWhiteSpace c = false | None => True end ->
  trim s = s.
Proof.
  intros Hh Hl.
  pose proof (trim_around [] s [] ltac:(constructor) ltac:(constructor) Hh Hl)
    as H.
  rewrite app_nil_r in H. exact H.
Qed.

(** ** _processCDNConfig: when it throws *)

Lemma cdnConfigLines_throws (lines : list jsString) :
  forall entries e,
    cdnConfigLines lines entries = Throws e ->
    e = InvalidTokenLength
    /\ exists line, line ∈ dataLines lines /\ length (split line "=") <> 2%nat.
Proof.
  induction lines as [|line lines IH]; intros entries e H; [discriminate|].
  cbn [cdnConfigLines] in H. unfold dataLines. rewrite filter_cons.
  destruct (skippedLine line) eqn:Es.
  - rewrite decide_False by discriminate. apply IH in H. exact H.
  - rewrite decide_True by reflexivity.
    destruct (Nat.eqb_spec (length (split line "=")) 2) as [E2|N2]; cbn [negb] in H.
    + apply IH in H as (-> & l & Hl & Hn). split; [reflexivity|].
      exists l. split; [right; exact Hl|exact Hn].
    + injection H as <-. split; [reflexivity|].
      exists line. split; [left|exact N2].
Qed.

Lemma cdnConfigLines_bad_line (lines : list jsString) :
  forall entries line,
    line ∈ dataLines lines -> length (split line "=") <> 2%nat ->
    cdnConfigLines lines entries = Throws InvalidTokenLength.
Proof.
  induction lines as [|l lines IH]; intros entries line Hin Hn.
  - apply elem_of_nil in Hin. contradiction.
  - unfold dataLines in Hin. rewrite filter_cons in Hin.
    cbn [cdnConfigLines]. destruct (skippedLine l) eqn:Es.
    + rewrite decide_False in Hin by discriminate. eapply IH; eassumption.
    + rewrite decide_True in Hin by reflexivity.
      destruct (Nat.eqb_spec (length (split l "=")) 2) as [E2|N2]; cbn [negb];
        [|reflexivity].
      apply elem_of_cons in Hin as [->|Hin]; [contradiction|].
      eapply IH; eassumption.
Qed.

(** X15. [_processCDNConfig] throws, 'KeyValueConfig has invalid token
    length', exactly when some line that is neither blank nor a comment
    does not hold exactly one [=]; it throws nothing else, and a single
    such line anywhere in the text loses the whole result. *)
Theorem _processCDNConfig_throws (data : jsString) :
  (forall e, _processCDNConfig data = Throws e -> e = InvalidTokenLength)
  /\ (_processCDNConfig data = Throws InvalidTokenLength
      <-> exists line,
            line ∈ dataLines (split data LF)
            /\ length (split line "=") <> 2%nat).
Proof.
  unfold _processCDNConfig. split; [|split].
  - intros e H. apply cdnConfigLines_throws in H as [-> _]. reflexivity.
  - intros H. apply cdnConfigLines_throws in H as [_ H]. exact H.
  - intros (line & Hin & Hn). eapply cdnConfigLines_bad_line; eassumption.
Qed.

Lemma _processCDNConfig_throws_witness :
  _processCDNConfig (lit "archives = aa bb" ++ LF :: lit "root = 11 = 22")
  = Throws InvalidTokenLength.
Proof.
  apply (proj2 (proj2 (_processCDNConfig_throws
                         (lit "archives = aa bb" ++ LF :: lit "root = 11 = 22")))).
  exists (lit "root = 11 = 22"). split.
  - vm_compute. right. left.
  - vm_compute. discriminate.
Defined.

(** ** Lines of a text *)

Lemma skippedLine_empty : skippedLine [] = true.
Proof. reflexivity. Qed.

Lemma cdnConfigLines_dataLines (lines : list jsString) :
  forall entries,
    cdnConfigLines (dataLines lines) entries = cdnConfigLines lines entries.
Proof.
  induction lines as [|line lines IH]; intros entries; [reflexivity|].
  unfold dataLines. rewrite filter_cons. cbn [cdnConfigLines].
  destruct (skippedLine line) eqn:Es.
  - rewrite decide_False by discriminate. apply IH.
  - rewrite decide_True by reflexivity. cbn [cdnConfigLines]. rewrite Es.
    destruct (negb _); [reflexivity|]. apply IH.
Qed.

(** The lines of a text made of lines. *)
Lemma split_lines (lines : list jsString) :
  Forall (fun line => LF ∉ line) lines ->
  split (join LF lines) LF = match lines with [] => [[]] | _ => lines end.
Proof.
  intros H. destruct lines as [|l lines]; [reflexivity|].
  apply split_join; [discriminate|exact H].
Qed.

Lemma cdnConfigLines_join (lines : list jsString) (entries : KeyValueConfig) :
  Forall (fun line => LF ∉ line) lines ->
  cdnConfigLines (split (join LF lines) LF) entries
  = cdnConfigLines lines entries.
Proof.
  intros H. rewrite split_lines by exact H.
  destruct lines; reflexivity.
Qed.

(** X16. Blank lines and lines that start with [#] do not count: a CDN
    config gives the same result, or throws the same error, as the text
    with those lines left out. *)
Theorem _processCDNConfig_comments (lines : list jsString) :
  Forall (fun line => LF ∉ line) lines ->
  _processCDNConfig (join LF lines)
  = _processCDNConfig (join LF (dataLines lines)).
Proof.
  intros H. unfold _processCDNConfig.
  rewrite !cdnConfigLines_join.
  - symmetry. apply cdnConfigLines_dataLines.
  - unfold dataLines. rewrite Forall_forall in H. apply Forall_forall.
    intros line Hl. apply list_elem_of_filter in Hl as [_ Hl]. apply H, Hl.
  - exact H.
Qed.

Lemma _processCDNConfig_comments_witness :
  _processCDNConfig
    (join LF [lit "# Build Configuration"; []; lit "root = 11";
              lit "   "; lit "archives = aa bb"])
  = _processCDNConfig (join LF [lit "root = 11"; lit "archives = aa bb"]).
Proof.
  apply (_processCDNConfig_comments
           [lit "# Build Configuration"; []; lit "root = 11";
            lit "   "; lit "archives = aa bb"]).
  repeat (apply List.Forall_cons;
          [apply (bool_decide_unpack _); vm_compute; exact I|]).
  apply List.Forall_nil.
Defined.

(** ** _processCDNConfig: a text of key and value lines *)

Lemma elem_of_join (sep c : ascii) (parts : list jsString) :
  c ∈ join sep parts -> c = sep \/ exists p, p ∈ parts /\ c ∈ p.
Proof.
  induction parts as [|p parts IH]; intros H.
  - apply elem_of_nil in H. contradiction.
  - destruct parts as [|q parts].
    + right. exists p. split; [left|exact H].
    + change (join sep (p :: q :: parts))
        with (p ++ sep :: join sep (q :: parts)) in H.
      apply elem_of_app in H as [H|H].
      * right. exists p. split; [left|exact H].
      * apply elem_of_cons in H as [->|H]; [left; reflexivity|].
        destruct (IH H) as [->|(p' & Hp' & Hc)]; [left; reflexivity|].
        right. exists p'. split; [right; exact Hp'|exact Hc].
Qed.

Lemma head_join (sep : ascii) (p : jsString) (parts : list jsString) :
  p <> [] -> head (join sep (p :: parts)) = head p.
Proof.
  intros Hp. destruct p as [|c p]; [contradiction|].
  destruct parts; reflexivity.
Qed.

Lemma last_join (sep : ascii) (parts : list jsString) (p : jsString) :
  p <> [] -> last (join sep (parts ++ [p])) = last p.
Proof.
  intros Hp. induction parts as [|q parts IH]; [reflexivity|].
  destruct (parts ++ [p]) as [|r rest] eqn:E; [destruct parts; discriminate|].
  change (join sep ((q :: parts) ++ [p])) with (join sep (q :: parts ++ [p])).
  rewrite E.
  change (join sep (q :: r :: rest)) with (q ++ sep :: join sep (r :: rest)).
  rewrite last_app_cons, last_cons. rewrite IH.
  destruct (exists_last Hp) as (t & x & ->). rewrite last_snoc. reflexivity.
Qed.

Lemma plainWord_head (w : jsString) :
  plainWord w ->
  match head w with Some c => isWhiteSpace c = false | None => True end.
Proof.
  intros [_ H]. destruct w as [|c w]; [exact I|].
  apply Forall_cons in H as [[Hc _] _]. exact Hc.
Qed.

Lemma plainWord_last (w : jsString) :
  plainWord w ->
  match last w with Some c => isWhiteSpace c = false | None => True end.
Proof.
  intros [_ H]. destruct (last w) as [c|] eqn:El; [|exact I].
  apply last_Some in El as (t & ->).
  apply Forall_app in H as [_ H]. apply Forall_cons in H as [[Hc _] _].
  exact Hc.
Qed.

Lemma plainWord_not_in (w : jsString) (c : ascii) :
  plainWord w -> isWhiteSpace c = true \/ c = "="%char -> c ∉ w.
Proof.
  intros [_ H] Hc Hin. rewrite Forall_forall in H.
  destruct (H c Hin) as [Hw He]. destruct Hc as [Hc|Hc]; congruence.
Qed.

(** What [_processCDNConfig] makes of one well-formed line. *)
Lemma cdnLine_parts (kv : jsString * list jsString) :
  cdnPair_wf kv ->
  skippedLine (cdnLine kv) = false
  /\ split (cdnLine kv) "=" = [fst kv ++ lit " "; lit " " ++ join " " (snd kv)]
  /\ trim (fst kv ++ lit " ") = fst kv
  /\ split (trim (lit " " ++ join " " (snd kv))) " " = snd kv
  /\ LF ∉ cdnLine kv.
Proof.
  destruct kv as [k vs]. intros (Hk & Hhash & _ & Hvs & Hwords).
  cbn [fst snd] in *. unfold cdnLine. cbn [fst snd].
  destruct (exists_last Hvs) as (vs0 & v & ->).
  assert (Hv : plainWord v).
  { apply Forall_app in Hwords as [_ H]. apply Forall_cons in H as [H _].
    exact H. }
  assert (Hjoin_head :
    match head (join " " (vs0 ++ [v])) with
    | Some c => isWhiteSpace c = false | None => True end).
  { destruct vs0 as [|v0 vs0].
    - cbn [app join]. apply plainWord_head, Hv.
    - apply Forall_cons in Hwords as [Hv0 _].
      change ((v0 :: vs0) ++ [v]) with (v0 :: (vs0 ++ [v])).
      rewrite head_join by apply Hv0. apply plainWord_head, Hv0. }
  assert (Hjoin_last :
    match last (join " " (vs0 ++ [v])) with
    | Some c => isWhiteSpace c = false | None => True end).
  { rewrite last_join by apply Hv. apply plainWord_last, Hv. }
  assert (Hjoin_ne : join " " (vs0 ++ [v]) <> []).
  { intros E. rewrite E in Hjoin_last.
    pose proof (last_join " " vs0 v ltac:(apply Hv)) as Hl. rewrite E in Hl.
    destruct Hv as [Hv _]. destruct (exists_last Hv) as (t & x & ->).
    rewrite last_snoc in Hl. discriminate. }
  assert (Hin : forall c, isWhiteSpace c = true \/ c = "="%char ->
                          c ∈ join " " (vs0 ++ [v]) -> c = " "%char).
  { intros c Hc Hcin. apply elem_of_join in Hcin as [->|(p & Hp & Hcp)];
      [reflexivity|].
    rewrite Forall_forall in Hwords.
    exfalso. eapply plainWord_not_in; [apply Hwords, Hp|exact Hc|exact Hcp]. }
  split; [|split; [|split; [|split]]].
  - unfold skippedLine. apply orb_false_intro.
    + rewrite trim_keep.
      * destruct k; [destruct Hk as [Hk _]; contradiction|reflexivity].
      * destruct k as [|c k]; [destruct Hk as [Hk _]; contradiction|].
        apply (plainWord_head (c :: k) Hk).
      * change (lit " = ") with [" "%char; "="%char; " "%char].
        rewrite app_assoc, last_app.
        destruct (last (join " " (vs0 ++ [v]))) as [c|] eqn:El;
          [exact Hjoin_last|].
        apply last_None in El. contradiction.
    + destruct k as [|c k]; [destruct Hk as [Hk _]; contradiction|].
      change (lit "#") with ["#"%char]. cbn [app startsWith].
      rewrite andb_true_r. apply Ascii.eqb_neq. intros ->.
      apply Hhash. reflexivity.
  - change (lit " = ") with ([" "%char] ++ "="%char :: [" "%char]).
    rewrite <- !app_assoc. rewrite app_assoc. cbn [app].
    rewrite split_app_sep.
    + rewrite split_no_sep; [reflexivity|].
      intros Hc. apply elem_of_cons in Hc as [Hc|Hc]; [discriminate|].
      apply Hin in Hc; [discriminate|right; reflexivity].
    + intros Hc. apply elem_of_app in Hc as [Hc|Hc].
      * eapply plainWord_not_in; [exact Hk|right; reflexivity|exact Hc].
      * apply list_elem_of_singleton in Hc. discriminate.
  - apply (trim_around [] k (lit " ")).
    + constructor.
    + repeat constructor.
    + apply plainWord_head, Hk.
    + apply plainWord_last, Hk.
  - rewrite <- (app_nil_r (join " " (vs0 ++ [v]))) at 1.
    rewrite (trim_around (lit " ") (join " " (vs0 ++ [v])) [])
      by (repeat constructor || assumption).
    apply split_join; [destruct vs0; discriminate|].
    eapply Forall_impl; [exact Hwords|]. cbn. intros w Hw.
    eapply plainWord_not_in; [exact Hw|left; reflexivity].
  - intros Hc. apply elem_of_app in Hc as [Hc|Hc].
    + apply (plainWord_not_in k LF Hk); [left; reflexivity|exact Hc].
    + apply elem_of_app in Hc as [Hc|Hc].
      * repeat (apply elem_of_cons in Hc as [Hc|Hc]; [discriminate|]).
        apply elem_of_nil in Hc. exact Hc.
      * apply Hin in Hc; [discriminate|left; reflexivity].
Qed.

Lemma cdnConfigLines_pairs (kvs : list (jsString * list jsString)) :
  forall entries,
    Forall cdnPair_wf kvs ->
    exists r,
      cdnConfigLines (map cdnLine kvs) entries = Returns r
      /\ kvProto r = kvProto entries
      /\ forall key,
           kvOwn r !! key
           = match lastValue key kvs with
             | Some v => Some v
             | None => kvOwn entries !! key
             end.
Proof.
  induction kvs as [|kv kvs IH]; intros entries Hwf.
  - exists entries. repeat split; reflexivity.
  - apply Forall_cons in Hwf as [Hkv Hwf].
    destruct (cdnLine_parts kv Hkv) as (Hs & Hsplit & Hk & Hv & _).
    destruct Hkv as (_ & _ & Hproto & _).
    cbn [map cdnConfigLines]. rewrite Hs, Hsplit. cbn [length Nat.eqb negb nth].
    rewrite Hk, Hv. unfold setArrayProperty. rewrite decide_False by exact Hproto.
    destruct (IH (mkKeyValueConfig (<[fst kv := snd kv]> (kvOwn entries))
                    (kvProto entries)) Hwf) as (r & R & Hp & Hlook).
    exists r. split; [exact R|]. split; [exact Hp|].
    intros key. rewrite Hlook. cbn [lastValue kvOwn].
    destruct (lastValue key kvs); [reflexivity|].
    destruct (decide (fst kv = key)) as [->|Hne].
    + apply lookup_insert_eq.
    + apply lookup_insert_ne. exact Hne.
Qed.

(** X17. A CDN config made of lines [key = value value ...], keys and
    values being words without white space or [=], parses, and the object it
    gives holds under each key the values of the last line with that key,
    in order, and nothing under any other key. *)
Theorem _processCDNConfig_pairs (kvs : list (jsString * list jsString)) :
  Forall cdnPair_wf kvs ->
  exists r,
    _processCDNConfig (join LF (map cdnLine kvs)) = Returns r
    /\ kvProto r = None
    /\ forall key, kvOwn r !! key = lastValue key kvs.
Proof.
  intros Hwf. unfold _processCDNConfig.
  rewrite cdnConfigLines_join.
  - destruct (cdnConfigLines_pairs kvs (mkKeyValueConfig ∅ None) Hwf)
      as (r & R & Hp & Hlook).
    exists r. split; [exact R|]. split; [exact Hp|].
    intros key. rewrite Hlook. cbn [kvOwn]. rewrite lookup_empty.
    destruct (lastValue key kvs); reflexivity.
  - apply Forall_map. eapply Forall_impl; [exact Hwf|].
    intros kv Hkv. apply cdnLine_parts, Hkv.
Qed.

Lemma _processCDNConfig_pairs_witness :
  exists r,
    _processCDNConfig
      (join LF (map cdnLine [(lit "root", [lit "11"]);
                             (lit "archives", [lit "aa"; lit "bb"]);
                             (lit "root", [lit "22"])]))
    = Returns r
    /\ kvProto r = None
    /\ forall key,
         kvOwn r !! key
         = lastValue key [(lit "root", [lit "11"]);
                          (lit "archives", [lit "aa"; lit "bb"]);
                          (lit "root", [lit "22"])].
Proof.
  apply (_processCDNConfig_pairs
           [(lit "root", [lit "11"]);
            (lit "archives", [lit "aa"; lit "bb"]);
            (lit "root", [lit "22"])]).
  repeat (apply List.Forall_cons;
          [unfold cdnPair_wf, plainWord; cbn [fst snd];
           repeat (split || discriminate || reflexivity
                   || apply List.Forall_cons || apply List.Forall_nil)|]).
  apply List.Forall_nil.
Defined.

(** ** _processVersionConfig: the node of a line *)

Lemma fieldKey_lookup (fields : list jsString) (i : nat) (f : jsString) :
  fields !! i = Some f -> fieldKey fields i = f.
Proof. unfold fieldKey. intros ->. reflexivity. Qed.

Lemma fieldKey_past (fields : list jsString) (i : nat) :
  (length fields <= i)%nat -> fieldKey fields i = lit "undefined".
Proof.
  intros H. unfold fieldKey. rewrite lookup_ge_None_2 by exact H. reflexivity.
Qed.

(** A key no token is stored under keeps what it had. *)
Lemma versionNode_other (fields tokens : list jsString) (key : jsString) :
  forall i node,
    (forall j, (j < length tokens)%nat -> fieldKey fields (i + j) <> key) ->
    versionNode fields tokens i node !! key = node !! key.
Proof.
  induction tokens as [|t tokens IH]; intros i node H; [reflexivity|].
  cbn [versionNode]. rewrite IH.
  - unfold setStringProperty. destruct (decide _); [reflexivity|].
    apply lookup_insert_ne. specialize (H 0%nat). rewrite Nat.add_0_r in H.
    apply H. cbn [length]. lia.
  - intros j Hj. replace (S i + j)%nat with (i + S j)%nat by lia.
    apply H. cbn [length]. lia.
Qed.

(** The token at [j] is what its key holds, if no later token has the
    same key. *)
Lemma versionNode_at (fields tokens : list jsString) :
  forall i node j t,
    tokens !! j = Some t ->
    fieldKey fields (i + j) <> lit "__proto__" ->
    (forall j', (j < j' < length tokens)%nat ->
                fieldKey fields (i + j') <> fieldKey fields (i + j)) ->
    versionNode fields tokens i node !! fieldKey fields (i + j) = Some t.
Proof.
  induction tokens as [|t0 tokens IH]; intros i node j t Ht Hp Hlater;
    [discriminate|].
  destruct j as [|j].
  - injection Ht as ->. cbn [versionNode]. rewrite versionNode_other.
    + rewrite Nat.add_0_r in *. unfold setStringProperty.
      rewrite decide_False by exact Hp. apply lookup_insert_eq.
    + intros j' Hj'. replace (S i + j')%nat with (i + S j')%nat by lia.
      apply Hlater. cbn [length]. lia.
  - cbn [versionNode]. cbn in Ht.
    replace (i + S j)%nat with (S i + j)%nat in * by lia.
    apply IH; [exact Ht|exact Hp|].
    intros j' Hj'. replace (S i + j')%nat with (i + S j')%nat by lia.
    apply Hlater. cbn [length]. lia.
Qed.

(** ** _processVersionConfig: a table *)

Lemma removeFirst_not_in (s : jsString) (c : ascii) :
  c ∉ s -> removeFirst s c = s.
Proof.
  induction s as [|d s IH]; intros H; [reflexivity|].
  apply not_elem_of_cons in H as [Hd H]. cbn [removeFirst].
  destruct (Ascii.eqb_spec d c) as [->|_]; [contradiction|].
  rewrite IH by exact H. reflexivity.
Qed.

Lemma columnName_not_in (name : jsString) (c : ascii) :
  columnName name ->
  c = "!"%char \/ c = "|"%char \/ c = " "%char \/ c = LF ->
  c ∉ name.
Proof.
  intros [H _] Hc Hin. rewrite Forall_forall in H.
  destruct (H c Hin) as (H1 & H2 & H3 & H4).
  destruct Hc as [Hc|[Hc|[Hc|Hc]]]; contradiction.
Qed.

Lemma tableCell_not_in (cell : jsString) (c : ascii) :
  tableCell cell -> c = "|"%char \/ c = LF -> c ∉ cell.
Proof.
  intros H Hc Hin. unfold tableCell in H. rewrite Forall_forall in H.
  destruct (H c Hin) as (H1 & H2).
  destruct Hc as [Hc|Hc]; contradiction.
Qed.

Lemma headerField_headerCell (col : jsString * jsString) :
  columnName (fst col) -> headerField (headerCell col) = fst col.
Proof.
  intros H. unfold headerField, headerCell.
  rewrite split_app_sep
    by (apply (columnName_not_in _ _ H); left; reflexivity).
  cbn [nth]. apply removeFirst_not_in.
  apply (columnName_not_in _ _ H). right; right; left; reflexivity.
Qed.

Lemma headerCell_not_in (col : jsString * jsString) (c : ascii) :
  columnName (fst col) -> tableCell (snd col) ->
  c = "|"%char \/ c = LF -> c ∉ headerCell col.
Proof.
  intros Hn Ht Hc Hin. unfold headerCell in Hin.
  apply elem_of_app in Hin as [Hin|Hin].
  - apply (columnName_not_in _ c Hn); [|exact Hin].
    destruct Hc as [Hc|Hc]; [right; left; exact Hc|right; right; right; exact Hc].
  - apply elem_of_cons in Hin as [Hin|Hin].
    + destruct Hc as [Hc|Hc]; rewrite Hc in Hin; discriminate.
    + apply (tableCell_not_in _ c Ht Hc Hin).
Qed.

Lemma join_not_in (sep c : ascii) (parts : list jsString) :
  c <> sep -> Forall (fun p => c ∉ p) parts -> c ∉ join sep parts.
Proof.
  intros Hs H Hin. apply elem_of_join in Hin as [Hin|(p & Hp & Hin)];
    [contradiction|].
  rewrite Forall_forall in H. apply (H p Hp Hin).
Qed.

Lemma skippedLine_nonempty (parts : list jsString) (sep : ascii) :
  skippedLine (join sep parts) = false -> parts <> [].
Proof. intros H ->. discriminate. Qed.

(** The value lines, each giving a node. *)
Lemma versionConfigLines_rows (fields : list jsString)
    (rows : list (list jsString)) :
  forall index entries,
    index <> 0%nat ->
    Forall (fun row => Forall tableCell row
                       /\ skippedLine (join "|" row) = false) rows ->
    versionConfigLines (map (join "|") rows) index fields entries
    = entries ++ map (fun row => versionNode fields row 0 ∅) rows.
Proof.
  induction rows as [|row rows IH]; intros index entries Hi Hwf.
  - cbn [map versionConfigLines]. rewrite app_nil_r. reflexivity.
  - apply Forall_cons in Hwf as [[Hcells Hskip] Hwf].
    cbn [map versionConfigLines]. rewrite Hskip.
    destruct (Nat.eqb_spec index 0) as [->|_]; [contradiction|].
    rewrite split_join.
    + rewrite IH by (exact Hwf || discriminate).
      rewrite <- app_assoc. reflexivity.
    + eapply skippedLine_nonempty, Hskip.
    + eapply Forall_impl; [exact Hcells|]. cbn. intros cell Hc.
      apply (tableCell_not_in _ _ Hc). left; reflexivity.
Qed.

(** A table parses into one node per row, made of the names of the header
    and the cells of the row. *)
Lemma _processVersionConfig_versionTable (cols : list (jsString * jsString))
    (rows : list (list jsString)) :
  versionTable_wf cols rows ->
  _processVersionConfig (versionTable cols rows)
  = map (fun row => versionNode (map fst cols) row 0 ∅) rows.
Proof.
  intros (Hcols & Hhead & Hrows).
  unfold _processVersionConfig, versionTable.
  rewrite split_lines.
  - cbn [versionConfigLines]. rewrite Hhead. cbn [Nat.eqb].
    rewrite split_join.
    + rewrite versionConfigLines_rows by (exact Hrows || discriminate).
      cbn [app].
      assert (E : map headerField (map headerCell cols) = map fst cols).
      { rewrite map_map. apply map_ext_in.
        intros col Hin. apply headerField_headerCell.
        rewrite Forall_forall in Hcols. apply list_elem_of_In in Hin.
        apply (Hcols col Hin). }
      rewrite E. reflexivity.
    + intros E. apply (skippedLine_nonempty _ _ Hhead).
      destruct cols; [reflexivity|discriminate].
    + apply Forall_map. eapply Forall_impl; [exact Hcols|]. cbn.
      intros col [Hn Ht]. apply (headerCell_not_in col _ Hn Ht).
      left; reflexivity.
  - apply Forall_cons. split.
    + apply join_not_in; [discriminate|].
      apply Forall_map. eapply Forall_impl; [exact Hcols|]. cbn.
      intros col [Hn Ht]. apply (headerCell_not_in col _ Hn Ht).
      right; reflexivity.
    + apply Forall_map. eapply Forall_impl; [exact Hrows|]. cbn.
      intros row [Hcells _]. apply join_not_in; [discriminate|].
      eapply Forall_impl; [exact Hcells|]. cbn. intros cell Hc.
      apply (tableCell_not_in _ _ Hc). right; reflexivity.
Qed.

Lemma columnName_names (cols : list (jsString * jsString))
    (j : nat) (name : jsString) :
  Forall (fun col => columnName (fst col) /\ tableCell (snd col)) cols ->
  map fst cols !! j = Some name -> name <> lit "__proto__".
Proof.
  intros H Hj. rewrite Forall_forall in H.
  change (map fst cols) with (fst <$> cols) in Hj.
  rewrite list_lookup_fmap in Hj.
  destruct (cols !! j) as [col|] eqn:E; [|discriminate].
  injection Hj as <-. apply list_elem_of_lookup_2 in E.
  apply (H col E).
Qed.

(** X18. A version table whose rows have no more cells than the header has
    columns, the column names being distinct, parses into one entry per
    row, in order; the entry of a row holds under each column name the
    cell of that column, nothing under the names of the columns the row
    is too short for, and nothing under any other key. *)
Theorem _processVersionConfig_table (cols : list (jsString * jsString))
    (rows : list (list jsString)) :
  versionTable_wf cols rows ->
  NoDup (map fst cols) ->
  Forall (fun row => (length row <= length cols)%nat) rows ->
  length (_processVersionConfig (versionTable cols rows)) = length rows
  /\ forall i row,
       rows !! i = Some row ->
       exists node,
         _processVersionConfig (versionTable cols rows) !! i = Some node
         /\ (forall j name,
               map fst cols !! j = Some name -> node !! name = row !! j)
         /\ (forall key, key ∉ map fst cols -> node !! key = None).
Proof.
  intros Hwf Hnd Hlen.
  rewrite (_processVersionConfig_versionTable cols rows Hwf).
  split; [apply length_map|].
  intros i row Hrow. exists (versionNode (map fst cols) row 0 ∅).
  assert (Hl : (length row <= length (map fst cols))%nat).
  { rewrite length_map. rewrite Forall_forall in Hlen.
    apply Hlen. eapply list_elem_of_lookup_2, Hrow. }
  split; [|split].
  - change (map ?f rows) with (f <$> rows).
    rewrite list_lookup_fmap, Hrow. reflexivity.
  - intros j name Hname.
    destruct (row !! j) as [t|] eqn:Et.
    + rewrite <- (fieldKey_lookup _ _ _ Hname).
      apply (versionNode_at (map fst cols) row 0 ∅ j t Et).
      * cbn [Nat.add]. rewrite (fieldKey_lookup _ _ _ Hname).
        destruct Hwf as (Hcols & _). apply (columnName_names cols j name Hcols Hname).
      * intros j' Hj'. cbn [Nat.add].
        destruct (lookup_lt_is_Some_2 (map fst cols) j' ltac:(lia)) as [n' Hn'].
        rewrite (fieldKey_lookup _ _ _ Hn'), (fieldKey_lookup _ _ _ Hname).
        intros ->. pose proof (NoDup_lookup _ _ _ _ Hnd Hn' Hname). lia.
    + rewrite versionNode_other; [apply lookup_empty|].
      intros j' Hj'. cbn [Nat.add].
      destruct (lookup_lt_is_Some_2 (map fst cols) j' ltac:(lia)) as [n' Hn'].
      rewrite (fieldKey_lookup _ _ _ Hn').
      intros ->. pose proof (NoDup_lookup _ _ _ _ Hnd Hn' Hname) as ->.
      apply lookup_ge_None_1 in Et. lia.
  - intros key Hkey. rewrite versionNode_other; [apply lookup_empty|].
    intros j' Hj'. cbn [Nat.add].
    destruct (lookup_lt_is_Some_2 (map fst cols) j' ltac:(lia)) as [n' Hn'].
    rewrite (fieldKey_lookup _ _ _ Hn').
    intros ->. apply Hkey. eapply list_elem_of_lookup_2, Hn'.
Qed.

Lemma _processVersionConfig_table_witness :
  length (_processVersionConfig
            (versionTable [(lit "Region", lit "STRING:0");
                           (lit "BuildConfig", lit "HEX:16");
                           (lit "BuildId", lit "DEC:4")]
                          [[lit "us"; lit "0a1b"; lit "27101"];
                           [lit "eu"; lit "0c2d"]]))
  = length [[lit "us"; lit "0a1b"; lit "27101"]; [lit "eu"; lit "0c2d"]]
  /\ forall i row,
       [[lit "us"; lit "0a1b"; lit "27101"]; [lit "eu"; lit "0c2d"]] !! i
       = Some row ->
       exists node,
         _processVersionConfig
           (versionTable [(lit "Region", lit "STRING:0");
                          (lit "BuildConfig", lit "HEX:16");
                          (lit "BuildId", lit "DEC:4")]
                         [[lit "us"; lit "0a1b"; lit "27101"];
                          [lit "eu"; lit "0c2d"]]) !! i
         = Some node
         /\ (forall j name,
               map fst [(lit "Region", lit "STRING:0");
                        (lit "BuildConfig", lit "HEX:16");
                        (lit "BuildId", lit "DEC:4")] !! j = Some name ->
               node !! name = row !! j)
         /\ (forall key,
               key ∉ map fst [(lit "Region", lit "STRING:0");
                              (lit "BuildConfig", lit "HEX:16");
                              (lit "BuildId", lit "DEC:4")] ->
               node !! key = None).
Proof.
  apply (_processVersionConfig_table
           [(lit "Region", lit "STRING:0");
            (lit "BuildConfig", lit "HEX:16");
            (lit "BuildId", lit "DEC:4")]
           [[lit "us"; lit "0a1b"; lit "27101"]; [lit "eu"; lit "0c2d"]]).
  - unfold versionTable_wf, columnName, tableCell. cbn [fst snd].
    repeat (split || discriminate || reflexivity
            || apply List.Forall_cons || apply List.Forall_nil).
  - apply (bool_decide_unpack _). vm_compute. exact I.
  - repeat (apply List.Forall_cons; [cbn [length]; lia|]).
    apply List.Forall_nil.
Defined.

(** X19. A row with more cells than the header has columns still gives an
    entry: the cells of the columns are under their names, and the key
    [undefined] holds the last cell of the row, the other cells past the
    header being lost. *)
Theorem _processVersionConfig_long_row (cols : list (jsString * jsString))
    (rows : list (list jsString)) (i : nat) (row : list jsString) :
  versionTable_wf cols rows ->
  NoDup (map fst cols) ->
  lit "undefined" ∉ map fst cols ->
  rows !! i = Some row ->
  (length cols < length row)%nat ->
  exists node,
    _processVersionConfig (versionTable cols rows) !! i = Some node
    /\ node !! lit "undefined" = last row
    /\ (forall j name,
          map fst cols !! j = Some name -> node !! name = row !! j).
Proof.
  intros Hwf Hnd Hund Hrow Hlen.
  rewrite (_processVersionConfig_versionTable cols rows Hwf).
  exists (versionNode (map fst cols) row 0 ∅).
  assert (Hl : length (map fst cols) = length cols) by apply length_map.
  split; [|split].
  - change (map ?f rows) with (f <$> rows).
    rewrite list_lookup_fmap, Hrow. reflexivity.
  - destruct (last row) as [t|] eqn:El;
      [|apply last_None in El; subst row; cbn in Hlen; lia].
    apply last_Some in El as (init & ->).
    rewrite length_app in Hlen. cbn [length] in Hlen.
    rewrite <- (fieldKey_past (map fst cols) (0 + length init)) by (cbn; lia).
    apply versionNode_at.
    + apply list_lookup_middle. reflexivity.
    + rewrite fieldKey_past by (cbn; lia). discriminate.
    + intros j'. rewrite length_app. cbn [length]. lia.
  - intros j name Hname.
    pose proof (lookup_lt_Some _ _ _ Hname) as Hj.
    destruct (lookup_lt_is_Some_2 row j ltac:(lia)) as [t Et].
    rewrite Et. rewrite <- (fieldKey_lookup _ _ _ Hname).
    apply (versionNode_at (map fst cols) row 0 ∅ j t Et).
    + cbn [Nat.add]. rewrite (fieldKey_lookup _ _ _ Hname).
      destruct Hwf as (Hcols & _). apply (columnName_names cols j name Hcols Hname).
    + intros j' Hj'. cbn [Nat.add]. rewrite (fieldKey_lookup _ _ _ Hname).
      destruct (le_lt_dec (length (map fst cols)) j') as [Hge|Hlt].
      * rewrite fieldKey_past by exact Hge. intros E. apply Hund.
        rewrite E. eapply list_elem_of_lookup_2, Hname.
      * destruct (lookup_lt_is_Some_2 (map fst cols) j' Hlt) as [n' Hn'].
        rewrite (fieldKey_lookup _ _ _ Hn').
        intros ->. pose proof (NoDup_lookup _ _ _ _ Hnd Hn' Hname). lia.
Qed.

Lemma _processVersionConfig_long_row_witness :
  exists node,
    _processVersionConfig
      (versionTable [(lit "Region", lit "STRING:0");
                     (lit "BuildId", lit "DEC:4")]
                    [[lit "us"; lit "27101"; lit "x"; lit "y"]]) !! 0%nat
    = Some node
    /\ node !! lit "undefined" = last [lit "us"; lit "27101"; lit "x"; lit "y"]
    /\ (forall j name,
          map fst [(lit "Region", lit "STRING:0");
                   (lit "BuildId", lit "DEC:4")] !! j = Some name ->
          node !! name = [lit "us"; lit "27101"; lit "x"; lit "y"] !! j).
Proof.
  apply (_processVersionConfig_long_row
           [(lit "Region", lit "STRING:0"); (lit "BuildId", lit "DEC:4")]
           [[lit "us"; lit "27101"; lit "x"; lit "y"]] 0
           [lit "us"; lit "27101"; lit "x"; lit "y"]).
  - unfold versionTable_wf, columnName, tableCell. cbn [fst snd].
    repeat (split || discriminate || reflexivity
            || apply List.Forall_cons || apply List.Forall_nil).
  - apply (bool_decide_unpack _). vm_compute. exact I.
  - apply (bool_decide_unpack _). vm_compute. exact I.
  - reflexivity.
  - cbn [length]. lia.
Defined.

(** ** _processVersionConfig: how many entries *)

Lemma versionConfigLines_length (lines : list jsString) :
  forall index fields entries,
    length (versionConfigLines lines index fields entries)
    = (length entries
       + if (index =? 0)%nat then pred (length (dataLines lines))
         else length (dataLines lines))%nat.
Proof.
  induction lines as [|line lines IH]; intros index fields entries.
  - cbn. destruct (index =? 0)%nat; lia.
  - unfold dataLines. rewrite filter_cons. cbn [versionConfigLines].
    fold (dataLines lines).
    destruct (skippedLine line) eqn:Es.
    + rewrite decide_False by discriminate. apply IH.
    + rewrite decide_True by reflexivity. cbn [length].
      destruct (Nat.eqb_spec index 0) as [->|Hi].
      * rewrite IH. cbn [Nat.eqb pred]. reflexivity.
      * rewrite IH. rewrite length_app. cbn [Nat.eqb length]. lia.
Qed.

(** X20. Of the lines of a version config that are neither blank nor
    comments, the first is always taken as the header and gives no entry,
    and each later one gives exactly one entry, whatever it holds. *)
Theorem _processVersionConfig_length (data : jsString) :
  length (_processVersionConfig data)
  = pred (length (dataLines (split data LF))).
Proof.
  unfold _processVersionConfig. rewrite versionConfigLines_length.
  reflexivity.
Qed.
